(** * friend-graph: the graph store and force simulator of [src/graph.js]

    A shallow embedding of the [Node] and [Graph] classes.  JavaScript
    numbers used as coordinates and tunables are IEEE binary64 values
    (Rocq's primitive floats); numbers used as array indices are [nat];
    arrays are lists in which an out-of-range read gives [undefined] and an
    out-of-range write extends the array with holes; the [Map] keyed by
    strings is a [gmap string nat]; a [Set] of indices is a [gset nat].  A
    call that raises a [TypeError] ends in [Throw], carrying the state as it
    was when the error was raised. *)

From Stdlib Require Import Floats ZArith Ascii.
From stdpp Require Import gmap strings list pretty.

Set Warnings "-inexact-float,-clear-no-such-hyp".

(** ** JavaScript numbers *)

Module Math.

Definition abs (v : float) : float := PrimFloat.abs v.

(** [Math.max] on two arguments: NaN when either is NaN, and [+0] is larger
    than [-0]. *)
Definition max (a b : float) : float :=
  if (PrimFloat.is_nan a || PrimFloat.is_nan b)%bool then nan
  else if (a <? b)%float then b
  else if (b <? a)%float then a
  else if PrimFloat.is_zero a then (a + b)%float
  else a.

Definition sqrt (v : float) : float := PrimFloat.sqrt v.

End Math.

(** ** Two-dimensional vectors *)

Record vec : Type := Vec { x : float; y : float }.

(** Modelled from the spec: the [vec2] helpers ([vec2], [vec2.add],
    [vec2.sub], [vec2.mul], [vec2.div], [vec2.len], [vec2.eq]) that
    [graph.js] calls are not among the sources.  They are taken to be the
    componentwise operations on binary64 numbers that the specification's
    formulas ([r = pos(j) - pos(i)], [length(r)], [dir = r / dist]) name;
    [vec2.eq] compares both coordinates with [===]. *)
Definition vec2 (a b : float) : vec := Vec a b.

Definition vec2_add (u v : vec) : vec := vec2 (x u + x v)%float (y u + y v)%float.
Definition vec2_sub (u v : vec) : vec := vec2 (x u - x v)%float (y u - y v)%float.
Definition vec2_mul (u : vec) (s : float) : vec := vec2 (x u * s)%float (y u * s)%float.
Definition vec2_div (u : vec) (s : float) : vec := vec2 (x u / s)%float (y u / s)%float.
Definition vec2_len (u : vec) : float := Math.sqrt (x u * x u + y u * y u)%float.
Definition vec2_eq (u v : vec) : bool := ((x u =? x v)%float && (y u =? y v)%float)%bool.

(** The negation of a vector; used to state what a contribution's opposite is. *)
Definition vec2_neg (u : vec) : vec := vec2 (- x u)%float (- y u)%float.

(** ** Nodes, edges and the graph *)

(** The time value of a [Date], which is what [getTime()] returns and the
    only thing the graph reads of a date: a whole number of milliseconds, or
    [NaN] for an Invalid Date (such as [new Date(NaN, 0, 1)], which the page
    builds from an empty year field). *)
Inductive time_value : Type :=
| NaN
| Millis (ms : Z).

Record Date : Type := { getTime : time_value }.

(** [a < b] on two time values: [false] when either is [NaN]. *)
Definition time_lt (a b : time_value) : bool :=
  match a, b with
  | Millis x, Millis y => bool_decide (x < y)%Z
  | _, _ => false
  end.

Record Node : Type := { name : string; image : option string; pos : vec }.

(** [new Node(name)]. *)
Definition new_Node (nm : string) : Node :=
  {| name := nm; image := None; pos := vec2 0 0 |}.

(** What a cell of [this.nodes] can hold: [undefined] (a hole left by a
    write past the end), [null] (a freed slot) or a node. *)
Inductive slot : Type :=
| Undefined
| Null
| Live (n : Node).

(** An entry [[a, b, date]] of [this.edges]. *)
Abbreviation Edge := (nat * nat * Date)%type (only parsing).

Record Graph : Type := {
  nodes : list slot;
  edges : list Edge;
  _pairToEdgeIndex : gmap string nat;
  _adj : list (option (gset nat));
  springK : float;
  springRest : float;
  repelK : float;
  closeRepelK : float;
  centerK : float;
  jitter : list vec
}.

(** The constructor. *)
Definition new_Graph : Graph := {|
  nodes := [];
  edges := [];
  _pairToEdgeIndex := ∅;
  _adj := [];
  springK := 0.6;
  springRest := 140;
  repelK := 2600;
  closeRepelK := 500;
  centerK := 0.020;
  jitter := [ vec2 2.5 0; vec2 1.8 1.8; vec2 0 2.5; vec2 (-1.8) 1.8;
              vec2 (-2.5) 0; vec2 (-1.8) (-1.8); vec2 0 (-2.5); vec2 1.8 (-1.8) ]
|}.

(** Field assignments. *)
Definition set_nodes (ns : list slot) (g : Graph) : Graph :=
  {| nodes := ns; edges := edges g; _pairToEdgeIndex := _pairToEdgeIndex g;
     _adj := _adj g; springK := springK g; springRest := springRest g;
     repelK := repelK g; closeRepelK := closeRepelK g; centerK := centerK g;
     jitter := jitter g |}.

Definition set_edges (es : list Edge) (g : Graph) : Graph :=
  {| nodes := nodes g; edges := es; _pairToEdgeIndex := _pairToEdgeIndex g;
     _adj := _adj g; springK := springK g; springRest := springRest g;
     repelK := repelK g; closeRepelK := closeRepelK g; centerK := centerK g;
     jitter := jitter g |}.

Definition set_pairToEdgeIndex (m : gmap string nat) (g : Graph) : Graph :=
  {| nodes := nodes g; edges := edges g; _pairToEdgeIndex := m;
     _adj := _adj g; springK := springK g; springRest := springRest g;
     repelK := repelK g; closeRepelK := closeRepelK g; centerK := centerK g;
     jitter := jitter g |}.

Definition set_adj (adj : list (option (gset nat))) (g : Graph) : Graph :=
  {| nodes := nodes g; edges := edges g; _pairToEdgeIndex := _pairToEdgeIndex g;
     _adj := adj; springK := springK g; springRest := springRest g;
     repelK := repelK g; closeRepelK := closeRepelK g; centerK := centerK g;
     jitter := jitter g |}.

(** ** Arrays *)

(** [arr[i] = v]: in range it overwrites; past the end the array grows to
    length [i + 1] and the cells in between are holes. *)
Definition array_set {A : Type} (hole : A) (l : list A) (i : nat) (v : A) : list A :=
  if decide (i < length l) then <[i := v]> l
  else l ++ replicate (i - length l) hole ++ [v].

(** [this.nodes[i]]: a read out of range gives [undefined]. *)
Definition node_at (g : Graph) (i : nat) : slot := default Undefined (nodes g !! i).

(** [this._adj[i]]: [None] stands for [undefined]. *)
Definition adj_at (adj : list (option (gset nat))) (i : nat) : option (gset nat) :=
  default None (adj !! i).

(** ** Results of calls *)

(** A call either returns a value or raises a [TypeError]; both leave a
    state behind. *)
Inductive outcome (A : Type) : Type :=
| Return (a : A) (g : Graph)
| Throw (g : Graph).
Arguments Return {A} a g.
Arguments Throw {A} g.

Definition state_of {A : Type} (o : outcome A) : Graph :=
  match o with Return _ g => g | Throw g => g end.

Definition bind {A B : Type} (o : outcome A) (k : A → Graph → outcome B) : outcome B :=
  match o with Return a g => k a g | Throw g => Throw g end.

Notation "'let*' v ':=' o 'in' k" := (bind o (fun v => k))
  (at level 10, v name, o at level 100, k at level 200, only parsing).

(** ** getOrCreateNodeIndex *)

Inductive scan : Type :=
| Found (idx : nat)
| NotFound
| TypeError.

(** The first loop: [n !== null && n.name === name] on each cell from
    [idx] on; reading [.name] of [undefined] raises. *)
Fixpoint scan_name (nm : string) (l : list slot) (idx : nat) : scan :=
  match l with
  | [] => NotFound
  | Null :: l' => scan_name nm l' (S idx)
  | Undefined :: _ => TypeError
  | Live n :: l' =>
      if decide (name n = nm) then Found idx else scan_name nm l' (S idx)
  end.

(** The second loop: the first cell that is [=== null]. *)
Fixpoint scan_null (l : list slot) (idx : nat) : option nat :=
  match l with
  | [] => None
  | Null :: _ => Some idx
  | _ :: l' => scan_null l' (S idx)
  end.

Definition getOrCreateNodeIndex (nm : string) (g : Graph) : outcome nat :=
  match scan_name nm (nodes g) 0 with
  | Found idx => Return idx g
  | TypeError => Throw g
  | NotFound =>
      match scan_null (nodes g) 0 with
      | Some idx =>
          Return idx
            (set_adj (array_set None (_adj g) idx (Some ∅))
               (set_nodes (array_set Undefined (nodes g) idx (Live (new_Node nm))) g))
      | None =>
          Return (length (nodes g))
            (set_adj (_adj g ++ [Some ∅])
               (set_nodes (nodes g ++ [Live (new_Node nm)]) g))
      end
  end.

(** ** isFree, degree, renameNode *)

(** [s === null]. *)
Definition is_null (s : slot) : bool :=
  match s with Null => true | _ => false end.

Definition isFree (i : nat) (g : Graph) : bool := is_null (node_at g i).

Definition degree (i : nat) (g : Graph) : outcome nat :=
  match adj_at (_adj g) i with
  | Some s => Return (size s) g
  | None => Throw g
  end.

Definition renameNode (i : nat) (newName : string) (g : Graph) : outcome unit :=
  match node_at g i with
  | Live n =>
      Return tt
        (set_nodes (<[i := Live {| name := newName; image := image n; pos := pos n |}]> (nodes g)) g)
  | _ => Throw g
  end.

(** ** addOrUpdateEdge *)

(** [a + ":" + b]. *)
Definition key (a b : nat) : string := pretty a +:+ ":" +:+ pretty b.

(** [adj[a].add(b)]; [None] when [adj[a]] is [undefined]. *)
Definition adj_add (adj : list (option (gset nat))) (a b : nat)
  : option (list (option (gset nat))) :=
  match adj_at adj a with
  | Some s => Some (<[a := Some (s ∪ {[b]})]> adj)
  | None => None
  end.

(** The three statements that register edge number [e] between [a] and [b],
    as they end both [addOrUpdateEdge] and the loop body of
    [_rebuildEdgeIndex]:
    [_pairToEdgeIndex.set(key, e); _adj[a].add(b); _adj[b].add(a)]. *)
Definition register_edge (a b e : nat) (g : Graph) : outcome unit :=
  let g1 := set_pairToEdgeIndex (<[key a b := e]> (_pairToEdgeIndex g)) g in
  match adj_add (_adj g1) a b with
  | None => Throw g1
  | Some adj1 =>
      let g2 := set_adj adj1 g1 in
      match adj_add adj1 b a with
      | None => Throw g2
      | Some adj2 => Return tt (set_adj adj2 g2)
      end
  end.

Definition addOrUpdateEdge (i j : nat) (date : Date) (g : Graph) : outcome unit :=
  let a := if decide (i < j) then i else j in
  let b := if decide (i < j) then j else i in
  match _pairToEdgeIndex g !! key a b with
  | Some existing =>
      match edges g !! existing with
      | Some (ea, eb, old) =>
          if time_lt (getTime date) (getTime old)
          then Return tt (set_edges (<[existing := (ea, eb, date)]> (edges g)) g)
          else Return tt g
      | None => Throw g
      end
  | None =>
      let idx := length (edges g) in
      register_edge a b idx (set_edges (edges g ++ [(a, b, date)]) g)
  end.

(** ** addFriendGroup *)

(** The first loop: [indices.push(this.getOrCreateNodeIndex(names[i]))]. *)
Fixpoint resolve_names (names : list string) (indices : list nat) (g : Graph)
  : outcome (list nat) :=
  match names with
  | [] => Return indices g
  | nm :: rest =>
      let* idx := getOrCreateNodeIndex nm g in
      resolve_names rest (indices ++ [idx])
  end.

(** The inner loop, for one [a]: [rest] is [indices[a+1 ..]]. *)
Fixpoint link_from (ia : nat) (rest : list nat) (date : Date) (g : Graph) : outcome unit :=
  match rest with
  | [] => Return tt g
  | ib :: rest' =>
      let* _ := addOrUpdateEdge ia ib date g in
      link_from ia rest' date
  end.

(** The outer loop over [a]. *)
Fixpoint link_all (indices : list nat) (date : Date) (g : Graph) : outcome unit :=
  match indices with
  | [] => Return tt g
  | ia :: rest =>
      let* _ := link_from ia rest date g in
      link_all rest date
  end.

Definition addFriendGroup (names : list string) (date : Date) (g : Graph) : outcome unit :=
  let* indices := resolve_names names [] g in
  link_all indices date.

(** ** deleteNode and _rebuildEdgeIndex *)

(** The loop of [_rebuildEdgeIndex] over [this.edges[e ..]]. *)
Fixpoint rebuild_loop (es : list Edge) (e : nat) (g : Graph) : outcome unit :=
  match es with
  | [] => Return tt g
  | (a, b, _) :: es' =>
      let* _ := register_edge a b e g in
      rebuild_loop es' (S e)
  end.

Definition _rebuildEdgeIndex (g : Graph) : outcome unit :=
  let g1 := set_pairToEdgeIndex ∅ g in
  let g2 := set_adj (replicate (length (_adj g1)) (Some ∅)) g1 in
  rebuild_loop (edges g2) 0 g2.

(** The filtering loop of [deleteNode]: the removed endpoint pairs and the
    kept edges, both in storage order. *)
Fixpoint split_incident (i : nat) (es : list Edge) : list (nat * nat) * list Edge :=
  match es with
  | [] => ([], [])
  | (a, b, d) :: es' =>
      let '(removedPairs, kept) := split_incident i es' in
      if (bool_decide (a = i) || bool_decide (b = i))%bool
      then ((a, b) :: removedPairs, kept)
      else (removedPairs, (a, b, d) :: kept)
  end.

Definition deleteNode (i : nat) (g : Graph) : outcome (list (nat * nat)) :=
  match node_at g i with
  | Null => Return [] g
  | _ =>
      let g1 := set_nodes (array_set Undefined (nodes g) i Null) g in
      let g2 := set_adj (array_set None (_adj g1) i (Some ∅)) g1 in
      let '(removedPairs, kept) := split_incident i (edges g2) in
      let g3 := set_edges kept g2 in
      let* _ := _rebuildEdgeIndex g3 in
      Return removedPairs
  end.

(** ** update *)

(** [s.pos]; [None] is the [TypeError] of reading a property of [undefined]
    or [null]. *)
Definition slot_pos (s : slot) : option vec :=
  match s with Live n => Some (pos n) | _ => None end.

(** [forces[k] = op(forces[k], f)]. *)
Definition accumulate (op : vec → vec → vec) (forces : list vec) (k : nat) (f : vec)
  : option (list vec) :=
  fk ← forces !! k; Some (<[k := op fk f]> forces).

(** The separation vector [r] of a pair whose second node has index [j]:
    [if (vec2.eq(pi, pj)) pj = vec2.add(pj, this.jitter[j & 7]);
     r = vec2.sub(pj, pi)].  Adding [undefined] (a missing table entry)
    raises. *)
Definition separation (g : Graph) (j : nat) (pi pj : vec) : option vec :=
  pj ← (if vec2_eq pi pj
        then jit ← jitter g !! Nat.land j 7; Some (vec2_add pj jit)
        else Some pj);
  Some (vec2_sub pj pi).

(** The body of the inner loop for a pair [i2 < j] of cells that are not
    [null]. *)
Definition pair_interaction (g : Graph) (i2 j : nat) (forces : list vec)
  : option (list vec) :=
  pi ← slot_pos (node_at g i2);
  pj ← slot_pos (node_at g j);
  r ← separation g j pi pj;
  let dist := vec2_len r in
  let dir := vec2_div r dist in
  let dist := Math.max dist 1 in
  adji ← adj_at (_adj g) i2;
  let connected := bool_decide (j ∈ adji) in
  forces ←
    (if connected then
       let stretch := (dist - springRest g)%float in
       let fMag := (springK g * stretch * Math.abs stretch / springRest g)%float in
       let fSpring := vec2_mul dir fMag in
       forces ← accumulate vec2_add forces i2 fSpring;
       accumulate vec2_sub forces j fSpring
     else
       let fRepel := (repelK g / (dist * dist))%float in
       let frep := vec2_mul dir fRepel in
       forces ← accumulate vec2_sub forces i2 frep;
       accumulate vec2_add forces j frep);
  let fClose := (closeRepelK g / (dist * dist * dist * dist))%float in
  let fcl := vec2_mul dir fClose in
  forces ← accumulate vec2_sub forces i2 fcl;
  accumulate vec2_add forces j fcl.

(** A [for] loop over the indices [idxs] whose body may raise. *)
Fixpoint for_each {S : Type} (body : nat → S → option S) (idxs : list nat) (s : S)
  : option S :=
  match idxs with
  | [] => Some s
  | k :: ks => s' ← body k s; for_each body ks s'
  end.

Definition inner_loop (g : Graph) (i2 n : nat) (forces : list vec) : option (list vec) :=
  for_each
    (λ j forces, if is_null (node_at g j) then Some forces
                 else pair_interaction g i2 j forces)
    (seq (S i2) (n - S i2)) forces.

Definition pair_loop (g : Graph) (n : nat) (forces : list vec) : option (list vec) :=
  for_each
    (λ i2 forces, if is_null (node_at g i2) then Some forces
                  else inner_loop g i2 n forces)
    (seq 0 n) forces.

Definition center_loop (g : Graph) (n : nat) (forces : list vec) : option (list vec) :=
  for_each
    (λ k forces, if is_null (node_at g k) then Some forces
                 else p ← slot_pos (node_at g k);
                      accumulate vec2_sub forces k (vec2_mul p (centerK g)))
    (seq 0 n) forces.

(** The last loop: [nodes[m].pos = vec2.add(nodes[m].pos, vec2.mul(forces[m], dt))]. *)
Fixpoint integrate (forces : list vec) (dt : float) (ms : list nat) (g : Graph)
  : outcome unit :=
  match ms with
  | [] => Return tt g
  | m :: ms' =>
      match node_at g m with
      | Null => integrate forces dt ms' g
      | Undefined => Throw g
      | Live nd =>
          match forces !! m with
          | None => Throw g
          | Some fm =>
              let nd' := {| name := name nd; image := image nd;
                            pos := vec2_add (pos nd) (vec2_mul fm dt) |} in
              integrate forces dt ms' (set_nodes (<[m := Live nd']> (nodes g)) g)
          end
      end
  end.

Definition update (t : float) (g : Graph) : outcome unit :=
  let n := length (nodes g) in
  if decide (n = 0) then Return tt g
  else
    let forces := replicate n (vec2 0 0) in
    match pair_loop g n forces ≫= center_loop g n with
    | None => Throw g
    | Some forces => let dt := t in integrate forces dt (seq 0 n) g
    end.

(** ** Writes made by the page

    [main] writes two fields of a node directly: [graph.nodes[i].pos = p]
    while a node is dragged, and [graph.nodes[i].image = dataUrl] when a
    picture is chosen. *)

Definition set_pos (i : nat) (p : vec) (g : Graph) : outcome unit :=
  match node_at g i with
  | Live n =>
      Return tt
        (set_nodes (<[i := Live {| name := name n; image := image n; pos := p |}]> (nodes g)) g)
  | _ => Throw g
  end.

Definition set_image (i : nat) (dataUrl : string) (g : Graph) : outcome unit :=
  match node_at g i with
  | Live n =>
      Return tt
        (set_nodes (<[i := Live {| name := name n; image := Some dataUrl; pos := pos n |}]>
                      (nodes g)) g)
  | _ => Throw g
  end.

(** ** The operations as data *)

Inductive operation : Type :=
| GetOrCreateNodeIndex (nm : string)
| IsFree (i : nat)
| AddFriendGroup (names : list string) (date : Date)
| Degree (i : nat)
| RenameNode (i : nat) (newName : string)
| Update (t : float)
| AddOrUpdateEdge (i j : nat) (date : Date)
| DeleteNode (i : nat)
| SetPos (i : nat) (p : vec)
| SetImage (i : nat) (dataUrl : string).

Definition discard {A : Type} (o : outcome A) : outcome unit :=
  match o with Return _ g => Return tt g | Throw g => Throw g end.

(** One call on the graph, its return value dropped. *)
Definition call (o : operation) (g : Graph) : outcome unit :=
  match o with
  | GetOrCreateNodeIndex nm => discard (getOrCreateNodeIndex nm g)
  | IsFree i => Return tt g
  | AddFriendGroup names date => addFriendGroup names date g
  | Degree i => discard (degree i g)
  | RenameNode i newName => renameNode i newName g
  | Update t => update t g
  | AddOrUpdateEdge i j date => addOrUpdateEdge i j date g
  | DeleteNode i => discard (deleteNode i g)
  | SetPos i p => set_pos i p g
  | SetImage i dataUrl => set_image i dataUrl g
  end.

(** The state a call leaves, whether it returned or raised. *)
Definition run (o : operation) (g : Graph) : Graph := state_of (call o g).

(** ** The page's [edgeId]

    [edgeId(a, b)] names the SVG line of an edge; the delete handler of the
    page removes the lines named by the pairs that [deleteNode] returns. *)
Definition edgeId (a b : nat) : string :=
  let x := if decide (a < b) then a else b in
  let y := if decide (a < b) then b else a in
  "edge-" +:+ pretty x +:+ ":" +:+ pretty y.

(** ** The edge loop of the page's [syncSvg]

    For every stored edge [syncSvg] looks up, or creates, the line with the
    id [edgeId(edge[0], edge[1])] and sets its end points to
    [graph.nodes[edge[0]].pos] and [graph.nodes[edge[1]].pos]; reading
    [.pos] of [null] or [undefined] raises ([None]).  The stroke colour of
    the line, which depends on the clock, is not part of the model. *)
Definition edge_line (g : Graph) (e : Edge) : option (string * vec * vec) :=
  let id := edgeId e.1.1 e.1.2 in
  a ← slot_pos (node_at g e.1.1);
  b ← slot_pos (node_at g e.1.2);
  Some (id, a, b).

Definition edge_lines (g : Graph) : option (list (string * vec * vec)) :=
  mapM (edge_line g) (edges g).

(** ** The simulation step of the page's [frame]

    The statements of [frame] that act on the graph: the timestep
    [(now - last) / 1000] is capped at 0.05, and the node being dragged, if
    it is not free, is put at [dragTarget] before and after
    [graph.update(dt)].  [draggingIndex] is [-1] ([None]) or a node index. *)
Definition pin_dragged (draggingIndex : option nat) (dragTarget : vec) (g : Graph)
  : outcome unit :=
  match draggingIndex with
  | Some i => if isFree i g then Return tt g else set_pos i dragTarget g
  | None => Return tt g
  end.

Definition frame (now last : float) (draggingIndex : option nat) (dragTarget : vec)
    (g : Graph) : outcome unit :=
  let dt := ((now - last) / 1000)%float in
  let dt := if (0.05 <? dt)%float then 0.05%float else dt in
  let* _ := pin_dragged draggingIndex dragTarget g in
  λ g1, let* _ := update dt g1 in
        pin_dragged draggingIndex dragTarget.

(** ** The page's [syncFriendDatalist]

    The options of the autocompletion list: the names of the slots that are
    not free, in index order.  Reading [.name] of [undefined] raises
    ([None]). *)
Fixpoint option_names (l : list slot) : option (list string) :=
  match l with
  | [] => Some []
  | Null :: l' => option_names l'
  | Undefined :: _ => None
  | Live n :: l' => opts ← option_names l'; Some (name n :: opts)
  end.

Definition syncFriendDatalist (g : Graph) : option (list string) :=
  option_names (nodes g).

(** * The earlier revision of the class, [src/unnamed/part_000]

    The same [Graph] without the pair index and the adjacency sets: the
    degree is counted, and an edge is found, by a scan of [this.edges].
    Without those structures only the reads of [.name] can raise.
    [update] and its two force functions are not modelled: they call
    [vec2.pow], which the sources do not include. *)

Module EdgeList.

Record Graph : Type := {
  nodes : list slot;
  edges : list Edge;
  repelK : float;
  attractK : float;
  centerK : float;
  jitter : list vec
}.

(** [new Graph()]. *)
Definition new_Graph : Graph := {|
  nodes := [];
  edges := [];
  repelK := 1000000;
  attractK := 0.01;
  centerK := 1.0;
  jitter := [ vec2 2.5 0; vec2 1.8 1.8; vec2 0 2.5; vec2 (-1.8) 1.8;
              vec2 (-2.5) 0; vec2 (-1.8) (-1.8); vec2 0 (-2.5); vec2 1.8 (-1.8) ]
|}.

Definition set_nodes (ns : list slot) (g : Graph) : Graph :=
  {| nodes := ns; edges := edges g; repelK := repelK g; attractK := attractK g;
     centerK := centerK g; jitter := jitter g |}.

Definition set_edges (es : list Edge) (g : Graph) : Graph :=
  {| nodes := nodes g; edges := es; repelK := repelK g; attractK := attractK g;
     centerK := centerK g; jitter := jitter g |}.

Definition node_at (g : Graph) (i : nat) : slot := default Undefined (nodes g !! i).

Inductive outcome (A : Type) : Type :=
| Return (a : A) (g : Graph)
| Throw (g : Graph).
Arguments Return {A} a g.
Arguments Throw {A} g.

Definition getOrCreateNodeIndex (nm : string) (g : Graph) : outcome nat :=
  match scan_name nm (nodes g) 0 with
  | Found idx => Return idx g
  | TypeError => Throw g
  | NotFound =>
      match scan_null (nodes g) 0 with
      | Some idx =>
          Return idx (set_nodes (array_set Undefined (nodes g) idx (Live (new_Node nm))) g)
      | None =>
          Return (length (nodes g)) (set_nodes (nodes g ++ [Live (new_Node nm)]) g)
      end
  end.

Definition isFree (i : nat) (g : Graph) : bool := is_null (node_at g i).

(** The counting loop of [degree], from edge [es] on with [d] counted so far. *)
Fixpoint count_incident (i : nat) (es : list Edge) (d : nat) : nat :=
  match es with
  | [] => d
  | (a, b, _) :: es' =>
      count_incident i es'
        (if (bool_decide (a = i) || bool_decide (b = i))%bool then S d else d)
  end.

Definition degree (i : nat) (g : Graph) : nat :=
  if is_null (node_at g i) then 0 else count_incident i (edges g) 0.

Definition renameNode (i : nat) (newName : string) (g : Graph) : outcome unit :=
  match node_at g i with
  | Live n =>
      Return tt
        (set_nodes (<[i := Live {| name := newName; image := image n; pos := pos n |}]> (nodes g)) g)
  | _ => Throw g
  end.

(** The search loop of [addOrUpdateEdge]: the index of the first edge
    between [a] and [b], with its date. *)
Fixpoint find_pair (a b : nat) (es : list Edge) (e : nat) : option (nat * Date) :=
  match es with
  | [] => None
  | (ea, eb, d) :: es' =>
      if (bool_decide (ea = a) && bool_decide (eb = b))%bool then Some (e, d)
      else find_pair a b es' (S e)
  end.

Definition addOrUpdateEdge (i j : nat) (date : Date) (g : Graph) : Graph :=
  let a := if decide (i < j) then i else j in
  let b := if decide (i < j) then j else i in
  match find_pair a b (edges g) 0 with
  | Some (existing, old) =>
      if time_lt (getTime date) (getTime old)
      then set_edges (<[existing := (a, b, date)]> (edges g)) g
      else g
  | None => set_edges (edges g ++ [(a, b, date)]) g
  end.

Fixpoint resolve_names (names : list string) (indices : list nat) (g : Graph)
  : outcome (list nat) :=
  match names with
  | [] => Return indices g
  | nm :: rest =>
      match getOrCreateNodeIndex nm g with
      | Return idx g1 => resolve_names rest (indices ++ [idx]) g1
      | Throw g1 => Throw g1
      end
  end.

Fixpoint link_from (ia : nat) (rest : list nat) (date : Date) (g : Graph) : Graph :=
  match rest with
  | [] => g
  | ib :: rest' => link_from ia rest' date (addOrUpdateEdge ia ib date g)
  end.

Fixpoint link_all (indices : list nat) (date : Date) (g : Graph) : Graph :=
  match indices with
  | [] => g
  | ia :: rest => link_all rest date (link_from ia rest date g)
  end.

Definition addFriendGroup (names : list string) (date : Date) (g : Graph) : outcome unit :=
  match resolve_names names [] g with
  | Return indices g1 => Return tt (link_all indices date g1)
  | Throw g1 => Throw g1
  end.

Definition deleteNode (i : nat) (g : Graph) : list (nat * nat) * Graph :=
  if is_null (node_at g i) then ([], g)
  else
    let g1 := set_nodes (array_set Undefined (nodes g) i Null) g in
    let '(removedPairs, kept) := split_incident i (edges g1) in
    (removedPairs, set_edges kept g1).

End EdgeList.

(** * Specification vocabulary *)

(** A string without the separator [":"]. *)
Fixpoint colon_free (s : string) : Prop :=
  match s with
  | EmptyString => True
  | String c s' => c ≠ ":"%char ∧ colon_free s'
  end.

(** The endpoint pairs of the stored edges, in storage order. *)
Definition pairs (es : list Edge) : list (nat * nat) := (λ e : Edge, (e.1.1, e.1.2)) <$> es.

(** Slot [i] holds a node. *)
Definition is_live (g : Graph) (i : nat) : Prop := ∃ n, nodes g !! i = Some (Live n).

(** [_adj[a].has(b)] is true. *)
Definition adj_has (g : Graph) (a b : nat) : Prop :=
  ∃ s, adj_at (_adj g) a = Some s ∧ b ∈ s.

(** Every cell of [adj] is a set, and cell [i] holds exactly the [j] with [R i j]. *)
Definition adj_rel (R : nat → nat → Prop) (adj : list (option (gset nat))) : Prop :=
  ∀ i, i < length adj → ∃ s, adj !! i = Some (Some s) ∧ ∀ j, j ∈ s ↔ R i j.

Definition linked (ps : list (nat * nat)) (i j : nat) : Prop := (i, j) ∈ ps ∨ (j, i) ∈ ps.

Definition adj_exact (ps : list (nat * nat)) (adj : list (option (gset nat))) : Prop :=
  adj_rel (linked ps) adj.

Definition index_exact (ps : list (nat * nat)) (m : gmap string nat) : Prop :=
  ∀ k e, m !! k = Some e ↔ ∃ a b, ps !! e = Some (a, b) ∧ k = key a b.

(** The representation invariant of a graph. *)
Record consistent (g : Graph) : Prop := {
  cons_len : length (_adj g) = length (nodes g);
  cons_live : ∀ a b, (a, b) ∈ pairs (edges g) → a ≤ b ∧ is_live g a ∧ is_live g b;
  cons_index : index_exact (pairs (edges g)) (_pairToEdgeIndex g);
  cons_adj : adj_exact (pairs (edges g)) (_adj g)
}.

(** The edge between the pair [p] touches node [i]. *)
Definition incident (i : nat) (p : nat * nat) : Prop := p.1 = i ∨ p.2 = i.

Global Instance incident_dec i p : Decision (incident i p).
Proof. unfold incident. apply _. Defined.

(** No cell is [undefined]: the array has the declared type [Array<Node|null>]. *)
Definition hole_free (l : list slot) : Prop := Undefined ∉ l.

(** [g'] differs from [g] at most in what the live nodes hold. *)
Definition same_links (g g' : Graph) : Prop :=
  edges g' = edges g ∧ _pairToEdgeIndex g' = _pairToEdgeIndex g ∧ _adj g' = _adj g
  ∧ length (nodes g') = length (nodes g) ∧ ∀ i, is_live g i → is_live g' i.

(** What a caller must respect: [addOrUpdateEdge] is given two live nodes. *)
Definition permitted (o : operation) (g : Graph) : Prop :=
  match o with
  | AddOrUpdateEdge i j _ => is_live g i ∧ is_live g j
  | _ => True
  end.

(** The states a graph can be in: those that sequences of permitted public
    calls lead to from [new Graph()], whether the calls returned or raised. *)
Inductive reachable : Graph → Prop :=
| reachable_new : reachable new_Graph
| reachable_run o g : reachable g → permitted o g → reachable (run o g).

(** The adjacency sets mirror the edge list. *)
Definition adjacency_reflects_edges (g : Graph) : Prop :=
  ∀ a b, a < b → (adj_has g a b ∧ adj_has g b a) ↔ ∃ d, (a, b, d) ∈ edges g.

(** The pair index maps the key of each stored edge to its position and has
    no other entry. *)
Definition pair_index_reflects_edges (g : Graph) : Prop :=
  ∀ k e, _pairToEdgeIndex g !! k = Some e
         ↔ ∃ a b d, edges g !! e = Some (a, b, d) ∧ k = key a b.

(** The tunables and the jitter table, which the constructor sets. *)
Definition tunables (g : Graph) : float * float * float * float * float * list vec :=
  (springK g, springRest g, repelK g, closeRepelK g, centerK g, jitter g).

(** The endpoints given to [addOrUpdateEdge] are within the node storage. *)
Definition in_bounds_call (o : operation) (g : Graph) : Prop :=
  match o with
  | AddOrUpdateEdge i j _ => i < length (nodes g) ∧ j < length (nodes g)
  | _ => True
  end.

(** Sample inputs for the worked examples. *)
Definition year2000 : Date := {| getTime := Millis 946684800000 |}.
Definition year2015 : Date := {| getTime := Millis 1420070400000 |}.
Definition year2020 : Date := {| getTime := Millis 1577836800000 |}.

(** Two nodes [A] and [B], with an edge from [A] to itself and one between
    [A] and [B]: the state after [addFriendGroup(["A", "A", "B"], date)]. *)
Definition graph_AAB : Graph := run (AddFriendGroup ["A"; "A"; "B"] year2020) new_Graph.

(** The state after [deleteNode(1)] on the empty graph: slot 0 is a hole
    and slot 1 is free. *)
Definition graph_hole : Graph := run (DeleteNode 1) new_Graph.

(** A single node [A]. *)
Definition graph_A : Graph := run (GetOrCreateNodeIndex "A") new_Graph.

(** Two unconnected nodes [A] and [B]. *)
Definition graph_A_B : Graph :=
  run (GetOrCreateNodeIndex "B") (run (GetOrCreateNodeIndex "A") new_Graph).

(** [A] and [B] joined by an edge dated 2000. *)
Definition graph_AB_2000 : Graph := run (AddFriendGroup ["A"; "B"] year2000) new_Graph.

(** Slot [i] holds a node named [nm]. *)
Definition holds_name (l : list slot) (nm : string) (i : nat) : Prop :=
  ∃ n, l !! i = Some (Live n) ∧ name n = nm.

(** Slot [i] is free. *)
Definition free_at (l : list slot) (i : nat) : Prop := l !! i = Some Null.

(** [i] is the lowest index with property [P]. *)
Definition lowest (P : nat → Prop) (i : nat) : Prop := P i ∧ ∀ i', i' < i → ¬ P i'.

(** Calls that neither create, rename to, rename or delete the node that
    holds the name [nm] at index [idx]. *)
Definition unrelated (nm : string) (idx : nat) (o : operation) : Prop :=
  match o with
  | GetOrCreateNodeIndex nm' => nm' ≠ nm
  | AddFriendGroup names _ => nm ∉ names
  | RenameNode i newName => i ≠ idx ∧ newName ≠ nm
  | DeleteNode k => k ≠ idx
  | _ => True
  end.

(** A sequence of calls, each run on the state the previous one left. *)
Definition runs (ops : list operation) (g : Graph) : Graph :=
  foldl (λ g o, run o g) g ops.

(** Slot [idx] holds the name [nm], and every slot below it is free or holds
    another name. *)
Definition first_named (nm : string) (idx : nat) (l : list slot) : Prop :=
  holds_name l nm idx
  ∧ ∀ i', i' < idx → l !! i' = Some Null ∨ ∃ n', l !! i' = Some (Live n') ∧ name n' ≠ nm.

(** The three force magnitudes of a pair at clamped distance [dist]. *)
Definition spring_magnitude (g : Graph) (dist : float) : float :=
  (springK g * (dist - springRest g) * Math.abs (dist - springRest g) / springRest g)%float.

Definition repel_magnitude (g : Graph) (dist : float) : float :=
  (repelK g / (dist * dist))%float.

Definition close_magnitude (g : Graph) (dist : float) : float :=
  (closeRepelK g / (dist * dist * dist * dist))%float.

(** Both coordinates are neither NaN nor infinite. *)
Definition finite_vec (v : vec) : bool :=
  (PrimFloat.is_finite (x v) && PrimFloat.is_finite (y v))%bool.

Definition dot (u v : vec) : float := (x u * x v + y u * y v)%float.
Definition cross (u v : vec) : float := (x u * y v - y u * x v)%float.

(** [A] at the origin and [B] half a unit to its right, not connected. *)
Definition graph_near : Graph := run (SetPos 1 (vec2 0.5 0)) graph_A_B.


(** The end of the edge [p] that is not [i] ([i] itself for an edge from [i]
    to [i]). *)
Definition other_end (i : nat) (p : nat * nat) : nat :=
  if decide (p.1 = i) then p.2 else p.1.

(** No two live slots hold the same name. *)
Definition unique_names (l : list slot) : Prop :=
  ∀ i j n m, l !! i = Some (Live n) → l !! j = Some (Live m) → name n = name m → i = j.


(** The call is a [renameNode]. *)
Definition renames (o : operation) : bool :=
  match o with RenameNode _ _ => true | _ => false end.

(** The node [n] after one Euler step under the force [f]. *)
Definition moved (n : Node) (f : vec) (dt : float) : Node :=
  {| name := name n; image := image n; pos := vec2_add (pos n) (vec2_mul f dt) |}.

(** A state of the class and a state of its earlier revision hold the same
    nodes and the same edges. *)
Definition same_content (g : Graph) (l : EdgeList.Graph) : Prop :=
  nodes g = EdgeList.nodes l ∧ edges g = EdgeList.edges l.

(** The outcomes of a call on the class and on its earlier revision agree:
    both return, or both raise, and the states left hold the same content. *)
Definition outcomes_agree {A B : Type} (o : outcome A) (o' : EdgeList.outcome B) : Prop :=
  match o, o' with
  | Return _ g, EdgeList.Return _ l => same_content g l
  | Throw g, EdgeList.Throw l => same_content g l
  | _, _ => False
  end.

(** The content of a state, as a state of the earlier revision. *)
Definition forget_index (g : Graph) : EdgeList.Graph :=
  EdgeList.set_edges (edges g) (EdgeList.set_nodes (nodes g) EdgeList.new_Graph).

(** The earlier of two dates, as [addOrUpdateEdge] picks it: the new date
    [d] only when it is strictly before the stored one. *)
Definition earlier (d stored : Date) : Date :=
  if time_lt (getTime d) (getTime stored) then d else stored.

(** [d] is not an Invalid Date. *)
Definition valid (d : Date) : Prop := ∃ ms, getTime d = Millis ms.

(** An Invalid Date, as [parseYearInput] returns for an empty year field. *)
Definition invalid_date : Date := {| getTime := NaN |}.

(** A [deleteNode] is given an index within the node storage or the one just
    past its end. *)
Definition deletes_within (o : operation) (g : Graph) : Prop :=
  match o with
  | DeleteNode k => k ≤ length (nodes g)
  | _ => True
  end.

(** How the stored dates of [g'] come from those of [g] when calls have
    written only [date]: an edge of [g] is still stored as it was, or its
    date has been replaced by [date], which was strictly before it; and an
    edge of [g'] was stored in [g] as it is, or is dated [date]. *)
Definition redated (date : Date) (g g' : Graph) : Prop :=
  (∀ a b d, (a, b, d) ∈ edges g →
     (a, b, d) ∈ edges g'
     ∨ (time_lt (getTime date) (getTime d) = true ∧ (a, b, date) ∈ edges g'))
  ∧ (∀ a b d, (a, b, d) ∈ edges g' → (a, b, d) ∈ edges g ∨ d = date).

(** The pair [(a, b)] has an edge in [g'] that is dated [date], or that was
    stored in [g] with a date for which [date < stored] is false: a date
    equal to or before [date], or a comparison with an Invalid Date. *)
Definition joined (date : Date) (g g' : Graph) (a b : nat) : Prop :=
  ∃ d, (a, b, d) ∈ edges g'
       ∧ (d = date ∨ ((a, b, d) ∈ edges g ∧ time_lt (getTime date) (getTime d) = false)).

(** * Properties *)

Lemma colon_free_app s t : colon_free s → colon_free t → colon_free (s +:+ t).
Proof. induction s; simpl; intuition. Qed.

Lemma pretty_N_char_colon_free n : pretty_N_char n ≠ ":"%char.
Proof. unfold pretty_N_char. repeat case_match; done. Qed.

Lemma pretty_N_go_colon_free n s : colon_free s → colon_free (pretty_N_go n s).
Proof.
  revert s. induction (N.lt_wf_0 n) as [n _ IH]; intros s Hs.
  destruct (decide (n = 0)%N) as [->|Hn]; [by rewrite pretty_N_go_0|].
  rewrite pretty_N_go_step by lia. apply IH.
  - apply N.div_lt; lia.
  - split; [apply pretty_N_char_colon_free | done].
Qed.

Lemma pretty_nat_colon_free (n : nat) : colon_free (pretty n).
Proof.
  unfold pretty, pretty_nat, pretty, pretty_N. case_decide; [by compute|].
  by apply pretty_N_go_colon_free.
Qed.

Lemma colon_split s1 s2 t1 t2 :
  colon_free s1 → colon_free s2 →
  s1 +:+ ":" +:+ t1 = s2 +:+ ":" +:+ t2 → s1 = s2 ∧ t1 = t2.
Proof.
  revert s2. induction s1 as [|c s1 IH]; intros [|c' s2]; simpl.
  - intros _ _ ?. by simplify_eq.
  - intros _ [Hc _] ?. by simplify_eq.
  - intros [Hc _] _ ?. by simplify_eq.
  - intros [_ H1] [_ H2] ?. simplify_eq. by destruct (IH s2 H1 H2) as [-> ->].
Qed.

Lemma key_inj a b a' b' : key a b = key a' b' → a = a' ∧ b = b'.
Proof.
  unfold key. intros H.
  apply colon_split in H as [Ha Hb]; try apply pretty_nat_colon_free.
  split; by apply (inj pretty).
Qed.

(** ** Adjacency cells and the pair index under [register_edge] *)

Lemma adj_at_lookup adj i s : adj_at adj i = Some s ↔ adj !! i = Some (Some s).
Proof. unfold adj_at. destruct (adj !! i) as [[?|]|]; naive_solver. Qed.

Lemma adj_rel_iff R R' adj :
  (∀ i j, R i j ↔ R' i j) → adj_rel R adj → adj_rel R' adj.
Proof.
  intros HRR HR i Hi. destruct (HR i Hi) as (s & Hs & Hmem).
  exists s. split; [done|]. intros j. by rewrite Hmem.
Qed.

Lemma adj_add_rel R adj a b :
  adj_rel R adj → a < length adj →
  ∃ adj', adj_add adj a b = Some adj' ∧ length adj' = length adj
          ∧ adj_rel (λ i j, R i j ∨ (i = a ∧ j = b)) adj'.
Proof.
  intros HR Ha. destruct (HR a Ha) as (s & Hs & Hmem).
  unfold adj_add. rewrite (proj2 (adj_at_lookup _ _ _) Hs).
  eexists; split; [done|]. split; [by rewrite length_insert|].
  intros i Hi. rewrite length_insert in Hi. destruct (decide (i = a)) as [->|Hne].
  - exists (s ∪ {[b]}). rewrite list_lookup_insert_eq by done. split; [done|].
    intros j. rewrite elem_of_union, elem_of_singleton, Hmem. naive_solver.
  - destruct (HR i Hi) as (s' & Hs' & Hmem'). exists s'.
    rewrite list_lookup_insert_ne by done. split; [done|].
    intros j. rewrite Hmem'. naive_solver.
Qed.

Lemma linked_snoc ps a b i j :
  linked (ps ++ [(a, b)]) i j ↔ (linked ps i j ∨ (i = a ∧ j = b)) ∨ (i = b ∧ j = a).
Proof.
  unfold linked. rewrite !elem_of_app, !list_elem_of_singleton. naive_solver.
Qed.

Lemma index_exact_snoc ps m a b :
  index_exact ps m → (a, b) ∉ ps →
  index_exact (ps ++ [(a, b)]) (<[key a b := length ps]> m).
Proof.
  intros Hm Hfresh k e. split.
  - destruct (decide (k = key a b)) as [->|Hk].
    + rewrite lookup_insert_eq. intros [= <-]. exists a, b.
      by rewrite lookup_app_r, Nat.sub_diag.
    + rewrite lookup_insert_ne by done. intros (a' & b' & He & ->)%Hm.
      exists a', b'. by rewrite lookup_app_l by (by eapply lookup_lt_Some).
  - intros (a' & b' & He & ->).
    destruct (decide (e < length ps)) as [Hlt|Hge].
    + rewrite lookup_app_l in He by done.
      rewrite lookup_insert_ne.
      * apply Hm. eauto.
      * intros [-> ->]%key_inj. apply Hfresh. by eapply list_elem_of_lookup_2.
    + rewrite lookup_app_r in He by lia.
      apply list_lookup_singleton_Some in He as [He [= <- <-]].
      rewrite lookup_insert_eq. f_equal. lia.
Qed.

Lemma register_edge_ok ps a b g :
  index_exact ps (_pairToEdgeIndex g) → adj_exact ps (_adj g) →
  (a, b) ∉ ps → a < length (_adj g) → b < length (_adj g) →
  ∃ m adj,
    register_edge a b (length ps) g = Return tt (set_adj adj (set_pairToEdgeIndex m g))
    ∧ length adj = length (_adj g)
    ∧ index_exact (ps ++ [(a, b)]) m ∧ adj_exact (ps ++ [(a, b)]) adj.
Proof.
  intros Hm Hadj Hfresh Ha Hb.
  destruct (adj_add_rel _ _ a b Hadj Ha) as (adj1 & H1 & Hlen1 & Hrel1).
  destruct (adj_add_rel _ _ b a Hrel1 ltac:(by rewrite Hlen1)) as (adj2 & H2 & Hlen2 & Hrel2).
  exists (<[key a b := length ps]> (_pairToEdgeIndex g)), adj2.
  split; [|split; [congruence|split]].
  - unfold register_edge; simpl. rewrite H1, H2. done.
  - by apply index_exact_snoc.
  - eapply adj_rel_iff; [|exact Hrel2]. intros i j. by rewrite linked_snoc.
Qed.

Lemma set_fields_id g : set_adj (_adj g) (set_pairToEdgeIndex (_pairToEdgeIndex g) g) = g.
Proof. by destruct g. Qed.

Lemma pairs_snoc es a b d : pairs (es ++ [(a, b, d)]) = pairs es ++ [(a, b)].
Proof. unfold pairs. by rewrite fmap_app. Qed.

Lemma pairs_length es : length (pairs es) = length es.
Proof. unfold pairs. by rewrite length_fmap. Qed.

Lemma rebuild_loop_ok rest : ∀ done g,
  index_exact (pairs done) (_pairToEdgeIndex g) → adj_exact (pairs done) (_adj g) →
  NoDup (pairs (done ++ rest)) →
  (∀ a b, (a, b) ∈ pairs rest → a < length (_adj g) ∧ b < length (_adj g)) →
  ∃ m adj,
    rebuild_loop rest (length done) g = Return tt (set_adj adj (set_pairToEdgeIndex m g))
    ∧ length adj = length (_adj g)
    ∧ index_exact (pairs (done ++ rest)) m ∧ adj_exact (pairs (done ++ rest)) adj.
Proof.
  induction rest as [|[[a b] d] rest IH]; intros done g Hm Hadj Hnd Hin.
  - exists (_pairToEdgeIndex g), (_adj g). rewrite app_nil_r, set_fields_id. done.
  - assert (Hfresh : (a, b) ∉ pairs done).
    { unfold pairs in Hnd. rewrite fmap_app, fmap_cons in Hnd.
      apply NoDup_app in Hnd as (_ & Hdisj & _). intros Hel.
      apply (Hdisj _ Hel). simpl. left. }
    destruct (Hin a b) as [Ha Hb]; [unfold pairs; simpl; left|].
    destruct (register_edge_ok _ a b g Hm Hadj Hfresh Ha Hb) as (m1 & adj1 & Hreg & Hlen1 & Hm1 & Hadj1).
    rewrite pairs_length in Hreg.
    rewrite <- pairs_snoc with (d := d) in Hm1, Hadj1.
    destruct (IH (done ++ [(a, b, d)]) (set_adj adj1 (set_pairToEdgeIndex m1 g)))
      as (m2 & adj2 & Hloop & Hlen2 & Hm2 & Hadj2); simpl; try done.
    + by rewrite <- app_assoc.
    + intros a' b' Hel. rewrite Hlen1. apply Hin. unfold pairs. simpl. by right.
    + exists m2, adj2. simpl. rewrite Hreg. simpl.
      rewrite length_app, Nat.add_1_r in Hloop. rewrite Hloop.
      rewrite <- app_assoc in Hm2, Hadj2. simpl in *. split; [done|]. split; [congruence|done].
Qed.

(** ** Reading and writing arrays *)

Section array_set.
Context {A : Type} (hole : A).
Implicit Types (l : list A) (v : A).

Lemma array_set_length l i v :
  length (array_set hole l i v) = Nat.max (length l) (S i).
Proof.
  unfold array_set. case_decide.
  - rewrite length_insert. lia.
  - rewrite !length_app, length_replicate. simpl. lia.
Qed.

Lemma array_set_lookup_eq l i v : array_set hole l i v !! i = Some v.
Proof.
  unfold array_set. case_decide.
  - by rewrite list_lookup_insert_eq.
  - rewrite lookup_app_r by lia. rewrite lookup_app_r by (rewrite length_replicate; lia).
    rewrite length_replicate, Nat.sub_diag. done.
Qed.

Lemma array_set_lookup_ne l i j v w :
  i ≠ j → l !! j = Some w → array_set hole l i v !! j = Some w.
Proof.
  intros Hne Hj. unfold array_set. case_decide.
  - by rewrite list_lookup_insert_ne.
  - by rewrite lookup_app_l by (by eapply lookup_lt_Some).
Qed.

Lemma array_set_in_range l i v :
  i < length l → array_set hole l i v = <[i := v]> l.
Proof. intros. unfold array_set. by case_decide. Qed.

End array_set.

Lemma is_live_lt g i : is_live g i → i < length (nodes g).
Proof. intros [n Hn]. by eapply lookup_lt_Some. Qed.

Lemma node_at_live g i n : node_at g i = Live n ↔ nodes g !! i = Some (Live n).
Proof. unfold node_at. destruct (nodes g !! i) as [[]|]; naive_solver. Qed.

Lemma node_at_null g i : node_at g i = Null ↔ nodes g !! i = Some Null.
Proof. unfold node_at. destruct (nodes g !! i) as [[]|]; naive_solver. Qed.

(** ** The two scans of [getOrCreateNodeIndex] *)

Lemma scan_name_found nm l k idx :
  scan_name nm l k = Found idx →
  ∃ i n, idx = k + i ∧ l !! i = Some (Live n) ∧ name n = nm
         ∧ ∀ i', i' < i → l !! i' = Some Null
                          ∨ ∃ n', l !! i' = Some (Live n') ∧ name n' ≠ nm.
Proof.
  revert k. induction l as [|s l IH]; intros k; simpl; [done|].
  destruct s as [| |n]; [done| |].
  - intros (i & n & -> & Hi & Hn & Hlow)%IH. exists (S i), n.
    split; [lia|]. split; [done|]. split; [done|].
    intros [|i'] ?; [by left|]. apply Hlow. lia.
  - case_decide as Hnm.
    + intros [= <-]. exists 0, n. split; [lia|]. split; [done|]. split; [done|]. lia.
    + intros (i & n' & -> & Hi & Hn & Hlow)%IH. exists (S i), n'.
      split; [lia|]. split; [done|]. split; [done|].
      intros [|i'] ?; [right; eauto|]. apply Hlow. lia.
Qed.

Lemma scan_name_not_found nm l k :
  scan_name nm l k = NotFound →
  ∀ i s, l !! i = Some s → s = Null ∨ ∃ n, s = Live n ∧ name n ≠ nm.
Proof.
  revert k. induction l as [|s l IH]; intros k; simpl; [done|].
  destruct s as [| |n]; [done| |].
  - intros H [|i] s Hs; simplify_eq/=; [by left|]. by eapply IH.
  - case_decide as Hnm; [done|]. intros H [|i] s Hs; simplify_eq/=; [right; eauto|]. by eapply IH.
Qed.

Lemma scan_null_some l k idx :
  scan_null l k = Some idx →
  ∃ i, idx = k + i ∧ l !! i = Some Null ∧ ∀ i', i' < i → l !! i' ≠ Some Null.
Proof.
  revert k. induction l as [|s l IH]; intros k; simpl; [done|].
  destruct s as [| |n].
  - intros (i & -> & Hi & Hlow)%IH. exists (S i). split; [lia|]. split; [done|].
    intros [|i'] ?; [done|]. apply Hlow. lia.
  - intros [= <-]. exists 0. split; [lia|]. split; [done|]. lia.
  - intros (i & -> & Hi & Hlow)%IH. exists (S i). split; [lia|]. split; [done|].
    intros [|i'] ?; [done|]. apply Hlow. lia.
Qed.

Lemma scan_null_none l k : scan_null l k = None → ∀ i, l !! i ≠ Some Null.
Proof.
  revert k. induction l as [|s l IH]; intros k; simpl; [done|].
  destruct s as [| |n]; [|done|]; intros H [|i]; simpl; try done; by eapply IH.
Qed.

(** ** Allocation keeps the representation invariant *)

Lemma linked_live g a b :
  consistent g → linked (pairs (edges g)) a b → is_live g a ∧ is_live g b.
Proof. intros Hc [H|H]; apply (cons_live _ Hc) in H; tauto. Qed.

Lemma consistent_alloc g idx nd :
  consistent g → nodes g !! idx = Some Null →
  consistent (set_adj (<[idx := Some ∅]> (_adj g))
                (set_nodes (<[idx := Live nd]> (nodes g)) g)).
Proof.
  intros Hc Hnull.
  assert (Hkeep : ∀ i, is_live g i →
            is_live (set_adj (<[idx := Some ∅]> (_adj g))
                       (set_nodes (<[idx := Live nd]> (nodes g)) g)) i).
  { intros i [n Hn]. exists n. simpl. rewrite list_lookup_insert_ne; [done|]. congruence. }
  split; simpl.
  - rewrite !length_insert. apply Hc.
  - intros a b Hab. destruct (cons_live _ Hc a b Hab) as (? & ? & ?). auto.
  - apply Hc.
  - intros i Hi. rewrite length_insert in Hi.
    destruct (decide (i = idx)) as [->|Hne].
    + exists ∅. rewrite list_lookup_insert_eq by done. split; [done|].
      intros j. split; [set_solver|].
      intros [[n Hn] _]%(linked_live _ _ _ Hc). congruence.
    + rewrite list_lookup_insert_ne by done. by apply (cons_adj _ Hc).
Qed.

Lemma consistent_push g nd :
  consistent g →
  consistent (set_adj (_adj g ++ [Some ∅]) (set_nodes (nodes g ++ [Live nd]) g)).
Proof.
  intros Hc.
  assert (Hkeep : ∀ i, is_live g i →
            is_live (set_adj (_adj g ++ [Some ∅]) (set_nodes (nodes g ++ [Live nd]) g)) i).
  { intros i [n Hn]. exists n. simpl. by rewrite lookup_app_l by (by eapply lookup_lt_Some). }
  split; simpl.
  - rewrite !length_app. simpl. by rewrite (cons_len _ Hc).
  - intros a b Hab. destruct (cons_live _ Hc a b Hab) as (? & ? & ?). auto.
  - apply Hc.
  - intros i Hi. rewrite length_app in Hi. simpl in Hi.
    destruct (decide (i < length (_adj g))) as [Hlt|Hge].
    + rewrite lookup_app_l by done. by apply (cons_adj _ Hc).
    + assert (i = length (_adj g)) as -> by lia.
      exists ∅. rewrite lookup_app_r, Nat.sub_diag by lia. split; [done|].
      intros j. split; [set_solver|].
      intros [Hl _]%(linked_live _ _ _ Hc). apply is_live_lt in Hl.
      rewrite (cons_len _ Hc) in Hl. lia.
Qed.

Lemma getOrCreateNodeIndex_consistent nm g idx g' :
  consistent g → getOrCreateNodeIndex nm g = Return idx g' →
  consistent g' ∧ is_live g' idx ∧ (∀ i, is_live g i → is_live g' i)
  ∧ edges g' = edges g.
Proof.
  intros Hc. unfold getOrCreateNodeIndex.
  destruct (scan_name nm (nodes g) 0) as [k| |] eqn:Hscan; [| |done].
  - intros [= <- <-]. apply scan_name_found in Hscan as (i & n & -> & Hi & _).
    split; [done|]. split; [by exists n|done].
  - destruct (scan_null (nodes g) 0) as [k|] eqn:Hnull.
    + apply scan_null_some in Hnull as (i & -> & Hi & _). simpl.
      assert (i < length (nodes g)) as Hlt by (by eapply lookup_lt_Some).
      rewrite !array_set_in_range by (by rewrite ?(cons_len _ Hc)).
      intros [= <- <-]. split; [by apply consistent_alloc|].
      split; [|split; [|done]].
      * eexists. simpl. by rewrite list_lookup_insert_eq.
      * intros j [n Hn]. exists n. simpl. rewrite list_lookup_insert_ne; [done|congruence].
    + intros [= <- <-]. split; [by apply consistent_push|].
      split; [|split; [|done]].
      * eexists. simpl. by rewrite lookup_app_r, Nat.sub_diag.
      * intros j [n Hn]. exists n. simpl.
        by rewrite lookup_app_l by (by eapply lookup_lt_Some).
Qed.

Lemma getOrCreateNodeIndex_throw nm g g' :
  getOrCreateNodeIndex nm g = Throw g' → g' = g.
Proof.
  unfold getOrCreateNodeIndex. repeat case_match; congruence.
Qed.

(** ** addOrUpdateEdge *)

Lemma pairs_lookup es e a b :
  pairs es !! e = Some (a, b) ↔ ∃ d, es !! e = Some (a, b, d).
Proof.
  unfold pairs. rewrite list_lookup_fmap. destruct (es !! e) as [[[a' b'] d]|]; simpl.
  - split; [intros [= -> ->]; eauto | intros [d' [= -> -> _]]; done].
  - split; [done | by intros [? ?]].
Qed.

Lemma pairs_elem es a b : (a, b) ∈ pairs es ↔ ∃ d, (a, b, d) ∈ es.
Proof.
  rewrite list_elem_of_lookup. setoid_rewrite pairs_lookup.
  setoid_rewrite list_elem_of_lookup. naive_solver.
Qed.

Lemma pairs_redate es e a b d d' :
  es !! e = Some (a, b, d) → pairs (<[e := (a, b, d')]> es) = pairs es.
Proof.
  intros He. unfold pairs. rewrite list_fmap_insert.
  apply list_insert_id. rewrite list_lookup_fmap. by rewrite He.
Qed.

Lemma canonical_min i j : (if decide (i < j) then i else j) = (i `min` j).
Proof. case_decide; lia. Qed.

Lemma canonical_max i j : (if decide (i < j) then j else i) = (i `max` j).
Proof. case_decide; lia. Qed.

Lemma index_exact_NoDup ps m : index_exact ps m → NoDup ps.
Proof.
  intros Hm. apply NoDup_alt. intros e1 e2 [a b] H1 H2.
  assert (m !! key a b = Some e1) as E1 by (apply Hm; eauto).
  assert (m !! key a b = Some e2) as E2 by (apply Hm; eauto).
  congruence.
Qed.

Lemma min_max_live g i j :
  is_live g i → is_live g j → is_live g (i `min` j) ∧ is_live g (i `max` j).
Proof.
  intros Hi Hj. destruct (decide (i ≤ j)).
  - rewrite Nat.min_l, Nat.max_r by lia. auto.
  - rewrite Nat.min_r, Nat.max_l by lia. auto.
Qed.

Lemma addOrUpdateEdge_consistent i j date g :
  consistent g → is_live g i → is_live g j →
  ∃ g', addOrUpdateEdge i j date g = Return tt g' ∧ consistent g'
    ∧ nodes g' = nodes g
    ∧ ((∃ e old, edges g !! e = Some (i `min` j, i `max` j, old)
          ∧ edges g' = <[e := (i `min` j, i `max` j,
                               if time_lt (getTime date) (getTime old) then date else old)]>
                         (edges g))
       ∨ (((i `min` j, i `max` j) ∉ pairs (edges g))
          ∧ edges g' = edges g ++ [(i `min` j, i `max` j, date)])).
Proof.
  intros Hc Hi Hj. unfold addOrUpdateEdge. rewrite canonical_min, canonical_max.
  destruct (min_max_live g i j Hi Hj) as [Ha Hb].
  set (a := i `min` j) in *. set (b := i `max` j) in *.
  destruct (_pairToEdgeIndex g !! key a b) as [e|] eqn:Hkey.
  - apply (cons_index _ Hc) in Hkey as (a' & b' & He & [<- <-]%key_inj).
    pose proof He as [old Hold]%pairs_lookup. rewrite Hold.
    destruct (time_lt (getTime date) (getTime old)) eqn:Hlt.
    + eexists. split; [done|]. split; [|split; [done|]].
      * destruct Hc as [H1 H2 H3 H4]. split; simpl; rewrite ?(pairs_redate _ _ _ _ old); done.
      * left. exists e, old. split; [done|]. by rewrite Hlt.
    + exists g. split; [done|]. split; [done|]. split; [done|].
      left. exists e, old. split; [done|]. by rewrite Hlt, list_insert_id.
  - assert (Hfresh : (a, b) ∉ pairs (edges g)).
    { intros (e & He)%list_elem_of_lookup.
      assert (_pairToEdgeIndex g !! key a b = Some e) by (apply (cons_index _ Hc); eauto).
      congruence. }
    assert (a < length (_adj g) ∧ b < length (_adj g)) as [Hla Hlb].
    { rewrite (cons_len _ Hc). split; by apply is_live_lt. }
    destruct (register_edge_ok (pairs (edges g)) a b
                (set_edges (edges g ++ [(a, b, date)]) g))
      as (m & adj & Hreg & Hlen & Hm & Hadj); simpl;
      [apply (cons_index _ Hc)|apply (cons_adj _ Hc)|done..|].
    rewrite pairs_length in Hreg. rewrite Hreg.
    eexists. split; [done|]. simpl. split; [|split; [done|by right]].
    split; simpl; rewrite ?pairs_snoc; try done.
    + rewrite Hlen. apply Hc.
    + intros a' b' [Hold|Hnew%list_elem_of_singleton]%elem_of_app.
      * by apply (cons_live _ Hc).
      * simplify_eq. split; [subst a b; lia|done].
Qed.

(** ** deleteNode *)

Lemma split_incident_spec i es :
  (split_incident i es).1 = filter (incident i) (pairs es)
  ∧ (split_incident i es).2 = filter (λ e : Edge, ¬ incident i (e.1.1, e.1.2)) es
  ∧ pairs (split_incident i es).2 = filter (λ p, ¬ incident i p) (pairs es).
Proof.
  induction es as [|[[a b] d] es (IH1 & IH2 & IH3)]; [done|].
  simpl. destruct (split_incident i es) as [removed kept].
  unfold pairs in *. simpl in *. rewrite !filter_cons. simpl.
  destruct (decide (incident i (a, b))) as [Hin|Hout].
  - assert (bool_decide (a = i) || bool_decide (b = i) = true) as ->.
    { apply orb_true_iff. destruct Hin as [Hin|Hin]; simpl in Hin;
        [left|right]; by apply bool_decide_eq_true_2. }
    simpl. rewrite !decide_False by tauto. split_and!; congruence.
  - assert (bool_decide (a = i) || bool_decide (b = i) = false) as ->.
    { apply orb_false_intro; apply bool_decide_eq_false_2; intros ->; apply Hout;
        [by left|by right]. }
    simpl. rewrite !decide_True by done. simpl.
    split_and!; [congruence | congruence | f_equal; apply IH3].
Qed.

Lemma index_exact_nil : index_exact [] ∅.
Proof. intros k e. rewrite lookup_empty. split; [done|]. by intros (? & ? & ? & _). Qed.

Lemma adj_exact_nil n : adj_exact [] (replicate n (Some ∅)).
Proof.
  intros i Hi. rewrite length_replicate in Hi. exists ∅.
  split; [by apply lookup_replicate_2|].
  intros j. unfold linked. rewrite !elem_of_nil. set_solver.
Qed.

Lemma deleteNode_free i g : node_at g i = Null → deleteNode i g = Return [] g.
Proof. unfold deleteNode. by intros ->. Qed.

Lemma deleteNode_consistent i g :
  consistent g → node_at g i ≠ Null →
  ∃ g', deleteNode i g = Return (filter (incident i) (pairs (edges g))) g'
    ∧ consistent g'
    ∧ nodes g' = array_set Undefined (nodes g) i Null
    ∧ edges g' = filter (λ e : Edge, ¬ incident i (e.1.1, e.1.2)) (edges g).
Proof.
  intros Hc Hnn.
  assert (Hbody : deleteNode i g =
    (let g1 := set_nodes (array_set Undefined (nodes g) i Null) g in
     let g2 := set_adj (array_set None (_adj g1) i (Some ∅)) g1 in
     let '(removedPairs, kept) := split_incident i (edges g2) in
     let g3 := set_edges kept g2 in
     let* _ := _rebuildEdgeIndex g3 in Return removedPairs)).
  { unfold deleteNode. by destruct (node_at g i). }
  rewrite Hbody. clear Hbody. simpl.
  destruct (split_incident_spec i (edges g)) as (Hrem & Hkept & Hpk).
  destruct (split_incident i (edges g)) as [removed kept]. simpl in *. subst removed.
  unfold _rebuildEdgeIndex. simpl.
  destruct (rebuild_loop_ok kept []
              (set_adj (replicate (length (array_set None (_adj g) i (Some ∅))) (Some ∅))
                 (set_pairToEdgeIndex ∅
                    (set_edges kept
                       (set_adj (array_set None (_adj g) i (Some ∅))
                          (set_nodes (array_set Undefined (nodes g) i Null) g))))))
    as (m & adj & Hloop & Hlen & Hm & Hadj); simpl.
  - apply index_exact_nil.
  - apply adj_exact_nil.
  - rewrite Hpk. apply NoDup_filter. eapply index_exact_NoDup, Hc.
  - intros a b Hab. rewrite Hpk in Hab. apply list_elem_of_filter in Hab as [_ Hab].
    apply (cons_live _ Hc) in Hab as (_ & Ha%is_live_lt & Hb%is_live_lt).
    rewrite length_replicate, array_set_length, (cons_len _ Hc). lia.
  - simpl in Hloop. rewrite Hloop. simpl. eexists. split; [done|].
    split; [|by rewrite Hkept]. split; simpl.
    + simpl in Hlen. rewrite Hlen, length_replicate, !array_set_length, (cons_len _ Hc). done.
    + intros a b Hab. rewrite Hpk in Hab. apply list_elem_of_filter in Hab as [Hni Hab].
      apply (cons_live _ Hc) in Hab as (Hle & [na Ha] & [nb Hb]).
      split; [done|]. split; eexists; simpl; apply array_set_lookup_ne; try done;
        intros ->; apply Hni; [by left|by right].
    + done.
    + done.
Qed.

(** ** Calls that only touch what the nodes hold *)

Lemma same_links_refl g : same_links g g.
Proof. by repeat split. Qed.

Lemma same_links_trans g1 g2 g3 : same_links g1 g2 → same_links g2 g3 → same_links g1 g3.
Proof.
  intros (? & ? & ? & ? & ?) (? & ? & ? & ? & ?). repeat split; try congruence. auto.
Qed.

Lemma consistent_same_links g g' : consistent g → same_links g g' → consistent g'.
Proof.
  intros [H1 H2 H3 H4] (He & Hm & Ha & Hl & Hlive). split.
  - congruence.
  - rewrite He. intros a b Hab. destruct (H2 a b Hab) as (? & ? & ?). auto.
  - by rewrite He, Hm.
  - by rewrite He, Ha.
Qed.

Lemma same_links_set_live g m nd nd' :
  nodes g !! m = Some (Live nd) →
  same_links g (set_nodes (<[m := Live nd']> (nodes g)) g).
Proof.
  intros Hm. repeat split; simpl; [by rewrite length_insert|].
  intros i [n Hn]. destruct (decide (i = m)) as [->|Hne].
  - exists nd'. simpl. rewrite list_lookup_insert_eq; [done|by eapply lookup_lt_Some].
  - exists n. simpl. by rewrite list_lookup_insert_ne.
Qed.

Lemma renameNode_same_links i newName g : same_links g (state_of (renameNode i newName g)).
Proof.
  unfold renameNode. destruct (node_at g i) as [| |n] eqn:Hn; simpl;
    try apply same_links_refl.
  apply node_at_live in Hn. by eapply same_links_set_live.
Qed.

Lemma set_pos_same_links i p g : same_links g (state_of (set_pos i p g)).
Proof.
  unfold set_pos. destruct (node_at g i) as [| |n] eqn:Hn; simpl;
    try apply same_links_refl.
  apply node_at_live in Hn. by eapply same_links_set_live.
Qed.

Lemma set_image_same_links i u g : same_links g (state_of (set_image i u g)).
Proof.
  unfold set_image. destruct (node_at g i) as [| |n] eqn:Hn; simpl;
    try apply same_links_refl.
  apply node_at_live in Hn. by eapply same_links_set_live.
Qed.

Lemma integrate_same_links forces dt ms :
  ∀ g, same_links g (state_of (integrate forces dt ms g)).
Proof.
  induction ms as [|m ms IH]; intros g; simpl; [apply same_links_refl|].
  destruct (node_at g m) as [| |nd] eqn:Hn; [apply same_links_refl|apply IH|].
  destruct (forces !! m) as [fm|]; [|apply same_links_refl].
  eapply same_links_trans; [|apply IH].
  apply node_at_live in Hn. by eapply same_links_set_live.
Qed.

Lemma update_same_links t g : same_links g (state_of (update t g)).
Proof.
  unfold update. case_decide; [apply same_links_refl|].
  destruct (_ ≫= _); [apply integrate_same_links|apply same_links_refl].
Qed.

(** ** addFriendGroup *)

Lemma is_live_nodes g g' i : nodes g' = nodes g → is_live g i → is_live g' i.
Proof. unfold is_live. by intros ->. Qed.

Lemma scan_name_hole_free nm l k : hole_free l → scan_name nm l k ≠ TypeError.
Proof.
  unfold hole_free. revert k. induction l as [|s l IH]; intros k Hl; simpl; [done|].
  rewrite not_elem_of_cons in Hl. destruct Hl as [Hs Hl].
  destruct s as [| |n]; [done|by apply IH|]. case_decide; [done|by apply IH].
Qed.

Lemma scan_name_not_found_hole_free nm l k : scan_name nm l k = NotFound → hole_free l.
Proof.
  intros Hscan (i & Hi)%list_elem_of_lookup.
  destruct (scan_name_not_found _ _ _ Hscan _ _ Hi) as [?|(? & ? & _)]; done.
Qed.

Lemma hole_free_insert l i s : hole_free l → s ≠ Undefined → hole_free (<[i := s]> l).
Proof.
  unfold hole_free. intros Hl Hs (j & Hj)%list_elem_of_lookup.
  destruct (decide (i = j)) as [->|Hne].
  - destruct (decide (j < length l)).
    + rewrite list_lookup_insert_eq in Hj by done. congruence.
    + rewrite list_insert_ge in Hj by lia. apply Hl. by eapply list_elem_of_lookup_2.
  - rewrite list_lookup_insert_ne in Hj by done. apply Hl. by eapply list_elem_of_lookup_2.
Qed.

Lemma getOrCreateNodeIndex_return nm g idx g' :
  getOrCreateNodeIndex nm g = Return idx g' → g' = g ∨ hole_free (nodes g').
Proof.
  unfold getOrCreateNodeIndex.
  destruct (scan_name nm (nodes g) 0) eqn:Hscan; [by intros [= _ <-]; left| |done].
  apply scan_name_not_found_hole_free in Hscan.
  destruct (scan_null (nodes g) 0) as [k|] eqn:Hnull; intros [= _ <-]; right; simpl.
  - apply scan_null_some in Hnull as (i & -> & Hi & _). simpl.
    rewrite array_set_in_range by (by eapply lookup_lt_Some). by apply hole_free_insert.
  - unfold hole_free in *. rewrite elem_of_app, list_elem_of_singleton. naive_solver.
Qed.

Lemma getOrCreateNodeIndex_hole_free nm g :
  hole_free (nodes g) →
  ∃ idx g', getOrCreateNodeIndex nm g = Return idx g' ∧ hole_free (nodes g').
Proof.
  intros Hg. destruct (getOrCreateNodeIndex nm g) as [idx g'|g'] eqn:Hcall.
  - exists idx, g'. split; [done|].
    by destruct (getOrCreateNodeIndex_return _ _ _ _ Hcall) as [->|?].
  - unfold getOrCreateNodeIndex in Hcall.
    pose proof (scan_name_hole_free nm _ 0 Hg). repeat case_match; done.
Qed.

Lemma resolve_names_hole_free names :
  ∀ acc g, hole_free (nodes g) → ∃ idxs g', resolve_names names acc g = Return idxs g'.
Proof.
  induction names as [|nm names IH]; intros acc g Hg; simpl; [eauto|].
  destruct (getOrCreateNodeIndex_hole_free nm g Hg) as (idx & g1 & -> & Hg1). simpl.
  by apply IH.
Qed.

Lemma resolve_names_throw names : ∀ acc g g', resolve_names names acc g = Throw g' → g' = g.
Proof.
  induction names as [|nm names IH]; intros acc g g'; simpl; [done|].
  destruct (getOrCreateNodeIndex nm g) as [idx g1|g1] eqn:Hcall; simpl.
  - destruct (getOrCreateNodeIndex_return _ _ _ _ Hcall) as [->|Hfree]; [apply IH|].
    intros Hthrow. destruct (resolve_names_hole_free names (acc ++ [idx]) g1 Hfree)
      as (? & ? & Hret). congruence.
  - intros [= <-]. by eapply getOrCreateNodeIndex_throw.
Qed.

Lemma resolve_names_consistent names : ∀ acc g idxs g',
  consistent g → Forall (is_live g) acc →
  resolve_names names acc g = Return idxs g' →
  consistent g' ∧ Forall (is_live g') idxs.
Proof.
  induction names as [|nm names IH]; intros acc g idxs g' Hc Hacc; simpl.
  - by intros [= <- <-].
  - destruct (getOrCreateNodeIndex nm g) as [idx g1|g1] eqn:Hcall; simpl; [|done].
    destruct (getOrCreateNodeIndex_consistent _ _ _ _ Hc Hcall) as (Hc1 & Hidx & Hkeep & _).
    apply IH; [done|]. apply Forall_app. split; [|by apply Forall_singleton].
    eapply Forall_impl; [exact Hacc|done].
Qed.

Lemma link_from_ok ia rest date : ∀ g,
  consistent g → is_live g ia → Forall (is_live g) rest →
  ∃ g', link_from ia rest date g = Return tt g' ∧ consistent g' ∧ nodes g' = nodes g.
Proof.
  induction rest as [|ib rest IH]; intros g Hc Ha Hrest; simpl; [eauto|].
  apply Forall_cons in Hrest as [Hb Hrest].
  destruct (addOrUpdateEdge_consistent ia ib date g Hc Ha Hb) as (g1 & -> & Hc1 & Hn1 & _).
  simpl. destruct (IH g1) as (g2 & Hl & Hc2 & Hn2); [done|by eapply is_live_nodes|..].
  - eapply Forall_impl; [exact Hrest|]. intros i. by apply is_live_nodes.
  - exists g2. split; [done|]. split; [done|congruence].
Qed.

Lemma link_all_ok indices date : ∀ g,
  consistent g → Forall (is_live g) indices →
  ∃ g', link_all indices date g = Return tt g' ∧ consistent g' ∧ nodes g' = nodes g.
Proof.
  induction indices as [|ia rest IH]; intros g Hc Hall; simpl; [eauto|].
  apply Forall_cons in Hall as [Ha Hrest].
  destruct (link_from_ok ia rest date g Hc Ha Hrest) as (g1 & -> & Hc1 & Hn1). simpl.
  destruct (IH g1) as (g2 & Hl & Hc2 & Hn2); [done|..].
  - eapply Forall_impl; [exact Hrest|]. intros i. by apply is_live_nodes.
  - exists g2. split; [done|]. split; [done|congruence].
Qed.

Lemma addFriendGroup_consistent names date g :
  consistent g → consistent (state_of (addFriendGroup names date g)).
Proof.
  intros Hc. unfold addFriendGroup.
  destruct (resolve_names names [] g) as [idxs g1|g1] eqn:Hres; simpl.
  - destruct (resolve_names_consistent _ _ _ _ _ Hc (Forall_nil_2 _) Hres) as [Hc1 Hlive].
    by destruct (link_all_ok idxs date g1 Hc1 Hlive) as (g2 & -> & Hc2 & _).
  - by rewrite (resolve_names_throw _ _ _ _ Hres).
Qed.

Lemma addFriendGroup_throw names date g g' :
  consistent g → addFriendGroup names date g = Throw g' → g' = g.
Proof.
  intros Hc. unfold addFriendGroup.
  destruct (resolve_names names [] g) as [idxs g1|g1] eqn:Hres; simpl.
  - destruct (resolve_names_consistent _ _ _ _ _ Hc (Forall_nil_2 _) Hres) as [Hc1 Hlive].
    destruct (link_all_ok idxs date g1 Hc1 Hlive) as (g2 & -> & _). done.
  - intros [= <-]. by eapply resolve_names_throw.
Qed.

(** ** Every reachable state satisfies the representation invariant *)

Lemma consistent_new : consistent new_Graph.
Proof.
  split; simpl.
  - done.
  - intros a b H. by apply elem_of_nil in H.
  - apply index_exact_nil.
  - intros i Hi. simpl in Hi. lia.
Qed.

Lemma run_consistent o g : consistent g → permitted o g → consistent (run o g).
Proof.
  intros Hc Hp. unfold run. destruct o as [nm|i|names date|i|i nn|t|i j date|i|i p|i u]; simpl.
  - destruct (getOrCreateNodeIndex nm g) as [idx g'|g'] eqn:Hcall; simpl.
    + by destruct (getOrCreateNodeIndex_consistent _ _ _ _ Hc Hcall).
    + by rewrite (getOrCreateNodeIndex_throw _ _ _ Hcall).
  - done.
  - by apply addFriendGroup_consistent.
  - unfold degree. by destruct (adj_at _ _).
  - eapply consistent_same_links; [done|apply renameNode_same_links].
  - eapply consistent_same_links; [done|apply update_same_links].
  - destruct Hp as [Hi Hj].
    by destruct (addOrUpdateEdge_consistent i j date g Hc Hi Hj) as (g' & -> & ? & _).
  - destruct (node_at g i) as [| |n] eqn:Hslot; [|by rewrite deleteNode_free|].
    all: assert (node_at g i ≠ Null) as Hnn by (by rewrite Hslot).
    all: by destruct (deleteNode_consistent i g Hc Hnn) as (g' & -> & ? & _).
  - eapply consistent_same_links; [done|apply set_pos_same_links].
  - eapply consistent_same_links; [done|apply set_image_same_links].
Qed.

Lemma reachable_consistent g : reachable g → consistent g.
Proof.
  induction 1 as [|o g _ IH Hp]; [apply consistent_new|by apply run_consistent].
Qed.

Lemma consistent_adjacency g : consistent g → adjacency_reflects_edges g.
Proof.
  intros Hc a b Hab. split.
  - intros [(s & Hs & Hb) _]. apply adj_at_lookup in Hs.
    destruct (cons_adj _ Hc a) as (s' & Hs' & Hmem); [by eapply lookup_lt_Some|].
    simplify_eq. apply Hmem in Hb as [Hin|Hin].
    + by apply pairs_elem.
    + apply (cons_live _ Hc) in Hin as (? & _). lia.
  - intros [d Hd]. assert ((a, b) ∈ pairs (edges g)) as Hin by (apply pairs_elem; eauto).
    destruct (cons_live _ Hc a b Hin) as (_ & Ha%is_live_lt & Hb%is_live_lt).
    rewrite <- (cons_len _ Hc) in Ha, Hb.
    destruct (cons_adj _ Hc a Ha) as (sa & Hsa & Hma).
    destruct (cons_adj _ Hc b Hb) as (sb & Hsb & Hmb).
    split; eexists; (split; [by apply adj_at_lookup|]).
    + apply Hma. by left.
    + apply Hmb. by right.
Qed.

Lemma consistent_pair_index g : consistent g → pair_index_reflects_edges g.
Proof.
  intros Hc k e. rewrite (cons_index _ Hc k e). setoid_rewrite pairs_lookup. naive_solver.
Qed.

(** C1.  After every sequence of public operations (with [addOrUpdateEdge]
    given live endpoints), whether the calls returned or raised, the
    adjacency sets and the pair index are exact reflections of the edge list:
    for [a < b], [b ∈ _adj[a]] and [a ∈ _adj[b]] exactly when an edge
    [(a, b)] is stored, and the pair index maps the key of each stored edge
    to its position and holds no other entry. *)
Theorem adjacency_and_index_exact g :
  reachable g → adjacency_reflects_edges g ∧ pair_index_reflects_edges g.
Proof.
  intros Hc%reachable_consistent.
  split; [by apply consistent_adjacency|by apply consistent_pair_index].
Qed.

(** ** The tunables are never written *)

Lemma bind_tunables {A B} (o : outcome A) (k : A → Graph → outcome B) T :
  tunables (state_of o) = T →
  (∀ a g, tunables g = T → tunables (state_of (k a g)) = T) →
  tunables (state_of (bind o k)) = T.
Proof. destruct o; simpl; auto. Qed.

Lemma getOrCreateNodeIndex_tunables nm g :
  tunables (state_of (getOrCreateNodeIndex nm g)) = tunables g.
Proof. unfold getOrCreateNodeIndex. by repeat case_match. Qed.

Lemma register_edge_tunables a b e g :
  tunables (state_of (register_edge a b e g)) = tunables g.
Proof. unfold register_edge. by repeat case_match. Qed.

Lemma addOrUpdateEdge_tunables i j date g :
  tunables (state_of (addOrUpdateEdge i j date g)) = tunables g.
Proof.
  unfold addOrUpdateEdge.
  destruct (_pairToEdgeIndex g !! _) as [e|].
  - destruct (edges g !! e) as [[[ea eb] old]|]; [|done]. by case_match.
  - by rewrite register_edge_tunables.
Qed.

Lemma resolve_names_tunables names :
  ∀ acc g, tunables (state_of (resolve_names names acc g)) = tunables g.
Proof.
  induction names as [|nm names IH]; intros acc g; simpl; [done|].
  apply bind_tunables; [apply getOrCreateNodeIndex_tunables|].
  intros idx g1 <-. apply IH.
Qed.

Lemma link_from_tunables ia rest date :
  ∀ g, tunables (state_of (link_from ia rest date g)) = tunables g.
Proof.
  induction rest as [|ib rest IH]; intros g; simpl; [done|].
  apply bind_tunables; [apply addOrUpdateEdge_tunables|]. intros _ g1 <-. apply IH.
Qed.

Lemma link_all_tunables indices date :
  ∀ g, tunables (state_of (link_all indices date g)) = tunables g.
Proof.
  induction indices as [|ia rest IH]; intros g; simpl; [done|].
  apply bind_tunables; [apply link_from_tunables|]. intros _ g1 <-. apply IH.
Qed.

Lemma rebuild_loop_tunables es :
  ∀ e g, tunables (state_of (rebuild_loop es e g)) = tunables g.
Proof.
  induction es as [|[[a b] d] es IH]; intros e g; simpl; [done|].
  apply bind_tunables; [apply register_edge_tunables|]. intros _ g1 <-. apply IH.
Qed.

Lemma deleteNode_tunables i g : tunables (state_of (deleteNode i g)) = tunables g.
Proof.
  unfold deleteNode. destruct (node_at g i); try done.
  all: simpl; destruct (split_incident i (edges g)) as [removed kept].
  all: apply bind_tunables; [|by intros _ g1 <-].
  all: unfold _rebuildEdgeIndex; by rewrite rebuild_loop_tunables.
Qed.

Lemma integrate_tunables forces dt ms :
  ∀ g, tunables (state_of (integrate forces dt ms g)) = tunables g.
Proof.
  induction ms as [|m ms IH]; intros g; simpl; [done|].
  repeat case_match; try done; by rewrite IH.
Qed.

Lemma run_tunables o g : tunables (run o g) = tunables g.
Proof.
  unfold run. destruct o; simpl.
  - destruct (getOrCreateNodeIndex nm g) eqn:E; simpl;
      by rewrite <- (getOrCreateNodeIndex_tunables nm g), E.
  - done.
  - unfold addFriendGroup. apply bind_tunables; [apply resolve_names_tunables|].
    intros idxs g1 <-. apply link_all_tunables.
  - unfold degree. by case_match.
  - unfold renameNode. by case_match.
  - unfold update. repeat case_match; try done. apply integrate_tunables.
  - apply addOrUpdateEdge_tunables.
  - destruct (deleteNode i g) eqn:E; simpl; by rewrite <- (deleteNode_tunables i g), E.
  - unfold set_pos. by case_match.
  - unfold set_image. by case_match.
Qed.

Lemma reachable_tunables g : reachable g → tunables g = tunables new_Graph.
Proof.
  induction 1 as [|o g _ IH _]; [done|]. by rewrite run_tunables.
Qed.

(** ** When [update] raises *)

Section for_each.
Context {S : Type} (body : nat → S → option S).

Lemma for_each_body idxs :
  ∀ s s', for_each body idxs s = Some s' →
  ∀ k, k ∈ idxs → ∃ s1 s2, body k s1 = Some s2.
Proof.
  induction idxs as [|k0 idxs IH]; intros s s' Hrun k Hk; [by apply elem_of_nil in Hk|].
  simpl in Hrun. destruct (body k0 s) as [s1|] eqn:Hb; simpl in Hrun; [|done].
  apply elem_of_cons in Hk as [->|Hk]; [eauto|by eapply IH].
Qed.

Lemma for_each_invariant (Q : S → Prop) idxs :
  (∀ k s s', Q s → body k s = Some s' → Q s') →
  ∀ s s', Q s → for_each body idxs s = Some s' → Q s'.
Proof.
  intros Hstep. induction idxs as [|k0 idxs IH]; intros s s' Hs; simpl.
  - by intros [= <-].
  - destruct (body k0 s) as [s1|] eqn:Hb; simpl; [|done]. eauto.
Qed.

End for_each.

Lemma accumulate_length op forces k f forces' :
  accumulate op forces k f = Some forces' → length forces' = length forces.
Proof.
  unfold accumulate. destruct (forces !! k); simpl; [|done].
  intros [= <-]. by rewrite length_insert.
Qed.

Lemma center_loop_length g n forces forces' :
  center_loop g n forces = Some forces' → length forces' = length forces.
Proof.
  unfold center_loop. intros Hrun.
  eapply (for_each_invariant _ (λ F, length F = length forces)); [|done|exact Hrun].
  intros k F F' HF. cbv beta. case_match; [by intros [= <-]|].
  destruct (slot_pos _); simpl; [|done]. intros ->%accumulate_length. done.
Qed.

Ltac split_binds :=
  repeat match goal with
         | H : _ ≫= _ = Some _ |- _ => apply bind_Some in H as (? & ? & ?)
         | H : (if ?b then _ else _) = Some _ |- _ => destruct b eqn:?
         end.

Lemma pair_interaction_length g i j forces forces' :
  pair_interaction g i j forces = Some forces' → length forces' = length forces.
Proof.
  unfold pair_interaction, accumulate. intros H. split_binds.
  all: simplify_eq; by rewrite !length_insert.
Qed.

Lemma pair_loop_length g n forces forces' :
  pair_loop g n forces = Some forces' → length forces' = length forces.
Proof.
  unfold pair_loop. intros Hrun.
  eapply (for_each_invariant _ (λ F, length F = length forces)); [|done|exact Hrun].
  intros i2 F F' HF. cbv beta. case_match; [by intros [= <-]|].
  unfold inner_loop. intros Hin.
  eapply (for_each_invariant _ (λ F, length F = length forces)); [|exact HF|exact Hin].
  intros j F1 F2 HF1. cbv beta. case_match; [by intros [= <-]|].
  intros ->%pair_interaction_length. done.
Qed.

Lemma center_loop_no_hole g n forces forces' :
  center_loop g n forces = Some forces' → ∀ k, k < n → node_at g k ≠ Undefined.
Proof.
  unfold center_loop. intros Hrun k Hk.
  destruct (for_each_body _ _ _ _ Hrun k) as (F1 & F2 & Hbody).
  { apply elem_of_seq. lia. }
  intros Hu. rewrite Hu in Hbody. done.
Qed.

Lemma integrate_returns forces dt ms :
  ∀ g, (∀ m, m ∈ ms → node_at g m ≠ Undefined ∧ m < length forces) →
       ∃ g', integrate forces dt ms g = Return tt g'.
Proof.
  induction ms as [|m ms IH]; intros g Hms; simpl; [eauto|].
  destruct (Hms m) as [Hm Hlen]; [left|].
  destruct (node_at g m) as [| |nd] eqn:Hn; [done| |].
  - apply IH. intros m' Hm'. apply Hms. by right.
  - destruct (lookup_lt_is_Some_2 forces m Hlen) as [fm ->].
    apply IH. intros m' Hm'. destruct (Hms m') as [Hu Hl]; [by right|].
    split; [|done]. unfold node_at in *. simpl.
    destruct (decide (m' = m)) as [->|Hne].
    + rewrite list_lookup_insert_eq; [done|].
      destruct (nodes g !! m) eqn:E; [by eapply lookup_lt_Some|done].
    + by rewrite list_lookup_insert_ne.
Qed.

Lemma update_throw t g g' : update t g = Throw g' → g' = g.
Proof.
  unfold update. case_decide; [done|].
  destruct (pair_loop g (length (nodes g)) _) as [F1|] eqn:Hpair; simpl;
    [|by intros [= <-]].
  destruct (center_loop g (length (nodes g)) F1) as [F2|] eqn:Hcenter;
    [|by intros [= <-]].
  destruct (integrate_returns F2 t (seq 0 (length (nodes g))) g) as [g1 ->]; [|done].
  intros m [_ Hm]%elem_of_seq. split; [by eapply center_loop_no_hole|].
  rewrite (center_loop_length _ _ _ _ Hcenter), (pair_loop_length _ _ _ _ Hpair).
  rewrite length_replicate. lia.
Qed.

(** ** addOrUpdateEdge returns when its endpoints are in bounds *)

Lemma addOrUpdateEdge_returns i j date g :
  consistent g → i < length (nodes g) → j < length (nodes g) →
  ∃ g', addOrUpdateEdge i j date g = Return tt g'.
Proof.
  intros Hc Hi Hj. unfold addOrUpdateEdge. rewrite canonical_min, canonical_max.
  set (a := i `min` j). set (b := i `max` j).
  destruct (_pairToEdgeIndex g !! key a b) as [e|] eqn:Hkey.
  - apply (cons_index _ Hc) in Hkey as (a' & b' & [old ->]%pairs_lookup & _).
    case_match; eauto.
  - destruct (register_edge_ok (pairs (edges g)) a b
                (set_edges (edges g ++ [(a, b, date)]) g))
      as (m & adj & Hreg & _); simpl.
    + apply (cons_index _ Hc).
    + apply (cons_adj _ Hc).
    + intros (e & He)%list_elem_of_lookup.
      assert (_pairToEdgeIndex g !! key a b = Some e) by (apply (cons_index _ Hc); eauto).
      congruence.
    + rewrite (cons_len _ Hc). subst a. lia.
    + rewrite (cons_len _ Hc). subst b. lia.
    + rewrite pairs_length in Hreg. rewrite Hreg. eauto.
Qed.

(** C6, as amended.  On every reachable state, a call that raises leaves the
    state as it was, for every operation, [addOrUpdateEdge] being given
    endpoints within the node storage. *)
Theorem failed_call_leaves_state g o g' :
  reachable g → in_bounds_call o g → call o g = Throw g' → g' = g.
Proof.
  intros Hc%reachable_consistent Hb.
  destruct o as [nm|i|names date|i|i nn|t|i j date|i|i p|i u]; simpl.
  - destruct (getOrCreateNodeIndex nm g) eqn:E; simpl; [done|].
    intros [= <-]. by eapply getOrCreateNodeIndex_throw.
  - done.
  - by apply addFriendGroup_throw.
  - unfold degree. case_match; simpl; congruence.
  - unfold renameNode. case_match; congruence.
  - apply update_throw.
  - destruct Hb as [Hi Hj].
    destruct (addOrUpdateEdge_returns i j date g Hc Hi Hj) as [g1 ->]. done.
  - destruct (node_at g i) as [| |n] eqn:Hslot; [|by rewrite deleteNode_free|].
    all: assert (node_at g i ≠ Null) as Hnn by (by rewrite Hslot).
    all: by destruct (deleteNode_consistent i g Hc Hnn) as (g1 & -> & _).
  - unfold set_pos. case_match; congruence.
  - unfold set_image. case_match; congruence.
Qed.

(** ** deleteNode, seen from the caller *)

Lemma pairs_filter i es :
  pairs (filter (λ e : Edge, ¬ incident i (e.1.1, e.1.2)) es)
  = filter (λ p, ¬ incident i p) (pairs es).
Proof. destruct (split_incident_spec i es) as (_ & <- & H). exact H. Qed.

Lemma linked_filter i ps k j :
  linked (filter (λ p, ¬ incident i p) ps) k j ↔ linked ps k j ∧ k ≠ i ∧ j ≠ i.
Proof.
  unfold linked, incident. rewrite !list_elem_of_filter. simpl. naive_solver.
Qed.

Lemma size_remove (s s' : gset nat) i :
  i ∈ s → (∀ j, j ∈ s' ↔ j ∈ s ∧ j ≠ i) → size s = S (size s').
Proof.
  intros Hi Hs'. assert (s = {[i]} ∪ s') as ->.
  { apply set_eq. intros j. rewrite elem_of_union, elem_of_singleton, Hs'.
    destruct (decide (j = i)); naive_solver. }
  rewrite size_union, size_singleton; [done|].
  intros j ->%elem_of_singleton [_ ?]%Hs'. done.
Qed.

Lemma adj_has_linked g k j :
  consistent g → adj_has g k j ↔ k < length (_adj g) ∧ linked (pairs (edges g)) k j.
Proof.
  intros Hc. split.
  - intros (s & Hs%adj_at_lookup & Hj).
    assert (k < length (_adj g)) as Hk by (by eapply lookup_lt_Some).
    split; [done|]. destruct (cons_adj _ Hc k Hk) as (s' & Hs' & Hmem).
    simplify_eq. by apply Hmem.
  - intros [Hk Hl]. destruct (cons_adj _ Hc k Hk) as (s & Hs & Hmem).
    exists s. split; [by apply adj_at_lookup|by apply Hmem].
Qed.

(** C2, as amended.  For an index [i] within the node storage of a
    reachable state: when slot [i] is free, [deleteNode(i)] returns the empty
    list and changes nothing; otherwise it tombstones slot [i], returns the
    endpoint pairs of the edges incident to [i] in storage order, and
    afterwards no stored edge references [i], no adjacency set contains [i],
    and the degree of every former neighbour other than [i] itself is lower
    by exactly one. *)
Theorem deleteNode_spec i g :
  reachable g → i < length (nodes g) →
  (node_at g i = Null → deleteNode i g = Return [] g)
  ∧ (node_at g i ≠ Null →
     ∃ g', deleteNode i g = Return (filter (incident i) (pairs (edges g))) g'
       ∧ nodes g' = <[i := Null]> (nodes g)
       ∧ edges g' = filter (λ e : Edge, ¬ incident i (e.1.1, e.1.2)) (edges g)
       ∧ (∀ a b d, (a, b, d) ∈ edges g' → a ≠ i ∧ b ≠ i)
       ∧ (∀ k, ¬ adj_has g' k i)
       ∧ (∀ k, k ≠ i → adj_has g k i →
            ∃ n, degree k g = Return (S n) g ∧ degree k g' = Return n g')).
Proof.
  intros Hc%reachable_consistent Hi. split; [apply deleteNode_free|].
  intros Hnn.
  destruct (deleteNode_consistent i g Hc Hnn) as (g' & Hdel & Hc' & Hnodes & Hedges).
  rewrite array_set_in_range in Hnodes by done.
  assert (Hlinked : ∀ k j, linked (pairs (edges g')) k j
                           ↔ linked (pairs (edges g)) k j ∧ k ≠ i ∧ j ≠ i).
  { intros k j. by rewrite Hedges, pairs_filter, linked_filter. }
  exists g'. split_and!; try done.
  - intros a b d Hin. rewrite Hedges in Hin. apply list_elem_of_filter in Hin as [Hni _].
    unfold incident in Hni. simpl in Hni. split; intros ->; apply Hni; auto.
  - intros k [_ Hl]%(adj_has_linked _ _ _ Hc'). apply Hlinked in Hl. tauto.
  - intros k Hki (s & Hs & His).
    pose proof Hs as Hs0%adj_at_lookup.
    assert (k < length (_adj g)) as Hk by (by eapply lookup_lt_Some).
    assert (k < length (_adj g')) as Hk'.
    { rewrite (cons_len _ Hc'), Hnodes, length_insert, <- (cons_len _ Hc). done. }
    destruct (cons_adj _ Hc k Hk) as (s0 & Hs0' & Hmem). simplify_eq.
    destruct (cons_adj _ Hc' k Hk') as (s' & Hs' & Hmem').
    assert (size s = S (size s')) as Hsize.
    { apply (size_remove _ _ i His). intros j.
      rewrite Hmem', Hmem, Hlinked. tauto. }
    exists (size s'). unfold degree. rewrite Hs, (proj2 (adj_at_lookup _ _ _) Hs').
    by rewrite Hsize.
Qed.

Lemma graph_AAB_reachable : reachable graph_AAB.
Proof. apply reachable_run; [apply reachable_new|exact I]. Qed.

(** C2 as stated fails when [i] is a neighbour of itself: in the graph of
    [A], [A], [B] node [0] is its own neighbour and has degree 2, and
    [deleteNode(0)] leaves it with degree 0, not 1. *)
Lemma deleteNode_self_neighbour :
  reachable graph_AAB ∧ adj_has graph_AAB 0 0
  ∧ degree 0 graph_AAB = Return 2 graph_AAB
  ∧ ∃ g', deleteNode 0 graph_AAB = Return [(0, 0); (0, 1)] g'
          ∧ degree 0 g' = Return 0 g'.
Proof.
  split; [apply graph_AAB_reachable|]. split.
  - exists {[0; 1]}. split; [by vm_compute|set_solver].
  - split; [by vm_compute|]. eexists. split; by vm_compute.
Qed.

(** The hypotheses of C2 at work: deleting [B] from the graph of [A], [A],
    [B]. *)
Lemma deleteNode_spec_witness :
  reachable graph_AAB ∧ 1 < length (nodes graph_AAB)
  ∧ node_at graph_AAB 1 ≠ Null
  ∧ ∃ g', deleteNode 1 graph_AAB
          = Return (filter (incident 1) (pairs (edges graph_AAB))) g'
          ∧ nodes g' = <[1 := Null]> (nodes graph_AAB).
Proof.
  assert (Hlen : 1 < length (nodes graph_AAB)) by (vm_compute; lia).
  assert (Hnn : node_at graph_AAB 1 ≠ Null) by (by vm_compute).
  destruct (deleteNode_spec 1 graph_AAB graph_AAB_reachable Hlen) as [_ Hspec].
  destruct (Hspec Hnn) as (g' & Hdel & Hnodes & _).
  split; [apply graph_AAB_reachable|]. split; [done|]. split; [done|].
  exists g'. by split.
Defined.

(** ** Two calls of addOrUpdateEdge on one pair *)

Lemma stored_date_unique g a b d d' :
  consistent g → (a, b, d) ∈ edges g → (a, b, d') ∈ edges g → d = d'.
Proof.
  intros Hc [e He]%list_elem_of_lookup [e' He']%list_elem_of_lookup.
  pose proof (index_exact_NoDup _ _ (cons_index _ Hc)) as Hnd.
  assert (e = e') as ->; [|congruence].
  eapply NoDup_lookup; [exact Hnd|apply pairs_lookup; eauto..].
Qed.

Lemma addOrUpdateEdge_date i j date g :
  consistent g → is_live g i → is_live g j →
  ∃ g' d, addOrUpdateEdge i j date g = Return tt g' ∧ consistent g'
    ∧ nodes g' = nodes g
    ∧ (i `min` j, i `max` j, d) ∈ edges g'
    ∧ ((i `min` j, i `max` j) ∉ pairs (edges g) → d = date)
    ∧ (∀ d0, (i `min` j, i `max` j, d0) ∈ edges g → d = earlier date d0).
Proof.
  intros Hc Hi Hj.
  destruct (addOrUpdateEdge_consistent i j date g Hc Hi Hj)
    as (g' & Hcall & Hc' & Hn & [(e & old & He & Hedges)|[Hfresh Hedges]]).
  - exists g', (earlier date old).
    split_and!; try done.
    + rewrite Hedges. eapply list_elem_of_lookup_2.
      apply list_lookup_insert_eq. by eapply lookup_lt_Some.
    + intros Hfresh. destruct Hfresh. apply pairs_elem. exists old.
      by eapply list_elem_of_lookup_2.
    + intros d0 Hd0. assert (d0 = old) as ->; [|done].
      eapply (stored_date_unique g); [done|done|]. by eapply list_elem_of_lookup_2.
  - exists g', date. split_and!; try done.
    + rewrite Hedges. apply elem_of_app. right. by apply list_elem_of_singleton.
    + intros d0 Hd0. destruct Hfresh. apply pairs_elem. eauto.
Qed.

Lemma getTime_earlier (d d0 : Date) t t0 :
  getTime d = Millis t → getTime d0 = Millis t0 →
  getTime (earlier d d0) = Millis (t0 `min` t)%Z.
Proof.
  intros Hd Hd0. unfold earlier. rewrite Hd, Hd0. simpl.
  case_bool_decide; [rewrite Hd|rewrite Hd0]; f_equal; lia.
Qed.

(** C3, as amended.  For two distinct live nodes [i] and [j] of a reachable
    state, [addOrUpdateEdge(i, j, d1)] followed by a call on the same
    unordered pair, in either order, with [d2], leaves exactly one edge for
    the pair, stored as [(min(i,j), max(i,j))].  Its date is what the two
    comparisons leave, a comparison with an Invalid Date being false: [d2]
    when [d2] is strictly before the date left by the first call, else that
    date, where the first call leaves [d1] for a new pair and the earlier of
    [d1] and the stored date otherwise.  For valid dates this is
    [min(d1, d2)] when the pair had no edge before the two calls, and the
    earliest of the date stored before, [d1] and [d2] otherwise. *)
Theorem addOrUpdateEdge_twice g i j i' j' d1 d2 :
  reachable g → is_live g i → is_live g j → i ≠ j →
  (i' = i ∧ j' = j) ∨ (i' = j ∧ j' = i) →
  ∃ g1 g2 e d,
    addOrUpdateEdge i j d1 g = Return tt g1
    ∧ addOrUpdateEdge i' j' d2 g1 = Return tt g2
    ∧ edges g2 !! e = Some (i `min` j, i `max` j, d)
    ∧ (∀ e' a b d', edges g2 !! e' = Some (a, b, d') →
         (a = i ∧ b = j) ∨ (a = j ∧ b = i) → e' = e)
    ∧ ((i `min` j, i `max` j) ∉ pairs (edges g) →
         d = earlier d2 d1
         ∧ ∀ t1 t2, getTime d1 = Millis t1 → getTime d2 = Millis t2 →
             getTime d = Millis (t1 `min` t2)%Z)
    ∧ (∀ d0, (i `min` j, i `max` j, d0) ∈ edges g →
         d = earlier d2 (earlier d1 d0)
         ∧ ∀ t0 t1 t2,
             getTime d0 = Millis t0 → getTime d1 = Millis t1 → getTime d2 = Millis t2 →
             getTime d = Millis (t0 `min` (t1 `min` t2))%Z).
Proof.
  intros Hc%reachable_consistent Hi Hj Hij Hsame.
  destruct (addOrUpdateEdge_date i j d1 g Hc Hi Hj)
    as (g1 & dd1 & Hcall1 & Hc1 & Hn1 & Hin1 & Hfresh1 & Hold1).
  assert (is_live g1 i' ∧ is_live g1 j') as [Hi' Hj'].
  { destruct Hsame as [[-> ->]|[-> ->]]; split; by eapply is_live_nodes. }
  assert (i' `min` j' = i `min` j ∧ i' `max` j' = i `max` j) as [Hmin Hmax].
  { destruct Hsame as [[-> ->]|[-> ->]]; lia. }
  destruct (addOrUpdateEdge_date i' j' d2 g1 Hc1 Hi' Hj')
    as (g2 & dd2 & Hcall2 & Hc2 & Hn2 & Hin2 & _ & Hold2).
  rewrite Hmin, Hmax in Hin2, Hold2.
  pose proof Hin2 as [e He]%list_elem_of_lookup.
  exists g1, g2, e, dd2. split_and!; try done.
  - intros e' a b d' He' Hab.
    assert ((a, b) ∈ pairs (edges g2)) as Hin.
    { apply pairs_elem. exists d'. by eapply list_elem_of_lookup_2. }
    apply (cons_live _ Hc2) in Hin as (Hle & _).
    assert (a = i `min` j ∧ b = i `max` j) as [-> ->] by lia.
    eapply NoDup_lookup; [eapply index_exact_NoDup, (cons_index _ Hc2)|..];
      apply pairs_lookup; eauto.
  - intros Hfresh. rewrite (Hold2 _ Hin1), (Hfresh1 Hfresh). split; [done|].
    intros t1 t2 Ht1 Ht2. rewrite (getTime_earlier _ _ _ _ Ht2 Ht1). done.
  - intros d0 Hd0. rewrite (Hold2 _ Hin1), (Hold1 _ Hd0). split; [done|].
    intros t0 t1 t2 Ht0 Ht1 Ht2.
    rewrite (getTime_earlier _ _ _ _ Ht2 (getTime_earlier _ _ _ _ Ht1 Ht0)). f_equal. lia.
Qed.

Lemma graph_AB_2000_reachable : reachable graph_AB_2000.
Proof. apply reachable_run; [apply reachable_new|exact I]. Qed.

Lemma graph_A_B_reachable : reachable graph_A_B.
Proof. repeat (apply reachable_run; [|exact I]). apply reachable_new. Qed.

(** C3 as stated fails in two ways.  When the pair already has an earlier
    edge: with the edge between nodes 0 and 1 dated 2000, adding 2020 and
    then 2015 leaves the date 2000, which is not [min(2020, 2015)].  And
    when a date is an Invalid Date, for which every comparison is false: on
    a new pair the date given first is kept, so that an Invalid Date and
    2015 leave the one or the other according to their order, which no
    minimum of the two does. *)
Lemma addOrUpdateEdge_date_not_min :
  (reachable graph_AB_2000 ∧ is_live graph_AB_2000 0 ∧ is_live graph_AB_2000 1
   ∧ (∃ g1 g2, addOrUpdateEdge 0 1 year2020 graph_AB_2000 = Return tt g1
               ∧ addOrUpdateEdge 1 0 year2015 g1 = Return tt g2
               ∧ edges g2 = [(0, 1, year2000)])
   ∧ time_lt (getTime year2015) (getTime year2020) = true
   ∧ time_lt (getTime year2000) (getTime year2015) = true)
  ∧ (reachable graph_A_B ∧ is_live graph_A_B 0 ∧ is_live graph_A_B 1
     ∧ (∃ g1 g2, addOrUpdateEdge 0 1 invalid_date graph_A_B = Return tt g1
                 ∧ addOrUpdateEdge 0 1 year2015 g1 = Return tt g2
                 ∧ edges g2 = [(0, 1, invalid_date)])
     ∧ (∃ g1 g2, addOrUpdateEdge 0 1 year2015 graph_A_B = Return tt g1
                 ∧ addOrUpdateEdge 0 1 invalid_date g1 = Return tt g2
                 ∧ edges g2 = [(0, 1, year2015)])).
Proof.
  split.
  - split; [apply graph_AB_2000_reachable|].
    split; [by eexists|]. split; [by eexists|]. split; [|done].
    eexists _, _. split; [by vm_compute|]. split; by vm_compute.
  - split; [apply graph_A_B_reachable|].
    split; [by eexists|]. split; [by eexists|].
    split; eexists _, _; (split; [by vm_compute|]); split; by vm_compute.
Qed.

(** The hypotheses of C3 at work: 2020 and then 2015, in opposite endpoint
    order, on two nodes without an edge. *)
Lemma addOrUpdateEdge_twice_witness :
  reachable graph_A_B ∧ is_live graph_A_B 0 ∧ is_live graph_A_B 1 ∧ 0 ≠ 1
  ∧ ∃ g1 g2 e d,
      addOrUpdateEdge 0 1 year2020 graph_A_B = Return tt g1
      ∧ addOrUpdateEdge 1 0 year2015 g1 = Return tt g2
      ∧ edges g2 !! e = Some (0, 1, d)
      ∧ getTime d = getTime year2015.
Proof.
  assert (Hl0 : is_live graph_A_B 0) by (by eexists).
  assert (Hl1 : is_live graph_A_B 1) by (by eexists).
  assert (Hne : 0 ≠ 1) by lia.
  destruct (addOrUpdateEdge_twice graph_A_B 0 1 1 0 year2020 year2015
              graph_A_B_reachable Hl0 Hl1 Hne (or_intror (conj eq_refl eq_refl)))
    as (g1 & g2 & e & d & H1 & H2 & He & _ & Hfresh & _).
  split; [apply graph_A_B_reachable|]. do 3 (split; [done|]).
  exists g1, g2, e, d. split_and!; try done.
  destruct Hfresh as [_ Hvalid].
  { assert (pairs (edges graph_A_B) = []) as -> by (by vm_compute). apply not_elem_of_nil. }
  by rewrite (Hvalid _ _ eq_refl eq_refl).
Defined.

(** ** getOrCreateNodeIndex, seen from the caller *)

Lemma scan_name_complete nm l : ∀ k idx,
  first_named nm idx l → scan_name nm l k = Found (k + idx).
Proof.
  induction l as [|s l IH]; intros k idx [(n & Hn & Hnm) Hlow]; [done|].
  destruct idx as [|idx]; simpl in *.
  - simplify_eq. rewrite decide_True by done. f_equal. lia.
  - assert (Hrest : first_named nm idx l).
    { split; [by exists n|]. intros i' Hi'. apply (Hlow (S i')). lia. }
    destruct (Hlow 0) as [Hs|(n' & Hs & Hn')]; [lia|..]; simplify_eq/=.
    + rewrite (IH (S k) idx Hrest). f_equal. lia.
    + rewrite decide_False by done. rewrite (IH (S k) idx Hrest). f_equal. lia.
Qed.

Lemma scan_name_none nm l k :
  hole_free l → (∀ i, ¬ holds_name l nm i) → scan_name nm l k = NotFound.
Proof.
  unfold hole_free. revert k. induction l as [|s l IH]; intros k Hfree Hno; [done|].
  rewrite not_elem_of_cons in Hfree. destruct Hfree as [Hs Hfree]. simpl.
  assert (Hrest : ∀ i, ¬ holds_name l nm i).
  { intros i Hi. apply (Hno (S i)). exact Hi. }
  destruct s as [| |n]; [done|by apply IH|].
  rewrite decide_False; [by apply IH|].
  intros Hnm. apply (Hno 0). by exists n.
Qed.

Lemma scan_null_complete l : ∀ k idx,
  lowest (free_at l) idx → scan_null l k = Some (k + idx).
Proof.
  unfold free_at. induction l as [|s l IH]; intros k idx [Hidx Hlow]; [done|].
  destruct idx as [|idx]; simpl in *.
  - simplify_eq. f_equal. lia.
  - assert (Hrest : lowest (λ i, l !! i = Some Null) idx).
    { split; [done|]. intros i' Hi'. apply (Hlow (S i')). lia. }
    destruct s as [| |n].
    + rewrite (IH (S k) idx Hrest). f_equal. lia.
    + destruct (Hlow 0); [lia|done].
    + rewrite (IH (S k) idx Hrest). f_equal. lia.
Qed.

Lemma scan_null_absent l k : (∀ i, ¬ free_at l i) → scan_null l k = None.
Proof.
  unfold free_at. revert k. induction l as [|s l IH]; intros k Hno; [done|]. simpl.
  assert (Hrest : ∀ i, l !! i ≠ Some Null) by (intros i; apply (Hno (S i))).
  destruct s as [| |n]; [by apply IH| |by apply IH]. by destruct (Hno 0).
Qed.

Lemma lowest_first_named nm idx l :
  hole_free l → lowest (holds_name l nm) idx → first_named nm idx l.
Proof.
  intros Hfree [Hidx Hlow]. split; [done|]. intros i' Hi'.
  destruct Hidx as (n & Hn & _).
  destruct (lookup_lt_is_Some_2 l i') as [s Hs].
  { apply lookup_lt_Some in Hn. lia. }
  destruct s as [| |n'].
  - destruct Hfree. by eapply list_elem_of_lookup_2.
  - by left.
  - right. exists n'. split; [done|]. intros Hnm. apply (Hlow i' Hi'). by exists n'.
Qed.

(** *** What unrelated calls leave of [first_named] *)

Lemma first_named_insert_live nm idx l m nd :
  first_named nm idx l → (m = idx → name nd = nm) → (m < idx → name nd ≠ nm) →
  first_named nm idx (<[m := Live nd]> l).
Proof.
  intros [(n & Hn & Hnm) Hlow] Heq Hlt. split.
  - destruct (decide (m = idx)) as [->|Hne].
    + exists nd. rewrite list_lookup_insert_eq by (by eapply lookup_lt_Some). auto.
    + exists n. by rewrite list_lookup_insert_ne.
  - intros i' Hi'. destruct (decide (m = i')) as [->|Hne].
    + right. exists nd. split; [|auto].
      apply list_lookup_insert_eq. apply lookup_lt_Some in Hn. lia.
    + rewrite list_lookup_insert_ne by done. by apply Hlow.
Qed.

Lemma first_named_insert_null nm idx l m :
  first_named nm idx l → m ≠ idx → first_named nm idx (<[m := Null]> l).
Proof.
  intros [(n & Hn & Hnm) Hlow] Hne. split.
  - exists n. by rewrite list_lookup_insert_ne.
  - intros i' Hi'. destruct (decide (m = i')) as [->|Hne'].
    + left. apply list_lookup_insert_eq. apply lookup_lt_Some in Hn. lia.
    + rewrite list_lookup_insert_ne by done. by apply Hlow.
Qed.

Lemma first_named_app nm idx l l' : first_named nm idx l → first_named nm idx (l ++ l').
Proof.
  intros [(n & Hn & Hnm) Hlow]. pose proof (lookup_lt_Some _ _ _ Hn) as Hlen. split.
  - exists n. by rewrite lookup_app_l.
  - intros i' Hi'. rewrite lookup_app_l by lia. by apply Hlow.
Qed.

Lemma first_named_array_set_null nm idx l m :
  first_named nm idx l → m ≠ idx → first_named nm idx (array_set Undefined l m Null).
Proof.
  intros H Hne. unfold array_set. case_decide.
  - by apply first_named_insert_null.
  - by apply first_named_app.
Qed.

Lemma getOrCreateNodeIndex_first_named nm idx nm' g :
  nm' ≠ nm → first_named nm idx (nodes g) →
  first_named nm idx (nodes (state_of (getOrCreateNodeIndex nm' g))).
Proof.
  intros Hne H. unfold getOrCreateNodeIndex.
  destruct (scan_name nm' (nodes g) 0); [done| |done].
  destruct (scan_null (nodes g) 0) as [k|] eqn:Hnull; simpl.
  - apply scan_null_some in Hnull as (i & -> & Hi & _). simpl.
    rewrite array_set_in_range by (by eapply lookup_lt_Some).
    apply first_named_insert_live; [done|..]; simpl; [|done].
    intros ->. destruct H as [(n & Hn & _) _]. congruence.
  - by apply first_named_app.
Qed.

Lemma register_edge_nodes a b e g : nodes (state_of (register_edge a b e g)) = nodes g.
Proof. unfold register_edge. by repeat case_match. Qed.

Lemma addOrUpdateEdge_nodes i j date g :
  nodes (state_of (addOrUpdateEdge i j date g)) = nodes g.
Proof.
  unfold addOrUpdateEdge. destruct (_pairToEdgeIndex g !! _) as [e|].
  - destruct (edges g !! e) as [[[ea eb] old]|]; [|done]. by case_match.
  - by rewrite register_edge_nodes.
Qed.

Lemma bind_nodes {A B} (o : outcome A) (k : A → Graph → outcome B) (Q : list slot → Prop) :
  Q (nodes (state_of o)) →
  (∀ a g, Q (nodes g) → Q (nodes (state_of (k a g)))) →
  Q (nodes (state_of (bind o k))).
Proof. destruct o; simpl; auto. Qed.

Lemma link_from_nodes ia rest date : ∀ g, nodes (state_of (link_from ia rest date g)) = nodes g.
Proof.
  induction rest as [|ib rest IH]; intros g; simpl; [done|].
  apply (bind_nodes _ _ (λ l, l = nodes g)); [apply addOrUpdateEdge_nodes|].
  intros _ g1 <-. apply IH.
Qed.

Lemma link_all_nodes indices date : ∀ g, nodes (state_of (link_all indices date g)) = nodes g.
Proof.
  induction indices as [|ia rest IH]; intros g; simpl; [done|].
  apply (bind_nodes _ _ (λ l, l = nodes g)); [apply link_from_nodes|].
  intros _ g1 <-. apply IH.
Qed.

Lemma resolve_names_first_named nm idx names : ∀ acc g,
  nm ∉ names → first_named nm idx (nodes g) →
  first_named nm idx (nodes (state_of (resolve_names names acc g))).
Proof.
  induction names as [|nm' names IH]; intros acc g Hnot H; simpl; [done|].
  apply not_elem_of_cons in Hnot as [Hne Hnot].
  apply (bind_nodes _ _ (first_named nm idx)).
  - by apply getOrCreateNodeIndex_first_named.
  - intros i g1 H1. by apply IH.
Qed.

Lemma rebuild_loop_nodes es : ∀ e g, nodes (state_of (rebuild_loop es e g)) = nodes g.
Proof.
  induction es as [|[[a b] d] es IH]; intros e g; simpl; [done|].
  apply (bind_nodes _ _ (λ l, l = nodes g)); [apply register_edge_nodes|].
  intros _ g1 <-. apply IH.
Qed.

Lemma deleteNode_nodes i g :
  nodes (state_of (deleteNode i g))
  = if is_null (node_at g i) then nodes g else array_set Undefined (nodes g) i Null.
Proof.
  unfold deleteNode. destruct (node_at g i); simpl; try done.
  all: destruct (split_incident i (edges g)) as [removed kept].
  all: unfold _rebuildEdgeIndex; simpl.
  all: match goal with |- context [rebuild_loop ?es ?e ?g0] =>
         pose proof (rebuild_loop_nodes es e g0) as Hn;
         destruct (rebuild_loop es e g0); simpl in *; exact Hn end.
Qed.

Lemma integrate_first_named nm idx forces dt ms : ∀ g,
  first_named nm idx (nodes g) →
  first_named nm idx (nodes (state_of (integrate forces dt ms g))).
Proof.
  induction ms as [|m ms IH]; intros g H; simpl; [done|].
  destruct (node_at g m) as [| |nd] eqn:Hn; [done|by apply IH|].
  destruct (forces !! m) as [fm|]; [|done]. apply IH. simpl.
  apply node_at_live in Hn. destruct H as [(n & Hidx & Hnm) Hlow].
  apply first_named_insert_live; [by split; [exists n|]|..]; simpl.
  - intros ->. congruence.
  - intros Hlt. destruct (Hlow m Hlt) as [?|(n' & ? & ?)]; congruence.
Qed.

Lemma run_first_named nm idx o g :
  unrelated nm idx o → first_named nm idx (nodes g) → first_named nm idx (nodes (run o g)).
Proof.
  intros Hun H. unfold run.
  destruct o as [nm'|i|names date|i|i nn|t|i j date|k|i p|i u]; simpl in *.
  - pose proof (getOrCreateNodeIndex_first_named nm idx nm' g Hun H) as H'.
    by destruct (getOrCreateNodeIndex nm' g).
  - done.
  - unfold addFriendGroup. apply (bind_nodes _ _ (first_named nm idx)).
    + by apply resolve_names_first_named.
    + intros idxs g1 H1. by rewrite link_all_nodes.
  - unfold degree. by case_match.
  - destruct Hun as [Hi Hnn]. unfold renameNode.
    destruct (node_at g i) as [| |n] eqn:Hn; simpl; try done.
    apply first_named_insert_live; [done|done|by simpl].
  - unfold update. case_decide; [done|]. destruct (_ ≫= _); [|done].
    by apply integrate_first_named.
  - by rewrite addOrUpdateEdge_nodes.
  - pose proof (deleteNode_nodes k g) as Hn.
    destruct (deleteNode k g); simpl in *; rewrite Hn; case_match; try done;
      by apply first_named_array_set_null.
  - unfold set_pos. destruct (node_at g i) as [| |n] eqn:Hn; simpl; try done.
    apply node_at_live in Hn. destruct H as [(n0 & Hidx & Hnm) Hlow].
    apply first_named_insert_live; [by split; [exists n0|]|..]; simpl.
    + intros ->. congruence.
    + intros Hlt. destruct (Hlow i Hlt) as [?|(n' & ? & ?)]; congruence.
  - unfold set_image. destruct (node_at g i) as [| |n] eqn:Hn; simpl; try done.
    apply node_at_live in Hn. destruct H as [(n0 & Hidx & Hnm) Hlow].
    apply first_named_insert_live; [by split; [exists n0|]|..]; simpl.
    + intros ->. congruence.
    + intros Hlt. destruct (Hlow i Hlt) as [?|(n' & ? & ?)]; congruence.
Qed.

Lemma runs_first_named nm idx ops : ∀ g,
  Forall (unrelated nm idx) ops → first_named nm idx (nodes g) →
  first_named nm idx (nodes (runs ops g)).
Proof.
  induction ops as [|o ops IH]; intros g Hall H; [done|].
  apply Forall_cons in Hall as [Ho Hall]. simpl. apply IH; [done|].
  by apply run_first_named.
Qed.

Lemma getOrCreateNodeIndex_found nm idx g :
  first_named nm idx (nodes g) → getOrCreateNodeIndex nm g = Return idx g.
Proof.
  intros H. unfold getOrCreateNodeIndex. by rewrite (scan_name_complete nm _ 0 idx H).
Qed.

(** C4, as amended.  On a node storage whose slots are all live or free:
    when some live slot holds the name, [getOrCreateNodeIndex] returns the
    lowest such index and changes nothing, and it goes on returning that
    index after any sequence of calls that do not create, rename or delete
    that node; otherwise, when a free slot exists, it creates the node in
    the lowest free slot and returns its index; otherwise it appends a slot
    and returns the previous storage length. *)
Theorem getOrCreateNodeIndex_spec g nm :
  hole_free (nodes g) →
  (∀ idx, lowest (holds_name (nodes g) nm) idx →
     getOrCreateNodeIndex nm g = Return idx g
     ∧ ∀ ops, Forall (unrelated nm idx) ops →
         getOrCreateNodeIndex nm (runs ops g) = Return idx (runs ops g))
  ∧ ((∀ i, ¬ holds_name (nodes g) nm i) →
     (∀ idx, lowest (free_at (nodes g)) idx →
        getOrCreateNodeIndex nm g
        = Return idx
            (set_adj (array_set None (_adj g) idx (Some ∅))
               (set_nodes (<[idx := Live (new_Node nm)]> (nodes g)) g)))
     ∧ ((∀ i, ¬ free_at (nodes g) i) →
        getOrCreateNodeIndex nm g
        = Return (length (nodes g))
            (set_adj (_adj g ++ [Some ∅])
               (set_nodes (nodes g ++ [Live (new_Node nm)]) g)))).
Proof.
  intros Hfree. split.
  - intros idx Hlow%(lowest_first_named _ _ _ Hfree). split.
    + by apply getOrCreateNodeIndex_found.
    + intros ops Hops. apply getOrCreateNodeIndex_found. by apply runs_first_named.
  - intros Hno. unfold getOrCreateNodeIndex.
    rewrite (scan_name_none nm _ 0 Hfree Hno). split.
    + intros idx Hidx. rewrite (scan_null_complete _ 0 idx Hidx). simpl.
      rewrite (array_set_in_range Undefined); [done|]. destruct Hidx as [Hidx _].
      by eapply lookup_lt_Some.
    + intros Hnone. by rewrite (scan_null_absent _ 0 Hnone).
Qed.

(** ** Binary64 arithmetic *)

Lemma float_sub_add_opp (a b : float) : (a - b = a + - b)%float.
Proof.
  apply Prim2SF_inj. rewrite sub_spec, add_spec, opp_spec.
  destruct (Prim2SF a) as [sa|sa| |sa ma ea], (Prim2SF b) as [sb|sb| |sb mb eb];
    simpl; try reflexivity.
  all: try (destruct sb; reflexivity).
  all: try (destruct sa, sb; reflexivity).
Qed.

Lemma float_opp_involutive (a : float) : (- - a = a)%float.
Proof.
  apply Prim2SF_inj. rewrite !opp_spec.
  destruct (Prim2SF a); simpl; by rewrite ?negb_involutive.
Qed.

Lemma vec2_sub_add_neg u v : vec2_sub u v = vec2_add u (vec2_neg v).
Proof. unfold vec2_sub, vec2_add, vec2_neg. simpl. by rewrite !float_sub_add_opp. Qed.

Lemma vec2_neg_involutive v : vec2_neg (vec2_neg v) = v.
Proof. destruct v. unfold vec2_neg, vec2. simpl. by rewrite !float_opp_involutive. Qed.

Lemma land_7_mod_8 j : Nat.land j 7 = j mod 8.
Proof. change 7 with (Nat.ones 3). by rewrite Nat.land_ones. Qed.

(** ** One pair interaction *)

Lemma accumulate_insert op forces k f fk :
  forces !! k = Some fk → accumulate op forces k f = Some (<[k := op fk f]> forces).
Proof. unfold accumulate. by intros ->. Qed.

Lemma pair_interaction_unfold g i j forces pi pj r adji fi fj :
  i ≠ j → slot_pos (node_at g i) = Some pi → slot_pos (node_at g j) = Some pj →
  separation g j pi pj = Some r → adj_at (_adj g) i = Some adji →
  forces !! i = Some fi → forces !! j = Some fj →
  let dir := vec2_div r (vec2_len r) in
  let dist := Math.max (vec2_len r) 1 in
  let fcl := vec2_mul dir (close_magnitude g dist) in
  let fSpring := vec2_mul dir (spring_magnitude g dist) in
  let frep := vec2_mul dir (repel_magnitude g dist) in
  pair_interaction g i j forces
  = Some (if bool_decide (j ∈ adji)
          then <[j := vec2_add (vec2_sub fj fSpring) fcl]>
                 (<[i := vec2_sub (vec2_add fi fSpring) fcl]> forces)
          else <[j := vec2_add (vec2_add fj frep) fcl]>
                 (<[i := vec2_sub (vec2_sub fi frep) fcl]> forces)).
Proof.
  intros Hij Hpi Hpj Hr Hadj Hfi Hfj. simpl.
  pose proof (lookup_lt_Some _ _ _ Hfi) as Hli.
  pose proof (lookup_lt_Some _ _ _ Hfj) as Hlj.
  unfold pair_interaction. rewrite Hpi, Hpj. simpl. rewrite Hr. simpl.
  rewrite Hadj. simpl.
  destruct (bool_decide (j ∈ adji)); simpl.
  - rewrite (accumulate_insert _ _ _ _ _ Hfi). simpl.
    erewrite accumulate_insert by (by rewrite list_lookup_insert_ne). simpl.
    erewrite accumulate_insert
      by (rewrite list_lookup_insert_ne, list_lookup_insert_eq by done; done).
    simpl.
    erewrite accumulate_insert
      by (rewrite list_lookup_insert_ne, list_lookup_insert_eq
            by (rewrite ?length_insert; done); done).
    f_equal. rewrite (list_insert_insert_ne _ i j) by done.
    by rewrite list_insert_insert_eq, list_insert_insert_eq.
  - rewrite (accumulate_insert _ _ _ _ _ Hfi). simpl.
    erewrite accumulate_insert by (by rewrite list_lookup_insert_ne). simpl.
    erewrite accumulate_insert
      by (rewrite list_lookup_insert_ne, list_lookup_insert_eq by done; done).
    simpl.
    erewrite accumulate_insert
      by (rewrite list_lookup_insert_ne, list_lookup_insert_eq
            by (rewrite ?length_insert; done); done).
    f_equal. rewrite (list_insert_insert_ne _ i j) by done.
    by rewrite list_insert_insert_eq, list_insert_insert_eq.
Qed.

Lemma separation_defined g j pi pj :
  reachable g → ∃ r, separation g j pi pj = Some r.
Proof.
  intros Ht%reachable_tunables. unfold tunables in Ht. injection Ht as _ _ _ _ _ Hjit.
  assert (length (jitter g) = 8) as Hlen by (by rewrite Hjit).
  unfold separation. destruct (vec2_eq pi pj); simpl; [|eauto].
  rewrite land_7_mod_8.
  destruct (lookup_lt_is_Some_2 (jitter g) (j mod 8)) as [jit ->]; [|simpl; eauto].
  rewrite Hlen. apply Nat.mod_upper_bound. lia.
Qed.

Lemma pair_ready g i j (forces : list vec) :
  reachable g → is_live g i → is_live g j → length forces = length (nodes g) →
  ∃ ni nj r adji fi fj,
    nodes g !! i = Some (Live ni) ∧ nodes g !! j = Some (Live nj)
    ∧ separation g j (pos ni) (pos nj) = Some r
    ∧ adj_at (_adj g) i = Some adji
    ∧ forces !! i = Some fi ∧ forces !! j = Some fj.
Proof.
  intros Hr [ni Hni] [nj Hnj] Hlen.
  pose proof (reachable_consistent g Hr) as Hc.
  destruct (separation_defined g j (pos ni) (pos nj) Hr) as [r Hsep].
  pose proof (lookup_lt_Some _ _ _ Hni) as Hi.
  pose proof (lookup_lt_Some _ _ _ Hnj) as Hj.
  destruct (cons_adj _ Hc i) as (adji & Hadj & _); [by rewrite (cons_len _ Hc)|].
  destruct (lookup_lt_is_Some_2 forces i) as [fi Hfi]; [lia|].
  destruct (lookup_lt_is_Some_2 forces j) as [fj Hfj]; [lia|].
  exists ni, nj, r, adji, fi, fj. split_and!; try done. by apply adj_at_lookup.
Qed.

Lemma slot_pos_live g i n : nodes g !! i = Some (Live n) → slot_pos (node_at g i) = Some (pos n).
Proof. intros H. unfold node_at. by rewrite H. Qed.

(** C5, as amended.  In the interaction of a pair of live nodes [i < j] with
    separation vector [r] (jitter applied), the direction vector that scales
    all three force terms is [r] divided by its own, unclamped length; the
    clamped distance [max(length(r), 1)] enters the three magnitudes only. *)
Theorem pair_direction_unclamped g i j (forces : list vec) :
  reachable g → i < j → is_live g i → is_live g j →
  length forces = length (nodes g) →
  ∃ ni nj r adji fi fj,
    nodes g !! i = Some (Live ni) ∧ nodes g !! j = Some (Live nj)
    ∧ separation g j (pos ni) (pos nj) = Some r
    ∧ adj_at (_adj g) i = Some adji
    ∧ forces !! i = Some fi ∧ forces !! j = Some fj
    ∧ let dir := vec2_div r (vec2_len r) in
      let dist := Math.max (vec2_len r) 1 in
      let fcl := vec2_mul dir (close_magnitude g dist) in
      let fSpring := vec2_mul dir (spring_magnitude g dist) in
      let frep := vec2_mul dir (repel_magnitude g dist) in
      pair_interaction g i j forces
      = Some (if bool_decide (j ∈ adji)
              then <[j := vec2_add (vec2_sub fj fSpring) fcl]>
                     (<[i := vec2_sub (vec2_add fi fSpring) fcl]> forces)
              else <[j := vec2_add (vec2_add fj frep) fcl]>
                     (<[i := vec2_sub (vec2_sub fi frep) fcl]> forces)).
Proof.
  intros Hr Hij Hi Hj Hlen.
  destruct (pair_ready g i j forces Hr Hi Hj Hlen)
    as (ni & nj & r & adji & fi & fj & Hni & Hnj & Hsep & Hadj & Hfi & Hfj).
  exists ni, nj, r, adji, fi, fj. split_and!; try done.
  apply (pair_interaction_unfold g i j forces (pos ni) (pos nj));
    try done; [lia|by apply slot_pos_live..].
Qed.

Lemma opposite_spring (forces : list vec) i j fi fj fSpring fcl :
  <[j := vec2_add (vec2_sub fj fSpring) fcl]>
    (<[i := vec2_sub (vec2_add fi fSpring) fcl]> forces)
  = <[j := vec2_add (vec2_add fj (vec2_neg fSpring)) (vec2_neg (vec2_neg fcl))]>
      (<[i := vec2_add (vec2_add fi fSpring) (vec2_neg fcl)]> forces).
Proof.
  rewrite (vec2_sub_add_neg fj fSpring), (vec2_sub_add_neg (vec2_add fi fSpring) fcl).
  by rewrite (vec2_neg_involutive fcl).
Qed.

Lemma opposite_repulsion (forces : list vec) i j fi fj frep fcl :
  <[j := vec2_add (vec2_add fj frep) fcl]>
    (<[i := vec2_sub (vec2_sub fi frep) fcl]> forces)
  = <[j := vec2_add (vec2_add fj (vec2_neg (vec2_neg frep))) (vec2_neg (vec2_neg fcl))]>
      (<[i := vec2_add (vec2_add fi (vec2_neg frep)) (vec2_neg fcl)]> forces).
Proof.
  rewrite (vec2_sub_add_neg fi frep), (vec2_sub_add_neg (vec2_add fi (vec2_neg frep)) fcl).
  by rewrite (vec2_neg_involutive frep), (vec2_neg_involutive fcl).
Qed.

(** C7.  In the interaction of a pair of live nodes [i < j], what each force
    term adds to the accumulator of [j] is the exact negation of what it adds
    to the accumulator of [i]: the spring term when [j] is in the adjacency
    set of [i], the long-range repulsion term when it is not, and the
    close-range repulsion term in both cases. *)
Theorem pair_forces_opposite g i j (forces : list vec) :
  reachable g → i < j → is_live g i → is_live g j →
  length forces = length (nodes g) →
  ∃ ni nj r adji fi fj long close,
    nodes g !! i = Some (Live ni) ∧ nodes g !! j = Some (Live nj)
    ∧ separation g j (pos ni) (pos nj) = Some r
    ∧ adj_at (_adj g) i = Some adji
    ∧ forces !! i = Some fi ∧ forces !! j = Some fj
    ∧ let dir := vec2_div r (vec2_len r) in
      let dist := Math.max (vec2_len r) 1 in
      long = (if bool_decide (j ∈ adji)
              then vec2_mul dir (spring_magnitude g dist)
              else vec2_neg (vec2_mul dir (repel_magnitude g dist)))
      ∧ close = vec2_neg (vec2_mul dir (close_magnitude g dist))
      ∧ pair_interaction g i j forces
        = Some (<[j := vec2_add (vec2_add fj (vec2_neg long)) (vec2_neg close)]>
                  (<[i := vec2_add (vec2_add fi long) close]> forces)).
Proof.
  intros Hr Hij Hi Hj Hlen.
  destruct (pair_ready g i j forces Hr Hi Hj Hlen)
    as (ni & nj & r & adji & fi & fj & Hni & Hnj & Hsep & Hadj & Hfi & Hfj).
  exists ni, nj, r, adji, fi, fj,
    (if bool_decide (j ∈ adji)
     then vec2_mul (vec2_div r (vec2_len r)) (spring_magnitude g (Math.max (vec2_len r) 1))
     else vec2_neg (vec2_mul (vec2_div r (vec2_len r))
                      (repel_magnitude g (Math.max (vec2_len r) 1)))),
    (vec2_neg (vec2_mul (vec2_div r (vec2_len r))
                 (close_magnitude g (Math.max (vec2_len r) 1)))).
  cbv zeta. split_and!; try done.
  rewrite (pair_interaction_unfold g i j forces (pos ni) (pos nj) r adji fi fj);
    try done; [|lia|by apply slot_pos_live..].
  cbv zeta. f_equal. destruct (bool_decide (j ∈ adji)).
  - apply opposite_spring.
  - apply opposite_repulsion.
Qed.

Lemma graph_near_reachable : reachable graph_near.
Proof. apply reachable_run; [apply graph_A_B_reachable|exact I]. Qed.

(** C5 as stated fails for two nodes closer than one unit: with [A] at the
    origin and [B] at [(0.5, 0)] the separation has length 0.5, the direction
    used is the unit vector [(1, 0)] and the forces are [(∓3100, 0)], whereas
    [r / max(length(r), 1)] is [(0.5, 0)]. *)
Lemma pair_direction_is_unit_vector :
  reachable graph_near
  ∧ separation graph_near 1 (vec2 0 0) (vec2 0.5 0) = Some (vec2 0.5 0)
  ∧ pair_interaction graph_near 0 1 [vec2 0 0; vec2 0 0]
    = Some [vec2 (-3100) 0; vec2 3100 0]
  ∧ vec2_mul (vec2 1 0) (repel_magnitude graph_near 1 + close_magnitude graph_near 1)
    = vec2 3100 0
  ∧ vec2_div (vec2 0.5 0) (vec2_len (vec2 0.5 0)) = vec2 1 0
  ∧ vec2_div (vec2 0.5 0) (Math.max (vec2_len (vec2 0.5 0)) 1) = vec2 0.5 0
  ∧ vec2 1 0 ≠ vec2 0.5 0.
Proof.
  split; [apply graph_near_reachable|]. split_and!; try (by vm_compute).
Qed.

(** The hypotheses of C5 at work: the pair of the graph of [A] and [B]. *)
Lemma pair_direction_unclamped_witness :
  reachable graph_AB_2000 ∧ 0 < 1 ∧ is_live graph_AB_2000 0 ∧ is_live graph_AB_2000 1
  ∧ length [vec2 0 0; vec2 0 0] = length (nodes graph_AB_2000)
  ∧ ∃ forces', pair_interaction graph_AB_2000 0 1 [vec2 0 0; vec2 0 0] = Some forces'.
Proof.
  assert (Hl0 : is_live graph_AB_2000 0) by (by eexists).
  assert (Hl1 : is_live graph_AB_2000 1) by (by eexists).
  assert (Hlt : 0 < 1) by lia.
  assert (Hlen : length [vec2 0 0; vec2 0 0] = length (nodes graph_AB_2000)) by done.
  destruct (pair_direction_unclamped graph_AB_2000 0 1 [vec2 0 0; vec2 0 0]
              graph_AB_2000_reachable Hlt Hl0 Hl1 Hlen)
    as (ni & nj & r & adji & fi & fj & _ & _ & _ & _ & _ & _ & Hrun).
  split_and!; try done; [apply graph_AB_2000_reachable|]. eexists. exact Hrun.
Defined.

(** The hypotheses of C7 at work: the pair of the graph of [A] and [B],
    from accumulators at zero. *)
Lemma pair_forces_opposite_witness :
  reachable graph_AB_2000 ∧ 0 < 1 ∧ is_live graph_AB_2000 0 ∧ is_live graph_AB_2000 1
  ∧ length [vec2 0 0; vec2 0 0] = length (nodes graph_AB_2000)
  ∧ ∃ long close,
      pair_interaction graph_AB_2000 0 1 [vec2 0 0; vec2 0 0]
      = Some [vec2_add (vec2_add (vec2 0 0) long) close;
              vec2_add (vec2_add (vec2 0 0) (vec2_neg long)) (vec2_neg close)].
Proof.
  assert (Hl0 : is_live graph_AB_2000 0) by (by eexists).
  assert (Hl1 : is_live graph_AB_2000 1) by (by eexists).
  assert (Hlt : 0 < 1) by lia.
  assert (Hlen : length [vec2 0 0; vec2 0 0] = length (nodes graph_AB_2000)) by done.
  destruct (pair_forces_opposite graph_AB_2000 0 1 [vec2 0 0; vec2 0 0]
              graph_AB_2000_reachable Hlt Hl0 Hl1 Hlen)
    as (ni & nj & r & adji & fi & fj & long & close
        & _ & _ & _ & _ & Hfi & Hfj & _ & _ & Hrun).
  simpl in Hfi, Hfj. simplify_eq.
  split_and!; try done; [apply graph_AB_2000_reachable|]. exists long, close. exact Hrun.
Defined.

(** ** The first step of two coincident nodes *)

(** C8.  From the empty graph, [addFriendGroup(["A", "B"], date)] puts both
    nodes at the origin, and one [update(0.016)] returns with finite
    positions for both and a distance between them above zero. *)
Theorem first_update_moves_apart date :
  ∃ a b g' a' b',
    nodes (run (AddFriendGroup ["A"; "B"] date) new_Graph) = [Live a; Live b]
    ∧ pos a = vec2 0 0 ∧ pos b = vec2 0 0
    ∧ vec2_len (vec2_sub (pos b) (pos a)) = 0%float
    ∧ update 0.016 (run (AddFriendGroup ["A"; "B"] date) new_Graph) = Return tt g'
    ∧ nodes g' = [Live a'; Live b']
    ∧ name a' = "A" ∧ name b' = "B"
    ∧ finite_vec (pos a') = true ∧ finite_vec (pos b') = true
    ∧ (0 <? vec2_len (vec2_sub (pos b') (pos a')))%float = true.
Proof.
  eexists _, _, _, _, _. split; [by vm_compute|]. split_and!; try (by vm_compute).
Qed.

(** ** The jitter table *)

(** C9, as amended.  The jitter table has eight entries, each 45 degrees
    from the next (the cross product of consecutive entries equals their dot
    product, which is positive): the four on the axes have length 2.5 and the
    four diagonal ones are [(±1.8, ±1.8)].  The entry used for a coincident
    pair is the one at index [j mod 8], [j] being the higher node index, and
    depends on nothing else. *)
Theorem jitter_table_ring :
  jitter new_Graph
  = [ vec2 2.5 0; vec2 1.8 1.8; vec2 0 2.5; vec2 (-1.8) 1.8;
      vec2 (-2.5) 0; vec2 (-1.8) (-1.8); vec2 0 (-2.5); vec2 1.8 (-1.8) ]
  ∧ length (jitter new_Graph) = 8
  ∧ vec2_len <$> jitter new_Graph
    = [ 2.5; vec2_len (vec2 1.8 1.8); 2.5; vec2_len (vec2 1.8 1.8);
        2.5; vec2_len (vec2 1.8 1.8); 2.5; vec2_len (vec2 1.8 1.8) ]%float
  ∧ Forall (λ uv, cross uv.1 uv.2 = dot uv.1 uv.2 ∧ (0 <? dot uv.1 uv.2)%float = true)
      (zip (jitter new_Graph) (rotate 1 (jitter new_Graph)))
  ∧ (∀ j, Nat.land j 7 = j mod 8)
  ∧ (∀ g j pi pj,
       separation g j pi pj
       = if vec2_eq pi pj
         then jit ← jitter g !! (j mod 8); Some (vec2_sub (vec2_add pj jit) pi)
         else Some (vec2_sub pj pi)).
Proof.
  split_and!; try (by vm_compute).
  - vm_compute. repeat constructor.
  - apply land_7_mod_8.
  - intros g j pi pj. unfold separation. rewrite land_7_mod_8.
    destruct (vec2_eq pi pj); [|done]. by destruct (jitter g !! (j mod 8)).
Qed.

(** C9 as stated fails at the diagonal entries: entry 1 is [(1.8, 1.8)],
    whose length is 2.5455... and whose squared length is 6.48, not the
    [2.5 * 2.5 = 6.25] of a vector [2.5 * (cos 45°, sin 45°)]. *)
Lemma jitter_diagonal_not_on_circle :
  jitter new_Graph !! 1 = Some (vec2 1.8 1.8)
  ∧ vec2_len (vec2 1.8 1.8) = 2.545584412271571%float
  ∧ (vec2_len (vec2 1.8 1.8) =? 2.5)%float = false
  ∧ (1.8 * 1.8 + 1.8 * 1.8 = 6.48)%float
  ∧ (2.5 * 2.5 = 6.25)%float
  ∧ (6.25 <? 1.8 * 1.8 + 1.8 * 1.8)%float = true.
Proof. split_and!; by vm_compute. Qed.

(** ** A name given twice *)

(** C10.  [addFriendGroup(["A", "A"], date)] on the empty graph stores an
    edge from node 0 to itself, puts 0 in its own adjacency set, and
    [degree(0)] counts it. *)
Theorem addFriendGroup_duplicate_name_self_edge date :
  ∃ g, addFriendGroup ["A"; "A"] date new_Graph = Return tt g
       ∧ edges g = [(0, 0, date)]
       ∧ is_live g 0
       ∧ adj_has g 0 0
       ∧ degree 0 g = Return 1 g.
Proof.
  eexists. split; [by vm_compute|]. split; [done|]. split; [by eexists|].
  split; [|by vm_compute].
  exists {[0]}. split; [by vm_compute|set_solver].
Qed.

(** ** Worked examples *)

(** The hypothesis of C1 at work: the graph of [A], [A], [B]. *)
Lemma adjacency_and_index_exact_witness :
  reachable graph_AAB
  ∧ adjacency_reflects_edges graph_AAB ∧ pair_index_reflects_edges graph_AAB.
Proof.
  split; [apply graph_AAB_reachable|].
  apply (adjacency_and_index_exact graph_AAB graph_AAB_reachable).
Defined.

(** The hypotheses of C4 at work: in the graph of [A] and [B] the name [B]
    resolves to index 1, also after [A] is deleted and [C] is created. *)
Lemma getOrCreateNodeIndex_spec_witness :
  hole_free (nodes graph_A_B)
  ∧ lowest (holds_name (nodes graph_A_B) "B") 1
  ∧ getOrCreateNodeIndex "B" graph_A_B = Return 1 graph_A_B
  ∧ getOrCreateNodeIndex "B" (runs [DeleteNode 0; GetOrCreateNodeIndex "C"] graph_A_B)
    = Return 1 (runs [DeleteNode 0; GetOrCreateNodeIndex "C"] graph_A_B).
Proof.
  assert (Hfree : hole_free (nodes graph_A_B)).
  { intros H. apply elem_of_cons in H as [H|H]; [done|].
    apply elem_of_cons in H as [H|H]; [done|]. by apply elem_of_nil in H. }
  assert (Hlow : lowest (holds_name (nodes graph_A_B) "B") 1).
  { split; [by eexists|]. intros i' Hi' (n & Hn & Hnm).
    assert (i' = 0) as -> by lia. by simplify_eq/=. }
  destruct (getOrCreateNodeIndex_spec graph_A_B "B" Hfree) as [Hfound _].
  destruct (Hfound 1 Hlow) as [Hnow Hlater].
  split; [exact Hfree|]. split; [exact Hlow|]. split; [exact Hnow|].
  apply Hlater. repeat constructor; simpl; [lia|done].
Defined.

(** C4 as stated fails on a storage with a hole: after [deleteNode(1)] on
    the empty graph no live slot holds ["A"] and slot 1 is the lowest free
    slot, yet [getOrCreateNodeIndex("A")] raises on reading [.name] of the
    [undefined] slot 0 and creates nothing. *)
Lemma getOrCreateNodeIndex_raises_on_hole :
  reachable graph_hole
  ∧ nodes graph_hole = [Undefined; Null]
  ∧ (∀ i, ¬ holds_name (nodes graph_hole) "A" i)
  ∧ lowest (free_at (nodes graph_hole)) 1
  ∧ getOrCreateNodeIndex "A" graph_hole = Throw graph_hole.
Proof.
  split; [apply reachable_run; [apply reachable_new|exact I]|].
  split; [by vm_compute|]. split; [|split; [|by vm_compute]].
  - intros [|[|i]] (n & Hn & _); by simplify_eq/=.
  - split; [by vm_compute|]. intros i' Hi' Hfree.
    assert (i' = 0) as -> by lia. by simplify_eq/=.
Qed.

(** The hypotheses of C6 at work: renaming a slot that does not exist
    raises and leaves the graph as it was. *)
Lemma failed_call_leaves_state_witness :
  reachable graph_A ∧ in_bounds_call (RenameNode 3 "Z") graph_A
  ∧ ∃ g', call (RenameNode 3 "Z") graph_A = Throw g' ∧ g' = graph_A.
Proof.
  assert (Hr : reachable graph_A) by (apply reachable_run; [apply reachable_new|exact I]).
  split; [exact Hr|]. split; [exact I|]. eexists. split; [reflexivity|].
  apply (failed_call_leaves_state graph_A (RenameNode 3 "Z") _ Hr I). reflexivity.
Defined.

(** C6 as stated fails for [addOrUpdateEdge] with an endpoint outside the
    node storage: on the graph of the single node [A],
    [addOrUpdateEdge(0, 5, date)] raises at [_adj[5].add(0)], after the edge
    was appended, its key registered and 5 added to the adjacency set of 0. *)
Lemma addOrUpdateEdge_out_of_bounds_partial :
  reachable graph_A ∧ length (nodes graph_A) = 1
  ∧ edges graph_A = [] ∧ _pairToEdgeIndex graph_A !! "0:5" = None
  ∧ adj_at (_adj graph_A) 0 = Some ∅
  ∧ ∃ g', addOrUpdateEdge 0 5 year2020 graph_A = Throw g'
          ∧ edges g' = [(0, 5, year2020)]
          ∧ _pairToEdgeIndex g' !! "0:5" = Some 0
          ∧ adj_at (_adj g') 0 = Some {[5]}.
Proof.
  split; [apply reachable_run; [apply reachable_new|exact I]|].
  split_and!; try (by vm_compute).
  eexists. split; [by vm_compute|]. split_and!; by vm_compute.
Qed.

(** * Further properties of the graph store *)

(** ** The stored edges *)

(** X1.  On every reachable state each stored edge has its endpoints in
    canonical order and on live nodes, and no two storage positions hold an
    edge for the same unordered pair. *)
Theorem stored_edges_well_formed g :
  reachable g →
  (∀ e a b d, edges g !! e = Some (a, b, d) → a ≤ b ∧ is_live g a ∧ is_live g b)
  ∧ (∀ e e' a b d a' b' d',
       edges g !! e = Some (a, b, d) → edges g !! e' = Some (a', b', d') →
       (a = a' ∧ b = b') ∨ (a = b' ∧ b = a') → e = e').
Proof.
  intros Hc%reachable_consistent.
  assert (Hlive : ∀ e a b d, edges g !! e = Some (a, b, d) →
                    a ≤ b ∧ is_live g a ∧ is_live g b).
  { intros e a b d He. apply (cons_live _ Hc), pairs_elem. exists d.
    by eapply list_elem_of_lookup_2. }
  split; [exact Hlive|].
  intros e e' a b d a' b' d' He He' Hsame.
  destruct (Hlive _ _ _ _ He) as (Hle & _), (Hlive _ _ _ _ He') as (Hle' & _).
  assert (a = a' ∧ b = b') as [-> ->] by lia.
  eapply NoDup_lookup; [eapply index_exact_NoDup, (cons_index _ Hc)|..];
    apply pairs_lookup; eauto.
Qed.

Lemma graph_AAB_edges : edges graph_AAB = [(0, 0, year2020); (0, 1, year2020)].
Proof. by vm_compute. Qed.

(** The hypothesis of X1 at work: the edges of the graph of [A], [A], [B]. *)
Lemma stored_edges_well_formed_witness :
  reachable graph_AAB
  ∧ (∀ e a b d, edges graph_AAB !! e = Some (a, b, d) →
       a ≤ b ∧ is_live graph_AAB a ∧ is_live graph_AAB b).
Proof.
  split; [apply graph_AAB_reachable|].
  apply (stored_edges_well_formed graph_AAB graph_AAB_reachable).
Defined.

(** X2.  The keys of the pair index never collide: two pairs of indices have
    the same key [a + ":" + b] exactly when they are the same pair. *)
Theorem key_collision_free a b a' b' : key a b = key a' b' ↔ a = a' ∧ b = b'.
Proof. split; [apply key_inj|by intros [-> ->]]. Qed.

(** ** degree *)

Lemma other_end_inj i p q :
  p.1 ≤ p.2 → q.1 ≤ q.2 → incident i p → incident i q →
  other_end i p = other_end i q → p = q.
Proof.
  destruct p as [a b], q as [a' b']. unfold incident, other_end. simpl.
  intros Hp Hq Hip Hiq. repeat case_decide; intros; simplify_eq; f_equal; lia.
Qed.

Lemma other_end_linked i ps j :
  linked ps i j ↔ ∃ p, p ∈ filter (incident i) ps ∧ other_end i p = j.
Proof.
  unfold linked. setoid_rewrite list_elem_of_filter. split.
  - intros [H|H].
    + exists (i, j). unfold incident, other_end. simpl. rewrite decide_True by done. auto.
    + exists (j, i). unfold incident, other_end. simpl. split; [auto|].
      case_decide; congruence.
  - intros ([a b] & [Hinc Hin] & Hother). unfold incident, other_end in *. simpl in *.
    case_decide; simplify_eq; [by left|]. right. destruct Hinc; by simplify_eq.
Qed.

Lemma degree_incident_count g i :
  consistent g → i < length (nodes g) →
  degree i g = Return (length (filter (incident i) (pairs (edges g)))) g.
Proof.
  intros Hc Hi.
  destruct (cons_adj _ Hc i) as (s & Hs & Hmem); [by rewrite (cons_len _ Hc)|].
  unfold degree. rewrite (proj2 (adj_at_lookup _ _ _) Hs). f_equal.
  set (l := other_end i <$> filter (incident i) (pairs (edges g))).
  assert (Hnd : NoDup l).
  { apply NoDup_fmap_2_strong.
    - intros p q [Hp Hpin]%list_elem_of_filter [Hq Hqin]%list_elem_of_filter Heq.
      destruct p as [a b], q as [a' b'].
      apply (other_end_inj i); try done; simpl.
      + by apply (cons_live _ Hc) in Hpin as (? & _).
      + by apply (cons_live _ Hc) in Hqin as (? & _).
    - apply NoDup_filter. eapply index_exact_NoDup, (cons_index _ Hc). }
  assert (s = list_to_set l) as ->.
  { apply set_eq. intros j. rewrite Hmem, elem_of_list_to_set, other_end_linked.
    unfold l. rewrite list_elem_of_fmap. naive_solver. }
  rewrite size_list_to_set by done. unfold l. by rewrite length_fmap.
Qed.

(** X3.  On a reachable state, [degree(i)] of an index within the node
    storage is the number of stored edges with an endpoint [i] (an edge from
    [i] to itself counting once). *)
Theorem degree_counts_incident_edges g i :
  reachable g → i < length (nodes g) →
  degree i g = Return (length (filter (incident i) (pairs (edges g)))) g.
Proof. intros Hc%reachable_consistent Hi. by apply degree_incident_count. Qed.

(** The hypotheses of X3 at work: node 0 of the graph of [A], [A], [B]. *)
Lemma degree_counts_incident_edges_witness :
  reachable graph_AAB ∧ 0 < length (nodes graph_AAB)
  ∧ degree 0 graph_AAB
    = Return (length (filter (incident 0) (pairs (edges graph_AAB)))) graph_AAB.
Proof.
  assert (Hlen : 0 < length (nodes graph_AAB)) by (vm_compute; lia).
  split; [apply graph_AAB_reachable|]. split; [exact Hlen|].
  apply (degree_counts_incident_edges graph_AAB 0 graph_AAB_reachable Hlen).
Defined.

(** ** _rebuildEdgeIndex *)

Lemma index_exact_unique ps (m m' : gmap string nat) :
  index_exact ps m → index_exact ps m' → m = m'.
Proof.
  intros H H'. apply map_eq. intros k. apply option_eq. intros e.
  by rewrite (H k e), (H' k e).
Qed.

Lemma adj_exact_unique ps (adj adj' : list (option (gset nat))) :
  length adj = length adj' → adj_exact ps adj → adj_exact ps adj' → adj = adj'.
Proof.
  intros Hlen H H'. apply list_eq. intros i.
  destruct (decide (i < length adj)) as [Hi|Hi].
  - destruct (H i Hi) as (s & -> & Hs).
    destruct (H' i) as (s' & -> & Hs'); [lia|].
    do 2 f_equal. apply set_eq. intros j. by rewrite Hs, Hs'.
  - rewrite !lookup_ge_None_2; [done|lia..].
Qed.

(** X4.  On every reachable state the pair index and the adjacency sets are
    what [_rebuildEdgeIndex] computes from the edge list: rebuilding returns
    and changes nothing. *)
Theorem rebuildEdgeIndex_changes_nothing g :
  reachable g → _rebuildEdgeIndex g = Return tt g.
Proof.
  intros Hc%reachable_consistent. unfold _rebuildEdgeIndex. simpl.
  destruct (rebuild_loop_ok (edges g) []
              (set_adj (replicate (length (_adj g)) (Some ∅))
                 (set_pairToEdgeIndex ∅ g)))
    as (m & adj & Hloop & Hlen & Hm & Hadj); simpl.
  - apply index_exact_nil.
  - apply adj_exact_nil.
  - eapply index_exact_NoDup, (cons_index _ Hc).
  - intros a b Hab. rewrite length_replicate, (cons_len _ Hc).
    apply (cons_live _ Hc) in Hab as (_ & Ha%is_live_lt & Hb%is_live_lt). done.
  - simpl in *. rewrite Hloop. f_equal.
    rewrite length_replicate in Hlen.
    rewrite (index_exact_unique _ _ _ Hm (cons_index _ Hc)).
    rewrite (adj_exact_unique _ _ _ Hlen Hadj (cons_adj _ Hc)).
    by destruct g.
Qed.

(** The hypothesis of X4 at work. *)
Lemma rebuildEdgeIndex_changes_nothing_witness :
  reachable graph_AAB ∧ _rebuildEdgeIndex graph_AAB = Return tt graph_AAB.
Proof.
  split; [apply graph_AAB_reachable|].
  apply (rebuildEdgeIndex_changes_nothing graph_AAB graph_AAB_reachable).
Defined.

(** ** deleteNode and isFree *)

(** X5.  Whatever the index, once [deleteNode(i)] has returned the slot is
    free, and deleting it again returns the empty list and changes
    nothing. *)
Theorem deleteNode_twice i g removed g' :
  deleteNode i g = Return removed g' →
  isFree i g' = true ∧ deleteNode i g' = Return [] g'.
Proof.
  intros Hdel. pose proof (deleteNode_nodes i g) as Hn. rewrite Hdel in Hn. simpl in Hn.
  assert (node_at g' i = Null) as Hnull.
  { unfold node_at. rewrite Hn. destruct (is_null (node_at g i)) eqn:Hslot.
    - unfold node_at in Hslot. by destruct (nodes g !! i) as [[]|].
    - by rewrite array_set_lookup_eq. }
  split; [unfold isFree; by rewrite Hnull|by apply deleteNode_free].
Qed.

(** The hypothesis of X5 at work: deleting past the end of the storage. *)
Lemma deleteNode_twice_witness :
  ∃ removed g', deleteNode 4 graph_AAB = Return removed g'
                ∧ isFree 4 g' = true ∧ deleteNode 4 g' = Return [] g'.
Proof.
  eexists _, _. split; [by vm_compute|].
  eapply (deleteNode_twice 4 graph_AAB). by vm_compute.
Defined.

(** ** Reuse of a deleted slot *)

Lemma hole_free_live g i : hole_free (nodes g) → i < length (nodes g) →
  node_at g i = Null ∨ is_live g i.
Proof.
  intros Hfree Hi. destruct (lookup_lt_is_Some_2 _ _ Hi) as [s Hs].
  unfold node_at, is_live. rewrite Hs. destruct s as [| |n]; simpl; eauto.
  destruct Hfree. by eapply list_elem_of_lookup_2.
Qed.

(** X6.  On a reachable state whose slots are all live or free, deleting the
    live node [i] and then asking for a name that no other node holds gives
    index [i] again when no lower slot is free: the storage does not grow,
    and the new node starts with degree 0 and no stored edge. *)
Theorem deleted_slot_is_reused i nm g :
  reachable g → hole_free (nodes g) → is_live g i →
  (∀ k, k ≠ i → ¬ holds_name (nodes g) nm k) →
  (∀ k, k < i → ¬ free_at (nodes g) k) →
  ∃ removed g1 g2,
    deleteNode i g = Return removed g1
    ∧ getOrCreateNodeIndex nm g1 = Return i g2
    ∧ nodes g2 = <[i := Live (new_Node nm)]> (nodes g)
    ∧ degree i g2 = Return 0 g2
    ∧ (∀ a b d, (a, b, d) ∈ edges g2 → a ≠ i ∧ b ≠ i).
Proof.
  intros Hc%reachable_consistent Hfree Hlive Hname Hlow.
  pose proof (is_live_lt _ _ Hlive) as Hi.
  assert (node_at g i ≠ Null) as Hnn.
  { destruct Hlive as [n Hn]. unfold node_at. by rewrite Hn. }
  destruct (deleteNode_consistent i g Hc Hnn) as (g1 & Hdel & Hc1 & Hn1 & He1).
  rewrite array_set_in_range in Hn1 by done.
  assert (Hfree1 : hole_free (nodes g1)) by (rewrite Hn1; by apply hole_free_insert).
  assert (Hno : ∀ k, ¬ holds_name (nodes g1) nm k).
  { intros k (n & Hk & Hnm). rewrite Hn1 in Hk. destruct (decide (k = i)) as [->|Hne].
    - rewrite list_lookup_insert_eq in Hk by done. done.
    - rewrite list_lookup_insert_ne in Hk by done. apply (Hname k Hne). by exists n. }
  assert (Hlowest : lowest (free_at (nodes g1)) i).
  { unfold free_at. rewrite Hn1. split; [by apply list_lookup_insert_eq|].
    intros k Hk. rewrite list_lookup_insert_ne by lia. by apply Hlow. }
  eexists _, g1, _. split; [exact Hdel|].
  unfold getOrCreateNodeIndex.
  rewrite (scan_name_none nm _ 0 Hfree1 Hno), (scan_null_complete _ 0 i Hlowest). simpl.
  split; [done|]. simpl. split_and!.
  - rewrite array_set_in_range by (by rewrite Hn1, length_insert).
    by rewrite Hn1, list_insert_insert_eq.
  - unfold degree, adj_at. simpl. by rewrite array_set_lookup_eq.
  - intros a b d Hin. rewrite He1 in Hin. apply list_elem_of_filter in Hin as [Hni _].
    unfold incident in Hni. simpl in Hni. split; intros ->; apply Hni; auto.
Qed.

(** The hypotheses of X6 at work: [A] is deleted from the graph of [A] and
    [B], and [C] takes index 0. *)
Lemma deleted_slot_is_reused_witness :
  reachable graph_A_B ∧ hole_free (nodes graph_A_B) ∧ is_live graph_A_B 0
  ∧ ∃ removed g1 g2,
      deleteNode 0 graph_A_B = Return removed g1
      ∧ getOrCreateNodeIndex "C" g1 = Return 0 g2
      ∧ nodes g2 = <[0 := Live (new_Node "C")]> (nodes graph_A_B).
Proof.
  assert (Hfree : hole_free (nodes graph_A_B)).
  { intros H. apply elem_of_cons in H as [H|H]; [done|].
    apply elem_of_cons in H as [H|H]; [done|]. by apply elem_of_nil in H. }
  assert (Hlive : is_live graph_A_B 0) by (by eexists).
  assert (Hname : ∀ k, k ≠ 0 → ¬ holds_name (nodes graph_A_B) "C" k).
  { intros [|[|k]] Hk (n & Hn & Hnm); by simplify_eq/=. }
  assert (Hlow : ∀ k, k < 0 → ¬ free_at (nodes graph_A_B) k) by (intros; lia).
  destruct (deleted_slot_is_reused 0 "C" graph_A_B graph_A_B_reachable
              Hfree Hlive Hname Hlow)
    as (removed & g1 & g2 & Hdel & Hget & Hnodes & _).
  split; [apply graph_A_B_reachable|]. split; [exact Hfree|]. split; [exact Hlive|].
  by exists removed, g1, g2.
Defined.

(** ** renameNode *)

(** X7.  After [renameNode(i, newName)] on a live node of a storage whose
    slots are all live or free, the edges and adjacency sets are as before;
    [getOrCreateNodeIndex(newName)] returns [i] when no lower slot holds that
    name, and the lower index when one does (the renamed node is then found
    under neither name). *)
Theorem renameNode_then_lookup i newName g :
  hole_free (nodes g) → is_live g i →
  ∃ g', renameNode i newName g = Return tt g'
    ∧ edges g' = edges g ∧ _pairToEdgeIndex g' = _pairToEdgeIndex g ∧ _adj g' = _adj g
    ∧ holds_name (nodes g') newName i
    ∧ ((∀ k, k < i → ¬ holds_name (nodes g) newName k) →
         getOrCreateNodeIndex newName g' = Return i g')
    ∧ (∀ k, k < i → lowest (holds_name (nodes g) newName) k →
         getOrCreateNodeIndex newName g' = Return k g').
Proof.
  intros Hfree [n Hn]. pose proof (lookup_lt_Some _ _ _ Hn) as Hi.
  unfold renameNode, node_at. rewrite Hn. simpl. eexists. split; [done|]. simpl.
  split_and!; try done.
  - eexists. by rewrite list_lookup_insert_eq.
  - intros Hnone. apply getOrCreateNodeIndex_found. simpl. split.
    + eexists. by rewrite list_lookup_insert_eq.
    + intros k Hk. rewrite list_lookup_insert_ne by lia.
      destruct (lookup_lt_is_Some_2 (nodes g) k) as [s Hs]; [lia|]. rewrite Hs.
      destruct s as [| |n'].
      * destruct Hfree. by eapply list_elem_of_lookup_2.
      * by left.
      * right. exists n'. split; [done|]. intros Hnm. apply (Hnone k Hk). by exists n'.
  - intros k Hk Hlow%(lowest_first_named _ _ _ Hfree).
    apply getOrCreateNodeIndex_found. simpl.
    apply first_named_insert_live; [done|lia..].
Qed.

(** The hypotheses of X7 at work: [B] is renamed to [A] in the graph of [A]
    and [B], and the name [A] still resolves to index 0. *)
Lemma renameNode_then_lookup_witness :
  hole_free (nodes graph_A_B) ∧ is_live graph_A_B 1
  ∧ ∃ g', renameNode 1 "A" graph_A_B = Return tt g'
          ∧ holds_name (nodes g') "A" 1
          ∧ getOrCreateNodeIndex "A" g' = Return 0 g'.
Proof.
  assert (Hfree : hole_free (nodes graph_A_B)).
  { intros H. apply elem_of_cons in H as [H|H]; [done|].
    apply elem_of_cons in H as [H|H]; [done|]. by apply elem_of_nil in H. }
  assert (Hlive : is_live graph_A_B 1) by (by eexists).
  destruct (renameNode_then_lookup 1 "A" graph_A_B Hfree Hlive)
    as (g' & Hren & _ & _ & _ & Hholds & _ & Hlower).
  split; [exact Hfree|]. split; [exact Hlive|]. exists g'.
  split; [exact Hren|]. split; [exact Hholds|]. apply Hlower; [lia|].
  split; [by eexists|]. intros k Hk. lia.
Defined.

(** ** Names stay unique *)

Lemma unique_names_insert_same l m nd nd' :
  l !! m = Some (Live nd) → name nd' = name nd →
  unique_names l → unique_names (<[m := Live nd']> l).
Proof.
  intros Hm Hname Hu i j n n' Hi Hj Hnn.
  pose proof (lookup_lt_Some _ _ _ Hm) as Hlt.
  destruct (decide (i = m)) as [->|Hi'], (decide (j = m)) as [->|Hj']; [done|..].
  - rewrite list_lookup_insert_eq in Hi by done.
    rewrite list_lookup_insert_ne in Hj by done. simplify_eq.
    apply (Hu m j nd n' Hm Hj). congruence.
  - rewrite list_lookup_insert_ne in Hi by done.
    rewrite list_lookup_insert_eq in Hj by done. simplify_eq.
    apply (Hu i m n nd Hi Hm). congruence.
  - rewrite list_lookup_insert_ne in Hi, Hj by done. by eapply Hu.
Qed.

Lemma unique_names_insert_fresh l m nd :
  (∀ k n, l !! k = Some (Live n) → name n ≠ name nd) →
  unique_names l → unique_names (<[m := Live nd]> l).
Proof.
  intros Hfresh Hu i j n n' Hi Hj Hnn.
  destruct (decide (m < length l)) as [Hlt|Hge];
    [|rewrite list_insert_ge in Hi, Hj by lia; by eapply Hu].
  destruct (decide (i = m)) as [->|Hi'], (decide (j = m)) as [->|Hj']; [done|..].
  - rewrite list_lookup_insert_eq in Hi by done.
    rewrite list_lookup_insert_ne in Hj by done. simplify_eq.
    destruct (Hfresh j n' Hj). congruence.
  - rewrite list_lookup_insert_ne in Hi by done.
    rewrite list_lookup_insert_eq in Hj by done. simplify_eq.
    destruct (Hfresh i n Hi). congruence.
  - rewrite list_lookup_insert_ne in Hi, Hj by done. by eapply Hu.
Qed.

Lemma unique_names_app_fresh l nd :
  (∀ k n, l !! k = Some (Live n) → name n ≠ name nd) →
  unique_names l → unique_names (l ++ [Live nd]).
Proof.
  intros Hfresh Hu i j n n' Hi Hj Hnn.
  apply lookup_app_Some in Hi as [Hi|[Hil Hi]], Hj as [Hj|[Hjl Hj]].
  - by eapply Hu.
  - apply list_lookup_singleton_Some in Hj as [_ [= <-]]. destruct (Hfresh i n Hi). done.
  - apply list_lookup_singleton_Some in Hi as [_ [= <-]].
    destruct (Hfresh j n' Hj). done.
  - apply list_lookup_singleton_Some in Hi as [? _].
    apply list_lookup_singleton_Some in Hj as [? _]. lia.
Qed.

Lemma unique_names_array_set_null l m :
  unique_names l → unique_names (array_set Undefined l m Null).
Proof.
  intros Hu i j n n' Hi Hj Hnn.
  assert (Hold : ∀ k nk, array_set Undefined l m Null !! k = Some (Live nk) →
                         l !! k = Some (Live nk)).
  { intros k nk. unfold array_set. case_decide.
    - destruct (decide (k = m)) as [->|Hne].
      + by rewrite list_lookup_insert_eq.
      + by rewrite list_lookup_insert_ne.
    - intros [Hk|[_ Hk]]%lookup_app_Some; [done|].
      apply lookup_app_Some in Hk as [Hk|[_ Hk]].
      + by apply lookup_replicate in Hk as [? _].
      + by apply list_lookup_singleton_Some in Hk as [_ ?]. }
  apply (Hu i j n n'); auto.
Qed.

Lemma getOrCreateNodeIndex_unique_names nm g :
  unique_names (nodes g) → unique_names (nodes (state_of (getOrCreateNodeIndex nm g))).
Proof.
  intros Hu. unfold getOrCreateNodeIndex.
  destruct (scan_name nm (nodes g) 0) eqn:Hscan; [done| |done].
  assert (Hfresh : ∀ k n, nodes g !! k = Some (Live n) → name n ≠ name (new_Node nm)).
  { intros k n Hk. destruct (scan_name_not_found _ _ _ Hscan _ _ Hk) as [?|(n' & ? & ?)];
      by simplify_eq. }
  destruct (scan_null (nodes g) 0) as [k|] eqn:Hnull; simpl.
  - apply scan_null_some in Hnull as (i & -> & Hi & _). simpl.
    rewrite array_set_in_range by (by eapply lookup_lt_Some).
    by apply unique_names_insert_fresh.
  - by apply unique_names_app_fresh.
Qed.

Lemma resolve_names_unique_names names : ∀ acc g,
  unique_names (nodes g) → unique_names (nodes (state_of (resolve_names names acc g))).
Proof.
  induction names as [|nm names IH]; intros acc g Hu; simpl; [done|].
  apply (bind_nodes _ _ unique_names); [by apply getOrCreateNodeIndex_unique_names|].
  intros idx g1 H1. by apply IH.
Qed.

Lemma integrate_unique_names forces dt ms : ∀ g,
  unique_names (nodes g) → unique_names (nodes (state_of (integrate forces dt ms g))).
Proof.
  induction ms as [|m ms IH]; intros g Hu; simpl; [done|].
  destruct (node_at g m) as [| |nd] eqn:Hn; [done|by apply IH|].
  destruct (forces !! m) as [fm|]; [|done]. apply IH. simpl.
  apply node_at_live in Hn. by eapply unique_names_insert_same.
Qed.

(** X8.  Every operation other than [renameNode] keeps the names of the live
    nodes distinct. *)
Theorem names_stay_unique o g :
  renames o = false → unique_names (nodes g) → unique_names (nodes (run o g)).
Proof.
  intros Hren Hu. unfold run.
  destruct o as [nm|i|names date|i|i nn|t|i j date|k|i p|i u]; simpl in *; try done.
  - pose proof (getOrCreateNodeIndex_unique_names nm g Hu) as H'.
    by destruct (getOrCreateNodeIndex nm g).
  - unfold addFriendGroup. apply (bind_nodes _ _ unique_names).
    + by apply resolve_names_unique_names.
    + intros idxs g1 H1. by rewrite link_all_nodes.
  - unfold degree. by case_match.
  - unfold update. case_decide; [done|]. destruct (_ ≫= _); [|done].
    by apply integrate_unique_names.
  - by rewrite addOrUpdateEdge_nodes.
  - pose proof (deleteNode_nodes k g) as Hn.
    destruct (deleteNode k g); simpl in *; rewrite Hn; case_match; try done;
      by apply unique_names_array_set_null.
  - unfold set_pos. destruct (node_at g i) as [| |n] eqn:Hn; simpl; try done.
    apply node_at_live in Hn. by eapply unique_names_insert_same.
  - unfold set_image. destruct (node_at g i) as [| |n] eqn:Hn; simpl; try done.
    apply node_at_live in Hn. by eapply unique_names_insert_same.
Qed.

(** The hypotheses of X8 at work: a friend group added to the graph of [A]
    and [B]. *)
Lemma names_stay_unique_witness :
  unique_names (nodes graph_A_B)
  ∧ unique_names (nodes (run (AddFriendGroup ["B"; "C"; "A"] year2015) graph_A_B)).
Proof.
  assert (Hu : unique_names (nodes graph_A_B)).
  { intros [|[|i]] [|[|j]] n m Hi Hj Hnm; by simplify_eq/=. }
  split; [exact Hu|].
  apply (names_stay_unique (AddFriendGroup ["B"; "C"; "A"] year2015) graph_A_B eq_refl Hu).
Defined.

(** ** update *)

Section for_each_total.
Context {S : Type} (body : nat → S → option S).

Lemma for_each_total (Q : S → Prop) idxs :
  (∀ k s, k ∈ idxs → Q s → ∃ s', body k s = Some s' ∧ Q s') →
  ∀ s, Q s → ∃ s', for_each body idxs s = Some s' ∧ Q s'.
Proof.
  induction idxs as [|k ks IH]; intros Hbody s Hs; simpl; [eauto|].
  destruct (Hbody k s) as (s1 & -> & Hs1); [set_solver|done|]. simpl.
  apply IH; [|done]. intros k' s' Hk'. apply Hbody. set_solver.
Qed.

Lemma for_each_skip idxs s :
  (∀ k, k ∈ idxs → body k s = Some s) → for_each body idxs s = Some s.
Proof.
  induction idxs as [|k ks IH]; intros Hbody; simpl; [done|].
  rewrite Hbody by set_solver. simpl. apply IH. intros k' Hk'. apply Hbody. set_solver.
Qed.

Lemma for_each_single idxs m s s' :
  NoDup idxs → m ∈ idxs →
  (∀ k s, k ∈ idxs → k ≠ m → body k s = Some s) →
  body m s = Some s' → for_each body idxs s = Some s'.
Proof.
  induction idxs as [|k ks IH]; intros Hnd Hm Hskip Hbody; simpl; [set_solver|].
  apply NoDup_cons in Hnd as [Hk Hnd].
  destruct (decide (k = m)) as [->|Hne].
  - rewrite Hbody. simpl. apply for_each_skip. intros k' Hk'.
    apply Hskip; [set_solver|]. intros ->. done.
  - rewrite Hskip by (done || set_solver). simpl. apply IH; [done|set_solver| |done].
    intros k' s0 Hk' Hne'. apply Hskip; [set_solver|done].
Qed.
End for_each_total.

Lemma not_null_live g k :
  hole_free (nodes g) → k < length (nodes g) → is_null (node_at g k) = false → is_live g k.
Proof.
  intros Hfree Hk Hnull. destruct (hole_free_live g k Hfree Hk) as [Hn|Hl]; [|done].
  by rewrite Hn in Hnull.
Qed.

Lemma pair_loop_returns g (forces : list vec) :
  reachable g → hole_free (nodes g) → length forces = length (nodes g) →
  ∃ forces', pair_loop g (length (nodes g)) forces = Some forces'
             ∧ length forces' = length (nodes g).
Proof.
  intros Hr Hfree Hlen. unfold pair_loop.
  apply (for_each_total _ (λ F : list vec, length F = length (nodes g))); [|done].
  intros i F Hi%elem_of_seq HF. cbv beta.
  destruct (is_null (node_at g i)) eqn:Hni; [eauto|].
  assert (Hli : is_live g i) by (apply not_null_live; [done|lia|done]).
  unfold inner_loop.
  apply (for_each_total _ (λ F : list vec, length F = length (nodes g))); [|done].
  intros j F' Hj%elem_of_seq HF'. cbv beta.
  destruct (is_null (node_at g j)) eqn:Hnj; [eauto|].
  assert (Hlj : is_live g j) by (apply not_null_live; [done|lia|done]).
  destruct (pair_ready g i j F' Hr Hli Hlj HF')
    as (ni & nj & r & adji & fi & fj & Hi' & Hj' & Hsep & Hadj & Hfi & Hfj).
  assert (Hne : i ≠ j) by lia.
  pose proof (pair_interaction_unfold g i j F' _ _ r adji fi fj Hne
                (slot_pos_live _ _ _ Hi') (slot_pos_live _ _ _ Hj') Hsep Hadj Hfi Hfj) as Hpi.
  cbv zeta in Hpi. eexists. split; [exact Hpi|].
  case_bool_decide; by rewrite !length_insert.
Qed.

Lemma center_loop_returns g (forces : list vec) :
  hole_free (nodes g) → length forces = length (nodes g) →
  ∃ forces', center_loop g (length (nodes g)) forces = Some forces'
             ∧ length forces' = length (nodes g).
Proof.
  intros Hfree Hlen. unfold center_loop.
  apply (for_each_total _ (λ F : list vec, length F = length (nodes g))); [|done].
  intros k F Hk%elem_of_seq HF. cbv beta.
  destruct (is_null (node_at g k)) eqn:Hnk; [eauto|].
  destruct (not_null_live g k) as [n Hn]; [done|lia|done|].
  rewrite (slot_pos_live _ _ _ Hn). simpl.
  destruct (lookup_lt_is_Some_2 F k) as [fk Hfk]; [lia|].
  rewrite (accumulate_insert _ _ _ _ _ Hfk). eexists. split; [done|].
  by rewrite length_insert.
Qed.

Lemma integrate_spec forces dt ms : ∀ g g',
  NoDup ms → integrate forces dt ms g = Return tt g' →
  (∀ m, m ∉ ms → nodes g' !! m = nodes g !! m)
  ∧ (∀ m, nodes g !! m = Some Null → nodes g' !! m = Some Null)
  ∧ (∀ m n, m ∈ ms → nodes g !! m = Some (Live n) →
       ∃ fm, forces !! m = Some fm ∧ nodes g' !! m = Some (Live (moved n fm dt))).
Proof.
  induction ms as [|m0 ms IH]; intros g g' Hnd; simpl.
  - intros [= <-]. split_and!; [done..|]. intros m n Hm. by apply elem_of_nil in Hm.
  - apply NoDup_cons in Hnd as [Hm0 Hnd].
    destruct (node_at g m0) as [| |nd] eqn:Hn0; [done| |].
    + intros (Hout & Hnull & Hlive)%IH; [|done]. split_and!; [|done|].
      * intros m Hm. apply Hout. set_solver.
      * intros m n [->|Hm]%elem_of_cons Hn; [|by apply Hlive].
        apply node_at_null in Hn0. congruence.
    + destruct (forces !! m0) as [fm|] eqn:Hfm; [|done].
      apply node_at_live in Hn0. pose proof (lookup_lt_Some _ _ _ Hn0) as Hlt.
      intros (Hout & Hnull & Hlive)%IH; [|done]. simpl in *. split_and!.
      * intros m Hm. apply not_elem_of_cons in Hm as [Hne Hm].
        rewrite Hout by done. by rewrite list_lookup_insert_ne.
      * intros m Hm. apply Hnull. rewrite list_lookup_insert_ne; [done|]. congruence.
      * intros m n [->|Hm]%elem_of_cons Hn.
        -- exists fm. split; [done|]. rewrite Hout by done.
           rewrite list_lookup_insert_eq by done. by simplify_eq.
        -- apply Hlive; [done|]. rewrite list_lookup_insert_ne; [done|]. by intros ->.
Qed.

Lemma update_tunables t g : tunables (state_of (update t g)) = tunables g.
Proof.
  unfold update. case_decide; [done|]. destruct (_ ≫= _); [|done].
  apply integrate_tunables.
Qed.

Lemma update_with_forces t g forces :
  hole_free (nodes g) →
  pair_loop g (length (nodes g)) (replicate (length (nodes g)) (vec2 0 0))
    ≫= center_loop g (length (nodes g)) = Some forces →
  ∃ g', update t g = Return tt g'
    ∧ same_links g g' ∧ tunables g' = tunables g
    ∧ (∀ m, nodes g !! m = Some Null → nodes g' !! m = Some Null)
    ∧ (∀ m n, nodes g !! m = Some (Live n) →
         ∃ fm, forces !! m = Some fm ∧ nodes g' !! m = Some (Live (moved n fm t))).
Proof.
  intros Hfree Hloops.
  assert (Hlen : length forces = length (nodes g)).
  { apply bind_Some in Hloops as (F1 & H1%pair_loop_length & H2%center_loop_length).
    rewrite H2, H1. apply length_replicate. }
  pose proof (update_same_links t g) as Hsame. pose proof (update_tunables t g) as Htun.
  unfold update in *. case_decide as Hn.
  - exists g. split_and!; try done.
    intros m n Hm%lookup_lt_Some. lia.
  - rewrite Hloops in *.
    destruct (integrate_returns forces t (seq 0 (length (nodes g))) g) as [g' Hint].
    { intros m Hm%elem_of_seq. split; [|lia]. intros Hu.
      destruct (hole_free_live g m Hfree) as [Hnull|[n Hl]]; [lia|congruence|].
      apply node_at_live in Hl. congruence. }
    rewrite Hint in *. exists g'. split_and!; try done.
    + by apply (integrate_spec _ _ _ _ _ (NoDup_seq _ _) Hint).
    + intros m n Hm. apply (integrate_spec _ _ _ _ _ (NoDup_seq _ _) Hint); [|done].
      apply elem_of_seq. apply lookup_lt_Some in Hm. lia.
Qed.

(** X9.  On a reachable state whose slots are all live or free, [update(t)]
    returns.  It leaves the edges, the pair index, the adjacency sets and the
    tunables as they are, keeps free slots free, and changes of a live node
    only the position, by one Euler step [pos + forces[m] * t] with the
    forces accumulated by the pair loop and the centering loop. *)
Theorem update_moves_only_positions t g :
  reachable g → hole_free (nodes g) →
  ∃ forces g',
    pair_loop g (length (nodes g)) (replicate (length (nodes g)) (vec2 0 0))
      ≫= center_loop g (length (nodes g)) = Some forces
    ∧ update t g = Return tt g'
    ∧ edges g' = edges g ∧ _pairToEdgeIndex g' = _pairToEdgeIndex g ∧ _adj g' = _adj g
    ∧ tunables g' = tunables g
    ∧ length (nodes g') = length (nodes g)
    ∧ (∀ m, nodes g !! m = Some Null → nodes g' !! m = Some Null)
    ∧ (∀ m n, nodes g !! m = Some (Live n) →
         ∃ fm, forces !! m = Some fm ∧ nodes g' !! m = Some (Live (moved n fm t))).
Proof.
  intros Hr Hfree.
  destruct (pair_loop_returns g (replicate (length (nodes g)) (vec2 0 0)) Hr Hfree)
    as (F1 & HF1 & Hlen1); [apply length_replicate|].
  destruct (center_loop_returns g F1 Hfree Hlen1) as (F2 & HF2 & Hlen2).
  assert (Hloops : pair_loop g (length (nodes g)) (replicate (length (nodes g)) (vec2 0 0))
                     ≫= center_loop g (length (nodes g)) = Some F2).
  { rewrite HF1. exact HF2. }
  destruct (update_with_forces t g F2 Hfree Hloops)
    as (g' & Hup & (He & Hp & Ha & Hl & _) & Htun & Hnull & Hlive).
  exists F2, g'. split_and!; done.
Qed.

(** The hypotheses of X9 at work on the graph of [A] and [B]. *)
Lemma update_moves_only_positions_witness :
  reachable graph_A_B ∧ hole_free (nodes graph_A_B)
  ∧ ∃ g', update 0.05 graph_A_B = Return tt g' ∧ edges g' = edges graph_A_B
          ∧ length (nodes g') = length (nodes graph_A_B).
Proof.
  assert (Hfree : hole_free (nodes graph_A_B)).
  { intros H. apply elem_of_cons in H as [H|H]; [done|].
    apply elem_of_cons in H as [H|H]; [done|]. by apply elem_of_nil in H. }
  destruct (update_moves_only_positions 0.05 graph_A_B graph_A_B_reachable Hfree)
    as (forces & g' & _ & Hup & He & _ & _ & _ & Hl & _).
  split; [apply graph_A_B_reachable|]. split; [exact Hfree|]. by exists g'.
Defined.

(** X10.  When every slot but [m] is free, no pair interacts: [update(t)]
    moves the one live node by [t] times the centering force
    [(0, 0) - pos * centerK] and nothing else. *)
Theorem update_lone_node t g m n :
  nodes g !! m = Some (Live n) →
  (∀ k, k ≠ m → k < length (nodes g) → nodes g !! k = Some Null) →
  ∃ g', update t g = Return tt g'
    ∧ nodes g' = <[m := Live (moved n (vec2_sub (vec2 0 0) (vec2_mul (pos n) (centerK g))) t)]>
                   (nodes g)
    ∧ edges g' = edges g ∧ _adj g' = _adj g.
Proof.
  intros Hm Hothers. pose proof (lookup_lt_Some _ _ _ Hm) as Hlt.
  assert (Hfree : hole_free (nodes g)).
  { intros [k Hk]%list_elem_of_lookup_1. destruct (decide (k = m)) as [->|Hne]; [congruence|].
    rewrite (Hothers k Hne) in Hk; [done|]. by eapply lookup_lt_Some. }
  assert (Hnull : ∀ k, k ≠ m → k < length (nodes g) → is_null (node_at g k) = true).
  { intros k Hne Hk. unfold node_at. by rewrite (Hothers k Hne Hk). }
  assert (Hnotnull : is_null (node_at g m) = false).
  { unfold node_at. by rewrite Hm. }
  set (F0 := replicate (length (nodes g)) (vec2 0 0)).
  assert (Hpair : pair_loop g (length (nodes g)) F0 = Some F0).
  { unfold pair_loop. apply for_each_skip. intros i Hi%elem_of_seq.
    destruct (is_null (node_at g i)) eqn:Hni; [done|].
    unfold inner_loop. apply for_each_skip. intros j Hj%elem_of_seq.
    destruct (decide (i = m)) as [->|Hne].
    - rewrite Hnull by lia. done.
    - rewrite Hnull in Hni by lia. done. }
  set (f := vec2_sub (vec2 0 0) (vec2_mul (pos n) (centerK g))).
  assert (Hcenter : center_loop g (length (nodes g)) F0 = Some (<[m := f]> F0)).
  { unfold center_loop. apply (for_each_single _ _ m); [apply NoDup_seq|apply elem_of_seq; lia|..].
    - intros k F Hk%elem_of_seq Hne. by rewrite Hnull by lia.
    - rewrite Hnotnull, (slot_pos_live _ _ _ Hm). simpl.
      apply accumulate_insert. unfold F0. by apply lookup_replicate_2. }
  destruct (update_with_forces t g (<[m := f]> F0) Hfree) as
    (g' & Hup & (He & _ & Ha & Hl & _) & _ & Hnull' & Hlive').
  { unfold F0 in Hpair. rewrite Hpair. exact Hcenter. }
  exists g'. split_and!; try done.
  apply list_eq. intros k. destruct (decide (k = m)) as [->|Hne].
  - rewrite list_lookup_insert_eq by done.
    destruct (Hlive' m n Hm) as (fm & Hfm & ->).
    rewrite list_lookup_insert_eq in Hfm by (unfold F0; by rewrite length_replicate).
    by simplify_eq.
  - rewrite list_lookup_insert_ne by done.
    destruct (decide (k < length (nodes g))) as [Hk|Hk].
    + rewrite (Hothers k Hne Hk). apply Hnull'. by apply Hothers.
    + rewrite !lookup_ge_None_2; [done|lia..].
Qed.

(** The hypotheses of X10 at work on the graph with the single node [A]. *)
Lemma update_lone_node_witness :
  nodes graph_A !! 0 = Some (Live (new_Node "A"))
  ∧ ∃ g', update 0.05 graph_A = Return tt g' ∧ edges g' = edges graph_A.
Proof.
  assert (Hm : nodes graph_A !! 0 = Some (Live (new_Node "A"))) by reflexivity.
  assert (Hothers : ∀ k, k ≠ 0 → k < length (nodes graph_A) → nodes graph_A !! k = Some Null).
  { intros k Hk Hlt. simpl in Hlt. lia. }
  destruct (update_lone_node 0.05 graph_A 0 (new_Node "A") Hm Hothers)
    as (g' & Hup & _ & He & _).
  split; [exact Hm|]. by exists g'.
Defined.

(** ** addFriendGroup links the whole group *)

Lemma getOrCreateNodeIndex_names_result nm g idx g' :
  getOrCreateNodeIndex nm g = Return idx g' → first_named nm idx (nodes g').
Proof.
  unfold getOrCreateNodeIndex.
  destruct (scan_name nm (nodes g) 0) as [i| |] eqn:Hscan; [| |done].
  - intros [= <- <-]. apply scan_name_found in Hscan as (i' & n & -> & Hn & Hnm & Hlow).
    split; [by exists n|done].
  - pose proof (scan_name_not_found _ _ _ Hscan) as Hnone.
    assert (Hbelow : ∀ i', i' < length (nodes g) →
              nodes g !! i' = Some Null
              ∨ ∃ n', nodes g !! i' = Some (Live n') ∧ name n' ≠ nm).
    { intros i' Hi'. destruct (lookup_lt_is_Some_2 _ _ Hi') as [s Hs].
      destruct (Hnone _ _ Hs) as [->|(n' & -> & ?)]; eauto. }
    destruct (scan_null (nodes g) 0) as [k|] eqn:Hnull; intros [= <- <-]; simpl.
    + apply scan_null_some in Hnull as (i & -> & Hi & _). simpl.
      pose proof (lookup_lt_Some _ _ _ Hi) as Hlt.
      rewrite (array_set_in_range Undefined) by done. split.
      * eexists. by rewrite list_lookup_insert_eq.
      * intros i' Hi'. rewrite list_lookup_insert_ne by lia. apply Hbelow. lia.
    + split.
      * eexists. rewrite lookup_app_r, Nat.sub_diag by done. done.
      * intros i' Hi'. rewrite lookup_app_l by done. by apply Hbelow.
Qed.

Lemma getOrCreateNodeIndex_first_named_any nm idx nm' g :
  first_named nm idx (nodes g) →
  first_named nm idx (nodes (state_of (getOrCreateNodeIndex nm' g))).
Proof.
  intros H. destruct (decide (nm' = nm)) as [->|Hne].
  - by rewrite (getOrCreateNodeIndex_found _ _ _ H).
  - by apply getOrCreateNodeIndex_first_named.
Qed.

Lemma resolve_names_first_named_any nm idx names : ∀ acc g,
  first_named nm idx (nodes g) →
  first_named nm idx (nodes (state_of (resolve_names names acc g))).
Proof.
  induction names as [|nm' names IH]; intros acc g H; simpl; [done|].
  apply (bind_nodes _ _ (first_named nm idx)).
  - by apply getOrCreateNodeIndex_first_named_any.
  - intros i g1 H1. by apply IH.
Qed.

Lemma resolve_names_named names : ∀ acc g idxs g',
  resolve_names names acc g = Return idxs g' →
  ∃ new, idxs = acc ++ new
         ∧ Forall2 (λ nm i, first_named nm i (nodes g')) names new.
Proof.
  induction names as [|nm names IH]; intros acc g idxs g'; simpl.
  - intros [= <- <-]. exists []. by rewrite app_nil_r.
  - destruct (getOrCreateNodeIndex nm g) as [idx g1|g1] eqn:Hcall; simpl; [|done].
    intros Hrest. destruct (IH _ _ _ _ Hrest) as (new & -> & Hall).
    exists (idx :: new). split; [by rewrite <- app_assoc|].
    constructor; [|done].
    apply getOrCreateNodeIndex_names_result in Hcall.
    pose proof (resolve_names_first_named_any nm idx names (acc ++ [idx]) g1 Hcall) as H.
    by rewrite Hrest in H.
Qed.

Lemma getOrCreateNodeIndex_edges nm g :
  edges (state_of (getOrCreateNodeIndex nm g)) = edges g.
Proof. unfold getOrCreateNodeIndex. by repeat case_match. Qed.

Lemma resolve_names_edges names : ∀ acc g,
  edges (state_of (resolve_names names acc g)) = edges g.
Proof.
  induction names as [|nm names IH]; intros acc g; simpl; [done|].
  pose proof (getOrCreateNodeIndex_edges nm g) as H.
  destruct (getOrCreateNodeIndex nm g) as [idx g1|g1]; simpl in *; [|done].
  by rewrite IH.
Qed.

Lemma time_lt_irrefl a : time_lt a a = false.
Proof. destruct a; simpl; [done|]. case_bool_decide; [lia|done]. Qed.

Lemma time_lt_trans a b c : time_lt a b = true → time_lt b c = true → time_lt a c = true.
Proof.
  destruct a, b, c; simpl; try done. intros ?%bool_decide_eq_true ?%bool_decide_eq_true.
  apply bool_decide_eq_true. lia.
Qed.

Lemma redated_refl date g : redated date g g.
Proof. split; auto. Qed.

Lemma redated_trans date g g1 g2 :
  redated date g g1 → redated date g1 g2 → redated date g g2.
Proof.
  intros [Hfate1 Horigin1] [Hfate2 Horigin2]. split.
  - intros a b d [Hin|[Hlt Hin]]%Hfate1.
    + by apply Hfate2.
    + right. split; [done|]. apply Hfate2 in Hin as [Hin|[Hlt' Hin]]; [done|].
      by rewrite time_lt_irrefl in Hlt'.
  - intros a b d [Hin| ->]%Horigin2; [by apply Horigin1|by right].
Qed.

Lemma redated_same_edges date g g1 g2 :
  edges g1 = edges g → redated date g1 g2 → redated date g g2.
Proof. unfold redated. by intros ->. Qed.

Lemma joined_later date g g1 g2 a b :
  joined date g g1 a b → redated date g1 g2 → joined date g g2 a b.
Proof.
  intros (d & Hin & Hd) [Hfate _]. exists d.
  apply Hfate in Hin as [Hin|[Hlt Hin]]; [done|].
  destruct Hd as [->|[_ Hnot]]; [|congruence]. by rewrite time_lt_irrefl in Hlt.
Qed.

Lemma joined_earlier date g g1 g2 a b :
  redated date g g1 → joined date g1 g2 a b → joined date g g2 a b.
Proof.
  intros [_ Horigin] (d & Hin & Hd). exists d. split; [done|].
  destruct Hd as [Hd|[Hin1 Hnot]]; [by left|].
  apply Horigin in Hin1 as [Hin1|Hd]; auto.
Qed.


Lemma joined_valid date g g' a b :
  joined date g g' a b →
  ∃ d, (a, b, d) ∈ edges g'
       ∧ (d = date ∨ ((a, b, d) ∈ edges g ∧ time_lt (getTime date) (getTime d) = false))
       ∧ ∀ t t', getTime date = Millis t → getTime d = Millis t' → (t' ≤ t)%Z.
Proof.
  intros (d & Hin & Hd). exists d. split; [done|]. split; [done|].
  intros t t' Ht Ht'. destruct Hd as [->|[_ Hnot]].
  - rewrite Ht in Ht'. simplify_eq. lia.
  - rewrite Ht, Ht' in Hnot. simpl in Hnot. apply bool_decide_eq_false in Hnot. lia.
Qed.

Lemma addOrUpdateEdge_redated i j date g :
  consistent g → is_live g i → is_live g j →
  ∃ g', addOrUpdateEdge i j date g = Return tt g' ∧ consistent g'
    ∧ nodes g' = nodes g
    ∧ redated date g g'
    ∧ joined date g g' (i `min` j) (i `max` j)
    ∧ (∀ a b, (a, b) ∈ pairs (edges g') →
         (a, b) ∈ pairs (edges g) ∨ (a = i `min` j ∧ b = i `max` j)).
Proof.
  intros Hc Hi Hj.
  destruct (addOrUpdateEdge_consistent i j date g Hc Hi Hj)
    as (g' & Hcall & Hc' & Hn & [(e & old & He & Hedges)|[Hfresh Hedges]]);
    exists g'; (split; [done|]); (split; [done|]); (split; [done|]).
  - pose proof (lookup_lt_Some _ _ _ He) as Hlt.
    assert (Hnew : (i `min` j, i `max` j,
                    if time_lt (getTime date) (getTime old) then date else old) ∈ edges g').
    { rewrite Hedges. eapply list_elem_of_lookup_2. by apply list_lookup_insert_eq. }
    assert (Hold : (i `min` j, i `max` j, old) ∈ edges g)
      by (by eapply list_elem_of_lookup_2).
    split_and!.
    + split.
      * intros a b d [e0 He0]%list_elem_of_lookup_1.
        destruct (decide (e0 = e)) as [->|Hne].
        -- rewrite He in He0. simplify_eq.
           destruct (time_lt (getTime date) (getTime d)); [by right|by left].
        -- left. rewrite Hedges. eapply list_elem_of_lookup_2.
           by rewrite list_lookup_insert_ne.
      * intros a b d Hin. rewrite Hedges in Hin.
        apply list_elem_of_lookup_1 in Hin as [e0 He0].
        destruct (decide (e0 = e)) as [->|Hne].
        -- rewrite list_lookup_insert_eq in He0 by done. simplify_eq.
           destruct (time_lt (getTime date) (getTime old)); [by right|by left].
        -- rewrite list_lookup_insert_ne in He0 by done. left.
           by eapply list_elem_of_lookup_2.
    + eexists. split; [exact Hnew|].
      destruct (time_lt (getTime date) (getTime old)) eqn:Hcmp; [by left|by right].
    + intros a b Hab. left. rewrite Hedges in Hab. by erewrite pairs_redate in Hab.
  - split_and!.
    + split.
      * intros a b d Hin. left. rewrite Hedges. set_solver.
      * intros a b d Hin. rewrite Hedges in Hin. set_solver.
    + exists date. split; [|by left]. rewrite Hedges. set_solver.
    + intros a b Hab. rewrite Hedges, pairs_snoc in Hab. set_solver.
Qed.

Lemma link_from_redated ia rest date : ∀ g,
  consistent g → is_live g ia → Forall (is_live g) rest →
  ∃ g', link_from ia rest date g = Return tt g' ∧ consistent g' ∧ nodes g' = nodes g
    ∧ redated date g g'
    ∧ (∀ ib, ib ∈ rest → joined date g g' (ia `min` ib) (ia `max` ib))
    ∧ (∀ a b, (a, b) ∈ pairs (edges g') →
         (a, b) ∈ pairs (edges g) ∨ ∃ ib, ib ∈ rest ∧ a = ia `min` ib ∧ b = ia `max` ib).
Proof.
  induction rest as [|ib rest IH]; intros g Hc Ha Hrest; simpl.
  - exists g. split_and!; try done; [apply redated_refl|set_solver|auto].
  - apply Forall_cons in Hrest as [Hb Hrest].
    destruct (addOrUpdateEdge_redated ia ib date g Hc Ha Hb)
      as (g1 & -> & Hc1 & Hn1 & Hred & Hnew & Honly). simpl.
    destruct (IH g1 Hc1) as (g' & -> & Hc' & Hn' & Hred' & Hnew' & Honly').
    { by eapply is_live_nodes. }
    { eapply Forall_impl; [done|]. intros k. by apply is_live_nodes. }
    exists g'. split_and!; [done|done|congruence|by eapply redated_trans| |].
    + intros k [->|Hk]%elem_of_cons.
      * by eapply joined_later.
      * eapply joined_earlier; [done|]. by apply Hnew'.
    + intros a b [Hab|(k & Hk & -> & ->)]%Honly'.
      * destruct (Honly a b Hab) as [?|[-> ->]]; [by left|]. right. exists ib. set_solver.
      * right. exists k. set_solver.
Qed.

Lemma link_all_redated indices date : ∀ g,
  consistent g → Forall (is_live g) indices →
  ∃ g', link_all indices date g = Return tt g' ∧ consistent g' ∧ nodes g' = nodes g
    ∧ redated date g g'
    ∧ (∀ p q a b, p < q → indices !! p = Some a → indices !! q = Some b →
         joined date g g' (a `min` b) (a `max` b))
    ∧ (∀ a b, (a, b) ∈ pairs (edges g') →
         (a, b) ∈ pairs (edges g) ∨ (a ∈ indices ∧ b ∈ indices)).
Proof.
  induction indices as [|ia rest IH]; intros g Hc Hall; simpl.
  - exists g. split_and!; try done; [apply redated_refl|auto].
  - apply Forall_cons in Hall as [Ha Hrest].
    destruct (link_from_redated ia rest date g Hc Ha Hrest)
      as (g1 & -> & Hc1 & Hn1 & Hred & Hnew & Honly). simpl.
    destruct (IH g1 Hc1) as (g' & -> & Hc' & Hn' & Hred' & Hnew' & Honly').
    { eapply Forall_impl; [done|]. intros k. by apply is_live_nodes. }
    exists g'. split_and!; [done|done|congruence|by eapply redated_trans| |].
    + intros [|p] [|q] a b Hpq Hp Hq; simpl in *; [lia| |lia|].
      * simplify_eq. eapply joined_later; [|done]. apply Hnew.
        by eapply list_elem_of_lookup_2.
      * eapply joined_earlier; [done|]. apply (Hnew' p q); [lia|done..].
    + intros a b [Hab|[Ha' Hb']]%Honly'.
      * destruct (Honly a b Hab) as [?|(k & Hk & -> & ->)]; [by left|]. right.
        split; [destruct (Nat.min_spec ia k) as [[_ ->]|[_ ->]]
               |destruct (Nat.max_spec ia k) as [[_ ->]|[_ ->]]]; set_solver.
      * right. set_solver.
Qed.

Lemma addFriendGroup_effect names date g :
  reachable g → hole_free (nodes g) →
  ∃ idxs g',
    addFriendGroup names date g = Return tt g'
    ∧ Forall2 (λ nm i, first_named nm i (nodes g')) names idxs
    ∧ redated date g g'
    ∧ (∀ p q a b, p < q → idxs !! p = Some a → idxs !! q = Some b →
         joined date g g' (a `min` b) (a `max` b))
    ∧ (∀ a b, (a, b) ∈ pairs (edges g') →
         (a, b) ∈ pairs (edges g) ∨ (a ∈ idxs ∧ b ∈ idxs)).
Proof.
  intros Hc%reachable_consistent Hfree. unfold addFriendGroup.
  destruct (resolve_names_hole_free names [] g Hfree) as (idxs & g1 & Hres).
  destruct (resolve_names_consistent _ _ _ _ _ Hc (Forall_nil_2 _) Hres) as [Hc1 Hlive].
  destruct (resolve_names_named _ _ _ _ _ Hres) as (new & Hnew & Hnamed).
  simpl in Hnew. subst new.
  pose proof (resolve_names_edges names [] g) as He1. rewrite Hres in He1. simpl in He1.
  rewrite Hres. simpl.
  destruct (link_all_redated idxs date g1 Hc1 Hlive)
    as (g' & Hlink & _ & Hn' & Hred & Hclique & Honly).
  exists idxs, g'. split_and!; [done| | | |].
  - by rewrite Hn'.
  - by eapply redated_same_edges.
  - intros p q a b Hpq Hp Hq. destruct (Hclique p q a b Hpq Hp Hq) as (d & Hin & Hd).
    exists d. by rewrite <- He1.
  - intros a b Hab. rewrite <- He1. by apply Honly.
Qed.

(** X11.  On a reachable state whose slots are all live or free,
    [addFriendGroup(names, date)] returns, and afterwards every name of the
    group is held by a node and any two entries of [names] are joined by a
    stored edge (an entry repeated in [names] is joined to itself).  The
    date of that edge is [date], or it is the date the pair had before, for
    which the test [date < stored] was false; so when neither is an Invalid
    Date the edge is dated [date] or earlier. *)
Theorem addFriendGroup_links_every_pair names date g :
  reachable g → hole_free (nodes g) →
  ∃ g', addFriendGroup names date g = Return tt g'
    ∧ ∀ p q nm nm', p < q → names !! p = Some nm → names !! q = Some nm' →
        ∃ i j d, first_named nm i (nodes g') ∧ first_named nm' j (nodes g')
          ∧ (i `min` j, i `max` j, d) ∈ edges g'
          ∧ (d = date
             ∨ ((i `min` j, i `max` j, d) ∈ edges g
                ∧ time_lt (getTime date) (getTime d) = false))
          ∧ (∀ t t', getTime date = Millis t → getTime d = Millis t' → (t' ≤ t)%Z).
Proof.
  intros Hr Hfree.
  destruct (addFriendGroup_effect names date g Hr Hfree)
    as (idxs & g' & Hcall & Hnamed & _ & Hclique & _).
  exists g'. split; [done|]. intros p q nm nm' Hpq Hp Hq.
  destruct (Forall2_lookup_l _ _ _ _ _ Hnamed Hp) as (i & Hi & Hni).
  destruct (Forall2_lookup_l _ _ _ _ _ Hnamed Hq) as (j & Hj & Hnj).
  destruct (joined_valid _ _ _ _ _ (Hclique p q i j Hpq Hi Hj)) as (d & Hin & Hd & Hvalid).
  exists i, j, d. split_and!; done.
Qed.

(** The hypotheses of X11 at work: a group of three on the graph of [A] and
    [B] joins [B], at index 1, and [C], at index 2. *)
Lemma addFriendGroup_links_every_pair_witness :
  reachable graph_A_B ∧ hole_free (nodes graph_A_B)
  ∧ ∃ g', addFriendGroup ["B"; "C"; "A"] year2015 graph_A_B = Return tt g'
          ∧ ∃ i j d, first_named "B" i (nodes g') ∧ first_named "C" j (nodes g')
                     ∧ (i `min` j, i `max` j, d) ∈ edges g'.
Proof.
  assert (Hfree : hole_free (nodes graph_A_B)).
  { intros H. apply elem_of_cons in H as [H|H]; [done|].
    apply elem_of_cons in H as [H|H]; [done|]. by apply elem_of_nil in H. }
  destruct (addFriendGroup_links_every_pair ["B"; "C"; "A"] year2015 graph_A_B
              graph_A_B_reachable Hfree) as (g' & Hcall & Hpairs).
  split; [apply graph_A_B_reachable|]. split; [exact Hfree|]. exists g'.
  split; [exact Hcall|].
  destruct (Hpairs 0 1 "B" "C") as (i & j & d & Hi & Hj & Hin & _); [lia|reflexivity..|].
  by exists i, j, d.
Defined.



(** ** The ids of the SVG lines *)

Lemma edgeId_key a b : edgeId a b = "edge-" +:+ key (a `min` b) (a `max` b).
Proof. unfold edgeId, key. rewrite canonical_min, canonical_max. done. Qed.

Lemma edgeId_inj a b a' b' :
  edgeId a b = edgeId a' b' → (a = a' ∧ b = b') ∨ (a = b' ∧ b = a').
Proof.
  rewrite !edgeId_key. intros H. simpl in H. simplify_eq.
  apply key_inj in H as [Hmin Hmax]. lia.
Qed.

(** X13.  [edgeId] does not depend on the order of its arguments, and two
    pairs get the same id only when they are the same unordered pair. *)
Theorem edgeId_names_the_unordered_pair a b a' b' :
  edgeId a b = edgeId a' b' ↔ (a = a' ∧ b = b') ∨ (a = b' ∧ b = a').
Proof.
  split; [apply edgeId_inj|].
  rewrite !edgeId_key. intros [[-> ->]|[-> ->]]; [done|].
  by rewrite Nat.min_comm, Nat.max_comm.
Qed.

(** X14.  The delete handler of the page removes the lines named by the
    pairs that [deleteNode] returns.  On a reachable state none of those ids
    names an edge that is kept, and every edge that is no longer stored has
    its id among them. *)
Theorem removed_line_ids_miss_kept_edges i g removed g' :
  reachable g → deleteNode i g = Return removed g' →
  (∀ p a b d, p ∈ removed → (a, b, d) ∈ edges g' → edgeId p.1 p.2 = edgeId a b → False)
  ∧ (∀ a b d, (a, b, d) ∈ edges g → (a, b, d) ∈ edges g' ∨ (a, b) ∈ removed).
Proof.
  intros Hc%reachable_consistent Hdel.
  assert (node_at g i = Null ∨ node_at g i ≠ Null) as [Hnull|Hnn]
    by (destruct (node_at g i); auto).
  - unfold deleteNode in Hdel. rewrite Hnull in Hdel. simplify_eq. split; [|auto].
    intros p a b d Hp. by apply elem_of_nil in Hp.
  - destruct (deleteNode_consistent i g Hc Hnn) as (g1 & Hdel1 & _ & _ & He1).
    rewrite Hdel1 in Hdel. simplify_eq. split.
    + intros [p1 p2] a b d [Hinc _]%list_elem_of_filter Hkept Hid.
      rewrite He1 in Hkept. apply list_elem_of_filter in Hkept as [Hni _].
      unfold incident in *. simpl in *.
      apply edgeId_inj in Hid. lia.
    + intros a b d Hin. destruct (decide (incident i (a, b))) as [Hinc|Hni].
      * right. apply list_elem_of_filter. split; [done|]. apply pairs_elem. eauto.
      * left. rewrite He1. by apply list_elem_of_filter.
Qed.

(** The hypotheses of X14 at work: deleting [A] from the graph with the
    edges [A]-[A] and [A]-[B]. *)
Lemma removed_line_ids_miss_kept_edges_witness :
  reachable graph_AAB
  ∧ ∃ removed g', deleteNode 0 graph_AAB = Return removed g'
      ∧ ∀ a b d, (a, b, d) ∈ edges graph_AAB → (a, b, d) ∈ edges g' ∨ (a, b) ∈ removed.
Proof.
  split; [apply graph_AAB_reachable|].
  assert (∃ removed g', deleteNode 0 graph_AAB = Return removed g') as (removed & g' & Hdel)
    by (by eexists _, _; vm_compute).
  exists removed, g'. split; [exact Hdel|].
  apply (removed_line_ids_miss_kept_edges 0 graph_AAB removed g' graph_AAB_reachable Hdel).
Defined.

(** ** The page: lines of the edges *)

Lemma edge_line_id g e y : edge_line g e = Some y → y.1.1 = edgeId e.1.1 e.1.2.
Proof.
  unfold edge_line. destruct (slot_pos (node_at g e.1.1)); [|done].
  destruct (slot_pos (node_at g e.1.2)); [|done]. by intros [= <-].
Qed.

Lemma edge_lines_ids g es lines :
  Forall2 (λ e y, edge_line g e = Some y) es lines →
  lines.*1.*1 = (λ e : Edge, edgeId e.1.1 e.1.2) <$> es.
Proof.
  induction 1 as [|e y es lines He _ IH]; [done|].
  rewrite !fmap_cons. f_equal; [by eapply edge_line_id|done].
Qed.

(** X15.  On a reachable state the edge loop of [syncSvg] does not raise, and
    it draws every stored edge on a line of its own: as many lines as stored
    edges, no two with the same id. *)
Theorem syncSvg_draws_each_edge_once g :
  reachable g →
  ∃ lines, edge_lines g = Some lines
           ∧ length lines = length (edges g)
           ∧ NoDup (lines.*1.*1).
Proof.
  intros Hc%reachable_consistent.
  assert (Hsome : is_Some (edge_lines g)).
  { apply mapM_is_Some_2, Forall_forall. intros [[a b] d] Hin. simpl.
    destruct (cons_live _ Hc a b) as (_ & [na Ha] & [nb Hb]).
    { apply pairs_elem. eauto. }
    unfold edge_line. simpl.
    rewrite (slot_pos_live _ _ _ Ha), (slot_pos_live _ _ _ Hb). by eexists. }
  destruct Hsome as [lines Hlines]. exists lines. split; [done|].
  split; [symmetry; by eapply length_mapM|].
  apply mapM_Some_1 in Hlines. rewrite (edge_lines_ids _ _ _ Hlines).
  pose proof (index_exact_NoDup _ _ (cons_index _ Hc)) as Hnd.
  apply NoDup_fmap_2_strong; [|by eapply NoDup_fmap_1].
  intros [[a b] d] [[a' b'] d'] [e He]%list_elem_of_lookup_1 [e' He']%list_elem_of_lookup_1 Hid.
  simpl in Hid. apply edgeId_inj in Hid.
  destruct (cons_live _ Hc a b) as (Hle & _); [apply pairs_elem; exists d;
    by eapply list_elem_of_lookup_2|].
  destruct (cons_live _ Hc a' b') as (Hle' & _); [apply pairs_elem; exists d';
    by eapply list_elem_of_lookup_2|].
  assert (a = a' ∧ b = b') as [-> ->] by lia.
  assert (e = e') as ->.
  { eapply NoDup_lookup; [exact Hnd|..]; apply pairs_lookup; eauto. }
  congruence.
Qed.

(** The hypothesis of X15 at work. *)
Lemma syncSvg_draws_each_edge_once_witness :
  reachable graph_AAB
  ∧ ∃ lines, edge_lines graph_AAB = Some lines ∧ length lines = length (edges graph_AAB).
Proof.
  destruct (syncSvg_draws_each_edge_once graph_AAB graph_AAB_reachable)
    as (lines & Hlines & Hlen & _).
  split; [apply graph_AAB_reachable|]. by exists lines.
Defined.

(** ** The page: a frame while a node is dragged *)

Lemma set_pos_live i p g n :
  nodes g !! i = Some (Live n) →
  set_pos i p g
  = Return tt (set_nodes (<[i := Live {| name := name n; image := image n; pos := p |}]>
                            (nodes g)) g).
Proof. intros Hn. unfold set_pos, node_at. by rewrite Hn. Qed.

Lemma pin_dragged_live i p g n :
  nodes g !! i = Some (Live n) →
  pin_dragged (Some i) p g
  = Return tt (set_nodes (<[i := Live {| name := name n; image := image n; pos := p |}]>
                            (nodes g)) g).
Proof.
  intros Hn. unfold pin_dragged, isFree. rewrite (set_pos_live _ _ _ _ Hn).
  unfold node_at. by rewrite Hn.
Qed.

Lemma update_hole_free t g g' :
  hole_free (nodes g) → update t g = Return tt g' → hole_free (nodes g').
Proof.
  intros Hfree Hup. pose proof (update_same_links t g) as (_ & _ & _ & Hlen & Hlive).
  rewrite Hup in Hlen, Hlive. simpl in *.
  intros [m Hm]%list_elem_of_lookup_1.
  pose proof (lookup_lt_Some _ _ _ Hm) as Hlt. rewrite Hlen in Hlt.
  unfold update in Hup. case_decide as Hn; [simplify_eq; by apply Hfree; eapply list_elem_of_lookup_2|].
  destruct (_ ≫= _) as [forces|] eqn:Hloops; [|done].
  destruct (integrate_spec _ _ _ _ _ (NoDup_seq _ _) Hup) as (_ & Hnull & Hmoved).
  destruct (hole_free_live g m Hfree Hlt) as [Hn0%node_at_null|[n Hl]].
  - apply Hnull in Hn0. congruence.
  - destruct (Hmoved m n) as (fm & _ & Hm'); [apply elem_of_seq; lia|done|]. congruence.
Qed.

(** X16.  One frame while the live node [i] is dragged, on a reachable state
    whose slots are all live or free: the step does not raise, it leaves the
    dragged node at [dragTarget] whatever the forces on it, with its name
    and image, and the edges and adjacency sets as they were; the state it
    leaves is fit for the next frame. *)
Theorem frame_keeps_dragged_node_at_target now last i target g n :
  reachable g → hole_free (nodes g) → nodes g !! i = Some (Live n) →
  ∃ g', frame now last (Some i) target g = Return tt g'
    ∧ nodes g' !! i = Some (Live {| name := name n; image := image n; pos := target |})
    ∧ edges g' = edges g ∧ _adj g' = _adj g
    ∧ length (nodes g') = length (nodes g)
    ∧ reachable g' ∧ hole_free (nodes g').
Proof.
  intros Hr Hfree Hn. pose proof (lookup_lt_Some _ _ _ Hn) as Hlt.
  unfold frame. cbv zeta.
  set (dt := if (0.05 <? (now - last) / 1000)%float then 0.05%float
             else ((now - last) / 1000)%float).
  rewrite (pin_dragged_live _ _ _ _ Hn). simpl.
  set (n1 := {| name := name n; image := image n; pos := target |}).
  set (g1 := set_nodes (<[i := Live n1]> (nodes g)) g).
  assert (Hr1 : reachable g1).
  { replace g1 with (run (SetPos i target) g); [by apply reachable_run|].
    unfold run. simpl. by rewrite (set_pos_live _ _ _ _ Hn). }
  assert (Hfree1 : hole_free (nodes g1)) by (by apply hole_free_insert).
  assert (Hn1 : nodes g1 !! i = Some (Live n1)) by (by apply list_lookup_insert_eq).
  destruct (pair_loop_returns g1 (replicate (length (nodes g1)) (vec2 0 0)) Hr1 Hfree1)
    as (F1 & HF1 & Hlen1); [apply length_replicate|].
  destruct (center_loop_returns g1 F1 Hfree1 Hlen1) as (F2 & HF2 & _).
  destruct (update_with_forces dt g1 F2 Hfree1) as
    (g2 & Hup & (He2 & _ & Ha2 & Hl2 & _) & _ & _ & Hlive2).
  { rewrite HF1. exact HF2. }
  rewrite Hup. cbn [bind].
  destruct (Hlive2 i n1 Hn1) as (fm & _ & Hn2).
  rewrite (pin_dragged_live _ _ _ _ Hn2). eexists. split; [done|]. simpl.
  assert (Hr2 : reachable g2).
  { replace g2 with (run (Update dt) g1); [by apply reachable_run|].
    unfold run. simpl. by rewrite Hup. }
  split_and!.
  - rewrite list_lookup_insert_eq; [done|]. by eapply lookup_lt_Some.
  - by rewrite He2.
  - by rewrite Ha2.
  - rewrite length_insert, Hl2. unfold g1. simpl. by rewrite length_insert.
  - match goal with |- reachable ?g3 => replace g3 with (run (SetPos i target) g2) end;
      [by apply reachable_run|].
    unfold run. simpl. by rewrite (set_pos_live _ _ _ _ Hn2).
  - apply hole_free_insert; [|done]. by eapply update_hole_free.
Qed.

(** The hypotheses of X16 at work: [A] is dragged to [(30, 40)] in the graph
    of [A] and [B]. *)
Lemma frame_keeps_dragged_node_at_target_witness :
  reachable graph_A_B ∧ hole_free (nodes graph_A_B)
  ∧ nodes graph_A_B !! 0 = Some (Live (new_Node "A"))
  ∧ ∃ g', frame 1016 1000 (Some 0) (vec2 30 40) graph_A_B = Return tt g'
          ∧ nodes g' !! 0
            = Some (Live {| name := "A"; image := None; pos := vec2 30 40 |}).
Proof.
  assert (Hfree : hole_free (nodes graph_A_B)).
  { intros H. apply elem_of_cons in H as [H|H]; [done|].
    apply elem_of_cons in H as [H|H]; [done|]. by apply elem_of_nil in H. }
  assert (Hn : nodes graph_A_B !! 0 = Some (Live (new_Node "A"))) by reflexivity.
  destruct (frame_keeps_dragged_node_at_target 1016 1000 0 (vec2 30 40) graph_A_B
              (new_Node "A") graph_A_B_reachable Hfree Hn) as (g' & Hframe & Hpos & _).
  split; [apply graph_A_B_reachable|]. split; [exact Hfree|]. split; [exact Hn|].
  exists g'. split; [exact Hframe|exact Hpos].
Defined.

(** * The class against its earlier revision

    The pair index and the adjacency sets are caches: on reachable states
    the methods compute what the scans of the earlier revision compute. *)

Lemma count_incident_length i es : ∀ d,
  EdgeList.count_incident i es d = d + length (filter (incident i) (pairs es)).
Proof.
  induction es as [|[[a b] dt] es IH]; intros d; [simpl; lia|].
  cbn [EdgeList.count_incident]. rewrite IH.
  change (pairs ((a, b, dt) :: es)) with ((a, b) :: pairs es). rewrite filter_cons.
  destruct (decide (incident i (a, b))) as [Hinc|Hinc]; unfold incident in Hinc;
    simpl in Hinc; repeat case_bool_decide; simpl; try lia; naive_solver.
Qed.

Lemma find_pair_found a b es : ∀ k e old,
  NoDup (pairs es) → es !! e = Some (a, b, old) →
  EdgeList.find_pair a b es k = Some (k + e, old).
Proof.
  induction es as [|[[ea eb] d] es IH]; intros k e old Hnd He; [done|].
  change (pairs ((ea, eb, d) :: es)) with ((ea, eb) :: pairs es) in Hnd.
  apply NoDup_cons in Hnd as [Hhead Hnd].
  destruct e as [|e]; simpl in *.
  - simplify_eq. rewrite !bool_decide_eq_true_2 by done. simpl. do 2 f_equal. lia.
  - assert ((ea, eb) ≠ (a, b)) as Hne.
    { intros [= -> ->]. apply Hhead. apply pairs_elem. exists old.
      by eapply list_elem_of_lookup_2. }
    rewrite (IH (S k) e old Hnd He).
    repeat case_bool_decide; simpl; [congruence|..]; do 2 f_equal; lia.
Qed.

Lemma find_pair_none a b es : ∀ k,
  (a, b) ∉ pairs es → EdgeList.find_pair a b es k = None.
Proof.
  induction es as [|[[ea eb] d] es IH]; intros k Hnot; [done|].
  change (pairs ((ea, eb, d) :: es)) with ((ea, eb) :: pairs es) in Hnot.
  apply not_elem_of_cons in Hnot as [Hne Hnot]. simpl.
  rewrite (IH (S k) Hnot). repeat case_bool_decide; simpl; congruence.
Qed.

Lemma addOrUpdateEdge_same_content i j date g l :
  consistent g → same_content g l → is_live g i → is_live g j →
  ∃ g', addOrUpdateEdge i j date g = Return tt g' ∧ consistent g'
    ∧ nodes g' = nodes g
    ∧ same_content g' (EdgeList.addOrUpdateEdge i j date l).
Proof.
  intros Hc [Hn He] Hi Hj.
  destruct (addOrUpdateEdge_consistent i j date g Hc Hi Hj)
    as (g' & Hcall & Hc' & Hn' & Hedges).
  exists g'. split_and!; [done..|].
  unfold same_content, EdgeList.addOrUpdateEdge. rewrite canonical_min, canonical_max, <- He.
  destruct Hedges as [(e & old & Hlook & ->)|[Hfresh ->]].
  - rewrite (find_pair_found _ _ _ 0 e old); [|eapply index_exact_NoDup, (cons_index _ Hc)|done].
    simpl. destruct (time_lt (getTime date) (getTime old)); simpl; [by rewrite Hn'|].
    split; [by rewrite Hn'|].
    rewrite <- He. by apply list_insert_id.
  - rewrite (find_pair_none _ _ _ 0 Hfresh). simpl. by rewrite Hn'.
Qed.

Lemma link_from_same_content ia rest date : ∀ g l,
  consistent g → same_content g l → is_live g ia → Forall (is_live g) rest →
  ∃ g', link_from ia rest date g = Return tt g' ∧ consistent g' ∧ nodes g' = nodes g
        ∧ same_content g' (EdgeList.link_from ia rest date l).
Proof.
  induction rest as [|ib rest IH]; intros g l Hc Hsame Ha Hrest; simpl; [by exists g|].
  apply Forall_cons in Hrest as [Hb Hrest].
  destruct (addOrUpdateEdge_same_content ia ib date g l Hc Hsame Ha Hb)
    as (g1 & -> & Hc1 & Hn1 & Hsame1). simpl.
  destruct (IH g1 _ Hc1 Hsame1) as (g' & -> & Hc' & Hn' & Hsame').
  { by eapply is_live_nodes. }
  { eapply Forall_impl; [done|]. intros k. by apply is_live_nodes. }
  exists g'. split_and!; [done|done|congruence|done].
Qed.

Lemma link_all_same_content indices date : ∀ g l,
  consistent g → same_content g l → Forall (is_live g) indices →
  ∃ g', link_all indices date g = Return tt g'
        ∧ same_content g' (EdgeList.link_all indices date l).
Proof.
  induction indices as [|ia rest IH]; intros g l Hc Hsame Hall; simpl; [by exists g|].
  apply Forall_cons in Hall as [Ha Hrest].
  destruct (link_from_same_content ia rest date g l Hc Hsame Ha Hrest)
    as (g1 & -> & Hc1 & Hn1 & Hsame1). simpl.
  apply IH; [done..|]. eapply Forall_impl; [done|]. intros k. by apply is_live_nodes.
Qed.

Lemma getOrCreateNodeIndex_same_content nm g l :
  same_content g l →
  match getOrCreateNodeIndex nm g, EdgeList.getOrCreateNodeIndex nm l with
  | Return idx g', EdgeList.Return idx' l' => idx = idx' ∧ same_content g' l'
  | Throw g', EdgeList.Throw l' => same_content g' l'
  | _, _ => False
  end.
Proof.
  intros [Hn He]. unfold getOrCreateNodeIndex, EdgeList.getOrCreateNodeIndex.
  rewrite <- Hn. destruct (scan_name nm (nodes g) 0); [done| |done].
  destruct (scan_null (nodes g) 0); by rewrite <- ?Hn.
Qed.

Lemma resolve_names_same_content names : ∀ acc g l,
  same_content g l →
  match resolve_names names acc g, EdgeList.resolve_names names acc l with
  | Return idxs g', EdgeList.Return idxs' l' => idxs = idxs' ∧ same_content g' l'
  | Throw g', EdgeList.Throw l' => same_content g' l'
  | _, _ => False
  end.
Proof.
  induction names as [|nm names IH]; intros acc g l Hsame; simpl; [done|].
  pose proof (getOrCreateNodeIndex_same_content nm g l Hsame) as Hstep.
  destruct (getOrCreateNodeIndex nm g) as [idx g1|g1],
    (EdgeList.getOrCreateNodeIndex nm l) as [idx' l1|l1]; simpl; try done.
  destruct Hstep as [<- Hsame1]. by apply IH.
Qed.

Lemma same_content_forget g : same_content g (forget_index g).
Proof. done. Qed.

(** X17.  On a reachable state, [degree(i)] read off the adjacency set of an
    index within the node storage is the number the earlier revision gets by
    counting the stored edges that touch [i]. *)
Theorem degree_agrees_with_edge_count g l i :
  reachable g → same_content g l → i < length (nodes g) →
  degree i g = Return (EdgeList.degree i l) g.
Proof.
  intros Hc%reachable_consistent [Hn He] Hi.
  rewrite (degree_incident_count g i Hc Hi). f_equal.
  unfold EdgeList.degree, EdgeList.node_at. rewrite <- Hn, <- He.
  destruct (nodes g !! i) as [s|] eqn:Hs; [|by apply lookup_ge_None_1 in Hs; lia].
  destruct s as [| |n]; simpl; try by rewrite count_incident_length.
  destruct (filter (incident i) (pairs (edges g))) as [|[a b] rest] eqn:Hfilter; [done|].
  assert (Hin : (a, b) ∈ filter (incident i) (pairs (edges g)))
    by (rewrite Hfilter; set_solver).
  apply list_elem_of_filter in Hin as [Hinc Hin].
  apply (cons_live _ Hc) in Hin as (_ & [na Ha] & [nb Hb]).
  unfold incident in Hinc. simpl in Hinc. destruct Hinc; simplify_eq.
Qed.

(** The hypotheses of X17 at work. *)
Lemma degree_agrees_with_edge_count_witness :
  reachable graph_AAB ∧ same_content graph_AAB (forget_index graph_AAB)
  ∧ 0 < length (nodes graph_AAB)
  ∧ degree 0 graph_AAB = Return (EdgeList.degree 0 (forget_index graph_AAB)) graph_AAB.
Proof.
  assert (Hlen : 0 < length (nodes graph_AAB)) by (vm_compute; lia).
  split; [apply graph_AAB_reachable|]. split; [apply same_content_forget|].
  split; [exact Hlen|].
  apply (degree_agrees_with_edge_count graph_AAB (forget_index graph_AAB) 0
           graph_AAB_reachable (same_content_forget _) Hlen).
Defined.

(** X18.  On a reachable state, [addOrUpdateEdge] between two live nodes,
    which finds the edge through the pair index, leaves the nodes and edges
    that the earlier revision leaves by scanning the edge list. *)
Theorem addOrUpdateEdge_agrees_with_scan i j date g l :
  reachable g → same_content g l → is_live g i → is_live g j →
  ∃ g', addOrUpdateEdge i j date g = Return tt g'
        ∧ same_content g' (EdgeList.addOrUpdateEdge i j date l).
Proof.
  intros Hc%reachable_consistent Hsame Hi Hj.
  destruct (addOrUpdateEdge_same_content i j date g l Hc Hsame Hi Hj)
    as (g' & Hcall & _ & _ & Hsame').
  by exists g'.
Qed.

(** The hypotheses of X18 at work: an earlier date for the edge between [A]
    and [B]. *)
Lemma addOrUpdateEdge_agrees_with_scan_witness :
  reachable graph_AAB ∧ same_content graph_AAB (forget_index graph_AAB)
  ∧ is_live graph_AAB 1 ∧ is_live graph_AAB 0
  ∧ ∃ g', addOrUpdateEdge 1 0 year2000 graph_AAB = Return tt g'
          ∧ same_content g'
              (EdgeList.addOrUpdateEdge 1 0 year2000 (forget_index graph_AAB)).
Proof.
  assert (H1 : is_live graph_AAB 1) by (by eexists).
  assert (H0 : is_live graph_AAB 0) by (by eexists).
  split; [apply graph_AAB_reachable|]. split; [apply same_content_forget|].
  split; [exact H1|]. split; [exact H0|].
  apply (addOrUpdateEdge_agrees_with_scan 1 0 year2000 graph_AAB (forget_index graph_AAB)
           graph_AAB_reachable (same_content_forget _) H1 H0).
Defined.

(** X19.  On a reachable state [deleteNode(i)], for any index, returns the
    pairs that the earlier revision returns and leaves the same nodes and
    edges: rebuilding the pair index and the adjacency sets does not show
    in what is stored. *)
Theorem deleteNode_agrees_with_earlier_revision i g l :
  reachable g → same_content g l →
  ∃ g', deleteNode i g = Return (EdgeList.deleteNode i l).1 g'
        ∧ same_content g' (EdgeList.deleteNode i l).2.
Proof.
  intros Hc%reachable_consistent [Hn He].
  unfold EdgeList.deleteNode, EdgeList.node_at. rewrite <- Hn.
  assert (node_at g i = Null ∨ node_at g i ≠ Null) as [Hnull|Hnn]
    by (destruct (node_at g i); auto).
  - exists g. unfold node_at in Hnull. unfold deleteNode, node_at.
    destruct (nodes g !! i) as [[]|]; simplify_eq/=. done.
  - destruct (deleteNode_consistent i g Hc Hnn) as (g' & Hdel & _ & Hn' & He').
    exists g'. replace (is_null (default Undefined (nodes g !! i))) with false
      by (unfold node_at in Hnn; by destruct (nodes g !! i) as [[]|]).
    simpl. rewrite <- He.
    destruct (split_incident_spec i (edges g)) as (Hrem & Hkept & _).
    destruct (split_incident i (edges g)) as [removedPairs kept]. simpl in *.
    subst removedPairs kept. split; [done|]. split; simpl; congruence.
Qed.

(** The hypotheses of X19 at work: deleting [A], which has two edges. *)
Lemma deleteNode_agrees_with_earlier_revision_witness :
  reachable graph_AAB ∧ same_content graph_AAB (forget_index graph_AAB)
  ∧ ∃ g', deleteNode 0 graph_AAB
          = Return (EdgeList.deleteNode 0 (forget_index graph_AAB)).1 g'
          ∧ same_content g' (EdgeList.deleteNode 0 (forget_index graph_AAB)).2.
Proof.
  split; [apply graph_AAB_reachable|]. split; [apply same_content_forget|].
  apply (deleteNode_agrees_with_earlier_revision 0 graph_AAB (forget_index graph_AAB)
           graph_AAB_reachable (same_content_forget _)).
Defined.

(** X20.  On a reachable state [addFriendGroup] and its earlier revision
    agree: both return, or both raise, and either way they leave the same
    nodes and edges. *)
Theorem addFriendGroup_agrees_with_earlier_revision names date g l :
  reachable g → same_content g l →
  outcomes_agree (addFriendGroup names date g) (EdgeList.addFriendGroup names date l).
Proof.
  intros Hc%reachable_consistent Hsame.
  unfold addFriendGroup, EdgeList.addFriendGroup.
  pose proof (resolve_names_same_content names [] g l Hsame) as Hres.
  destruct (resolve_names names [] g) as [idxs g1|g1] eqn:Hcall,
    (EdgeList.resolve_names names [] l) as [idxs' l1|l1]; simpl; try done.
  destruct Hres as [<- Hsame1].
  destruct (resolve_names_consistent _ _ _ _ _ Hc (Forall_nil_2 _) Hcall) as [Hc1 Hlive].
  destruct (link_all_same_content idxs date g1 l1 Hc1 Hsame1 Hlive) as (g' & -> & Hsame').
  done.
Qed.

(** The hypotheses of X20 at work: a group on a storage with a hole, where
    both revisions raise. *)
Lemma addFriendGroup_agrees_with_earlier_revision_witness :
  reachable graph_hole ∧ same_content graph_hole (forget_index graph_hole)
  ∧ outcomes_agree (addFriendGroup ["A"; "B"] year2015 graph_hole)
      (EdgeList.addFriendGroup ["A"; "B"] year2015 (forget_index graph_hole)).
Proof.
  assert (Hr : reachable graph_hole) by (apply reachable_run; [apply reachable_new|exact I]).
  split; [exact Hr|]. split; [apply same_content_forget|].
  apply (addFriendGroup_agrees_with_earlier_revision ["A"; "B"] year2015 graph_hole
           (forget_index graph_hole) Hr (same_content_forget _)).
Defined.

(** * Further properties of the calls *)

(** X21.  Asking for the same name again gives the same index and changes
    nothing, on any state on which the first call returned. *)
Theorem getOrCreateNodeIndex_twice nm g idx g' :
  getOrCreateNodeIndex nm g = Return idx g' →
  getOrCreateNodeIndex nm g' = Return idx g'.
Proof.
  intros Hcall. apply getOrCreateNodeIndex_found.
  by eapply getOrCreateNodeIndex_names_result.
Qed.

(** The hypothesis of X21 at work: [C] is created in the graph of [A] and
    [B] and then found. *)
Lemma getOrCreateNodeIndex_twice_witness :
  ∃ g', getOrCreateNodeIndex "C" graph_A_B = Return 2 g'
        ∧ getOrCreateNodeIndex "C" g' = Return 2 g'.
Proof.
  eexists. split; [by vm_compute|].
  eapply (getOrCreateNodeIndex_twice "C" graph_A_B). by vm_compute.
Defined.

(** X22.  [addOrUpdateEdge] does not depend on the order of its two
    indices, on any state. *)
Theorem addOrUpdateEdge_symmetric i j date g :
  addOrUpdateEdge i j date g = addOrUpdateEdge j i date g.
Proof.
  unfold addOrUpdateEdge. rewrite !canonical_min, !canonical_max.
  by rewrite (Nat.min_comm j i), (Nat.max_comm j i).
Qed.

(** X23.  On a reachable state, deleting a live node returns as many pairs
    as [degree] reported for it. *)
Theorem deleteNode_returns_degree_many i g :
  reachable g → is_live g i →
  ∃ removed g', deleteNode i g = Return removed g'
                ∧ degree i g = Return (length removed) g.
Proof.
  intros Hc%reachable_consistent Hlive.
  assert (node_at g i ≠ Null) as Hnn.
  { destruct Hlive as [n Hn]. unfold node_at. by rewrite Hn. }
  destruct (deleteNode_consistent i g Hc Hnn) as (g' & Hdel & _).
  eexists _, g'. split; [exact Hdel|].
  apply degree_incident_count; [done|by apply is_live_lt].
Qed.

(** The hypotheses of X23 at work: [A] has the two edges [A]-[A] and
    [A]-[B]. *)
Lemma deleteNode_returns_degree_many_witness :
  reachable graph_AAB ∧ is_live graph_AAB 0
  ∧ ∃ removed g', deleteNode 0 graph_AAB = Return removed g'
                  ∧ degree 0 graph_AAB = Return (length removed) graph_AAB.
Proof.
  assert (Hlive : is_live graph_AAB 0) by (by eexists).
  split; [apply graph_AAB_reachable|]. split; [exact Hlive|].
  apply (deleteNode_returns_degree_many 0 graph_AAB graph_AAB_reachable Hlive).
Defined.

(** ** The node storage never shrinks *)

Lemma getOrCreateNodeIndex_grows nm g :
  length (nodes g) ≤ length (nodes (state_of (getOrCreateNodeIndex nm g))).
Proof.
  unfold getOrCreateNodeIndex. repeat case_match; simpl; try done.
  - rewrite array_set_length. lia.
  - rewrite length_app. lia.
Qed.

Lemma resolve_names_grows names : ∀ acc g,
  length (nodes g) ≤ length (nodes (state_of (resolve_names names acc g))).
Proof.
  induction names as [|nm names IH]; intros acc g; simpl; [done|].
  pose proof (getOrCreateNodeIndex_grows nm g) as Hstep.
  destruct (getOrCreateNodeIndex nm g) as [idx g1|g1]; simpl in *; [|done].
  etrans; [exact Hstep|apply IH].
Qed.

(** X24.  No call shrinks the node storage, whether it returns or raises:
    an index that was within the storage stays within it. *)
Theorem storage_never_shrinks o g : length (nodes g) ≤ length (nodes (run o g)).
Proof.
  unfold run. destruct o as [nm|i|names date|i|i nn|t|i j date|k|i p|i u]; simpl.
  - pose proof (getOrCreateNodeIndex_grows nm g). by destruct (getOrCreateNodeIndex nm g).
  - done.
  - unfold addFriendGroup.
    apply (bind_nodes _ _ (λ l, length (nodes g) ≤ length l)).
    + apply resolve_names_grows.
    + intros idxs g1 H1. by rewrite link_all_nodes.
  - unfold degree. by case_match.
  - by destruct (renameNode_same_links i nn g) as (_ & _ & _ & -> & _).
  - by destruct (update_same_links t g) as (_ & _ & _ & -> & _).
  - by rewrite addOrUpdateEdge_nodes.
  - pose proof (deleteNode_nodes k g) as Hn.
    destruct (deleteNode k g); simpl in *; rewrite Hn; case_match; try done;
      rewrite array_set_length; lia.
  - by destruct (set_pos_same_links i p g) as (_ & _ & _ & -> & _).
  - by destruct (set_image_same_links i u g) as (_ & _ & _ & -> & _).
Qed.

(** ** Degrees after a deletion *)

Lemma incident_both i k p :
  k ≠ i → p.1 ≤ p.2 → incident k p → incident i p → p = (i `min` k, i `max` k).
Proof.
  destruct p as [a b]. unfold incident. simpl. intros Hne Hle Hk Hi.
  f_equal; lia.
Qed.

Lemma count_after_filter i k (ps : list (nat * nat)) :
  k ≠ i → NoDup ps → (∀ p, p ∈ ps → p.1 ≤ p.2) →
  length (filter (incident k) ps)
  = length (filter (incident k) (filter (λ p, ¬ incident i p) ps))
    + (if decide ((i `min` k, i `max` k) ∈ ps) then 1 else 0).
Proof.
  intros Hne. induction ps as [|p ps IH]; intros Hnd Hle; [done|].
  apply NoDup_cons in Hnd as [Hp Hnd].
  assert (Hle' : ∀ q, q ∈ ps → q.1 ≤ q.2) by (intros q Hq; apply Hle; set_solver).
  specialize (IH Hnd Hle').
  assert (Hpl : p.1 ≤ p.2) by (apply Hle; set_solver).
  destruct (decide (incident k p)) as [Hk|Hk], (decide (incident i p)) as [Hi|Hi].
  - pose proof (incident_both i k p Hne Hpl Hk Hi) as ->.
    rewrite (filter_cons_True (incident k)) by done.
    rewrite (filter_cons_False (λ p, ¬ incident i p)) by auto.
    rewrite decide_True by set_solver. rewrite decide_False in IH by done.
    simpl. lia.
  - rewrite (filter_cons_True (incident k)) by done.
    rewrite (filter_cons_True (λ p, ¬ incident i p)) by done.
    rewrite (filter_cons_True (incident k)) by done. simpl. rewrite IH.
    assert (p ≠ (i `min` k, i `max` k)) as Hneq.
    { intros ->. apply Hi. unfold incident. simpl. lia. }
    repeat case_decide; set_solver by lia.
  - rewrite (filter_cons_False (incident k)) by done.
    rewrite (filter_cons_False (λ p, ¬ incident i p)) by auto. rewrite IH.
    assert (p ≠ (i `min` k, i `max` k)) as Hneq.
    { intros ->. apply Hk. unfold incident. simpl. lia. }
    repeat case_decide; set_solver by lia.
  - rewrite (filter_cons_False (incident k)) by done.
    rewrite (filter_cons_True (λ p, ¬ incident i p)) by done.
    rewrite (filter_cons_False (incident k)) by done. rewrite IH.
    assert (p ≠ (i `min` k, i `max` k)) as Hneq.
    { intros ->. apply Hk. unfold incident. simpl. lia. }
    repeat case_decide; set_solver by lia.
Qed.

Lemma linked_canonical (ps : list (nat * nat)) i k :
  (∀ p, p ∈ ps → p.1 ≤ p.2) → linked ps i k ↔ (i `min` k, i `max` k) ∈ ps.
Proof.
  intros Hle. unfold linked. split.
  - intros [H|H]; pose proof (Hle _ H) as Hik; simpl in Hik.
    + by rewrite Nat.min_l, Nat.max_r by lia.
    + by rewrite Nat.min_r, Nat.max_l by lia.
  - intros H. destruct (decide (i ≤ k)).
    + left. by rewrite Nat.min_l, Nat.max_r in H by lia.
    + right. by rewrite Nat.min_r, Nat.max_l in H by lia.
Qed.

(** X25.  On a reachable state, deleting the live node [i] lowers the degree
    of every other node joined to [i] by exactly one and leaves the degree
    of every other node as it was. *)
Theorem deleteNode_lowers_neighbour_degrees i k g :
  reachable g → is_live g i → k ≠ i → k < length (nodes g) →
  ∃ removed g' d d',
    deleteNode i g = Return removed g'
    ∧ degree k g = Return d g ∧ degree k g' = Return d' g'
    ∧ (linked (pairs (edges g)) i k → d = S d')
    ∧ (¬ linked (pairs (edges g)) i k → d = d').
Proof.
  intros Hc%reachable_consistent Hlive Hne Hk.
  assert (node_at g i ≠ Null) as Hnn.
  { destruct Hlive as [n Hn]. unfold node_at. by rewrite Hn. }
  destruct (deleteNode_consistent i g Hc Hnn) as (g' & Hdel & Hc' & Hn' & He').
  assert (Hk' : k < length (nodes g')).
  { rewrite Hn', array_set_length. lia. }
  eexists _, g', _, _. split; [exact Hdel|].
  split; [by apply degree_incident_count|]. split; [by apply degree_incident_count|].
  assert (Hle : ∀ p, p ∈ pairs (edges g) → p.1 ≤ p.2).
  { intros [a b] Hp. by apply (cons_live _ Hc) in Hp as (? & _). }
  rewrite He', pairs_filter.
  rewrite (count_after_filter i k (pairs (edges g)) Hne
             (index_exact_NoDup _ _ (cons_index _ Hc)) Hle).
  rewrite (linked_canonical _ i k Hle). case_decide; split; intros; try done; lia.
Qed.

(** The hypotheses of X25 at work: deleting [A] takes the one edge of [B]. *)
Lemma deleteNode_lowers_neighbour_degrees_witness :
  reachable graph_AAB ∧ is_live graph_AAB 0 ∧ 1 < length (nodes graph_AAB)
  ∧ linked (pairs (edges graph_AAB)) 0 1
  ∧ ∃ removed g' d d',
      deleteNode 0 graph_AAB = Return removed g'
      ∧ degree 1 graph_AAB = Return d graph_AAB ∧ degree 1 g' = Return d' g'
      ∧ d = S d'.
Proof.
  assert (Hlive : is_live graph_AAB 0) by (by eexists).
  assert (Hlen : 1 < length (nodes graph_AAB)) by (vm_compute; lia).
  assert (Hlinked : linked (pairs (edges graph_AAB)) 0 1).
  { left. rewrite graph_AAB_edges. by apply (list_elem_of_lookup_2 _ 1). }
  assert (Hne : 1 ≠ 0) by lia.
  destruct (deleteNode_lowers_neighbour_degrees 0 1 graph_AAB graph_AAB_reachable
              Hlive Hne Hlen) as (removed & g' & d & d' & Hdel & Hd & Hd' & Hlower & _).
  split; [apply graph_AAB_reachable|]. split; [exact Hlive|]. split; [exact Hlen|].
  split; [exact Hlinked|]. exists removed, g', d, d'.
  split; [exact Hdel|]. split; [exact Hd|]. split; [exact Hd'|]. by apply Hlower.
Defined.

(** ** The page: the autocompletion list *)

Lemma option_names_spec l :
  hole_free l →
  ∃ names, option_names l = Some names ∧ ∀ nm, nm ∈ names ↔ ∃ i, holds_name l nm i.
Proof.
  induction l as [|s l IH]; intros Hfree.
  - exists []. split; [done|]. intros nm. split; [by intros ?%elem_of_nil|].
    by intros (i & n & ? & _).
  - apply not_elem_of_cons in Hfree as [Hs Hfree].
    destruct (IH Hfree) as (names & Hnames & Hspec).
    destruct s as [| |n]; [done| |]; simpl; rewrite Hnames; simpl.
    + exists names. split; [done|]. intros nm. rewrite Hspec. split.
      * intros (i & n & Hi & Hnm). exists (S i), n. done.
      * intros ([|i] & n & Hi & Hnm); [done|]. exists i, n. done.
    + exists (name n :: names). split; [done|]. intros nm.
      rewrite elem_of_cons, Hspec. split.
      * intros [->|(i & n' & Hi & Hnm)]; [by exists 0, n|by exists (S i), n'].
      * intros ([|i] & n' & Hi & Hnm); simpl in Hi; [left; by simplify_eq|].
        right. by exists i, n'.
Qed.

(** X26.  On a storage whose slots are all live or free,
    [syncFriendDatalist] does not raise, and the names it offers are exactly
    the names for which [getOrCreateNodeIndex] finds a node and changes
    nothing. *)
Theorem datalist_offers_the_existing_names g :
  hole_free (nodes g) →
  ∃ names, syncFriendDatalist g = Some names
           ∧ ∀ nm, nm ∈ names ↔ ∃ idx, getOrCreateNodeIndex nm g = Return idx g.
Proof.
  intros Hfree. destruct (option_names_spec _ Hfree) as (names & Hnames & Hspec).
  exists names. split; [done|]. intros nm. rewrite Hspec. split.
  - intros [i Hi].
    destruct (getOrCreateNodeIndex_hole_free nm g Hfree) as (idx & g' & Hcall & _).
    exists idx. rewrite Hcall. f_equal. revert Hcall. unfold getOrCreateNodeIndex.
    destruct (scan_name nm (nodes g) 0) eqn:Hscan; [by intros [= _ <-]| |done].
    destruct Hi as (n & Hn & Hnm).
    destruct (scan_name_not_found _ _ _ Hscan _ _ Hn) as [?|(n' & ? & ?)]; by simplify_eq.
  - intros [idx Hcall]. exists idx.
    by destruct (getOrCreateNodeIndex_names_result _ _ _ _ Hcall) as [Hholds _].
Qed.

(** The hypothesis of X26 at work on the graph of [A] and [B]. *)
Lemma datalist_offers_the_existing_names_witness :
  hole_free (nodes graph_A_B)
  ∧ ∃ names, syncFriendDatalist graph_A_B = Some names
             ∧ ∃ idx, getOrCreateNodeIndex "B" graph_A_B = Return idx graph_A_B.
Proof.
  assert (Hfree : hole_free (nodes graph_A_B)).
  { intros H. apply elem_of_cons in H as [H|H]; [done|].
    apply elem_of_cons in H as [H|H]; [done|]. by apply elem_of_nil in H. }
  destruct (datalist_offers_the_existing_names graph_A_B Hfree) as (names & Hsync & Hspec).
  split; [exact Hfree|]. exists names. split; [exact Hsync|].
  apply Hspec. assert (syncFriendDatalist graph_A_B = Some ["A"; "B"]) as Hnames
    by reflexivity.
  rewrite Hnames in Hsync. simplify_eq. set_solver.
Defined.

(** ** A free slot has no edges *)

(** X27.  On a reachable state a free slot has degree 0. *)
Theorem free_slot_has_degree_zero i g :
  reachable g → isFree i g = true → degree i g = Return 0 g.
Proof.
  intros Hc%reachable_consistent Hfree.
  assert (Hnull : nodes g !! i = Some Null).
  { unfold isFree, node_at in Hfree. by destruct (nodes g !! i) as [[]|]. }
  rewrite (degree_incident_count g i Hc) by (by eapply lookup_lt_Some). f_equal.
  destruct (filter (incident i) (pairs (edges g))) as [|[a b] rest] eqn:Hfilter; [done|].
  assert (Hin : (a, b) ∈ filter (incident i) (pairs (edges g)))
    by (rewrite Hfilter; set_solver).
  apply list_elem_of_filter in Hin as [Hinc Hin].
  apply (cons_live _ Hc) in Hin as (_ & [na Ha] & [nb Hb]).
  unfold incident in Hinc. simpl in Hinc. destruct Hinc; simplify_eq.
Qed.

(** The hypotheses of X27 at work: slot 0 after [A] is deleted. *)
Lemma free_slot_has_degree_zero_witness :
  reachable (run (DeleteNode 0) graph_AAB)
  ∧ isFree 0 (run (DeleteNode 0) graph_AAB) = true
  ∧ degree 0 (run (DeleteNode 0) graph_AAB) = Return 0 (run (DeleteNode 0) graph_AAB).
Proof.
  assert (Hr : reachable (run (DeleteNode 0) graph_AAB))
    by (apply reachable_run; [apply graph_AAB_reachable|exact I]).
  assert (Hfree : isFree 0 (run (DeleteNode 0) graph_AAB) = true) by (by vm_compute).
  split; [exact Hr|]. split; [exact Hfree|].
  apply (free_slot_has_degree_zero 0 _ Hr Hfree).
Defined.

(** ** The page: the autocompletion list after a group is added *)

Lemma getOrCreateNodeIndex_keeps_nodes nm g i n :
  nodes g !! i = Some (Live n) →
  nodes (state_of (getOrCreateNodeIndex nm g)) !! i = Some (Live n).
Proof.
  intros Hi. unfold getOrCreateNodeIndex.
  destruct (scan_name nm (nodes g) 0); [done| |done].
  destruct (scan_null (nodes g) 0) as [k|] eqn:Hnull; simpl.
  - apply scan_null_some in Hnull as (i0 & -> & Hi0 & _). simpl.
    rewrite (array_set_in_range Undefined) by (by eapply lookup_lt_Some).
    rewrite list_lookup_insert_ne; [done|]. intros ->. congruence.
  - by rewrite lookup_app_l by (by eapply lookup_lt_Some).
Qed.

Lemma getOrCreateNodeIndex_keeps_hole_free nm g :
  hole_free (nodes g) → hole_free (nodes (state_of (getOrCreateNodeIndex nm g))).
Proof.
  intros Hfree. destruct (getOrCreateNodeIndex_hole_free nm g Hfree) as (idx & g' & -> & H).
  done.
Qed.

Lemma resolve_names_keeps names (Q : list slot → Prop) :
  (∀ nm g, Q (nodes g) → Q (nodes (state_of (getOrCreateNodeIndex nm g)))) →
  ∀ acc g, Q (nodes g) → Q (nodes (state_of (resolve_names names acc g))).
Proof.
  intros Hstep. induction names as [|nm names IH]; intros acc g HQ; simpl; [done|].
  apply (bind_nodes _ _ Q); [by apply Hstep|]. intros idx g1 H1. by apply IH.
Qed.

(** X28.  What the add handler of the page leaves: on a reachable state
    whose slots are all live or free, after [addFriendGroup(names, date)]
    the autocompletion list is rebuilt without raising, it offers every
    name of the group, and no name that a node held before is missing. *)
Theorem added_names_are_offered names date g :
  reachable g → hole_free (nodes g) →
  ∃ g' opts, addFriendGroup names date g = Return tt g'
    ∧ syncFriendDatalist g' = Some opts
    ∧ (∀ nm, nm ∈ names → nm ∈ opts)
    ∧ (∀ nm i, holds_name (nodes g) nm i → nm ∈ opts).
Proof.
  intros Hr Hfree.
  destruct (addFriendGroup_effect names date g Hr Hfree)
    as (idxs & g' & Hcall & Hnamed & _).
  assert (Hstate : nodes g' = nodes (state_of (resolve_names names [] g))).
  { pose proof Hcall as Hcall'. unfold addFriendGroup in Hcall'.
    destruct (resolve_names names [] g) as [idxs' g1|g1]; simpl in *; [|done].
    pose proof (link_all_nodes idxs' date g1) as Hn. by rewrite Hcall' in Hn. }
  assert (Hfree' : hole_free (nodes g')).
  { rewrite Hstate. apply (resolve_names_keeps names hole_free); [|done].
    intros nm g0. apply getOrCreateNodeIndex_keeps_hole_free. }
  destruct (option_names_spec _ Hfree') as (opts & Hopts & Hspec).
  exists g', opts. split_and!; [done..| |].
  - intros nm [p Hp]%list_elem_of_lookup_1.
    destruct (Forall2_lookup_l _ _ _ _ _ Hnamed Hp) as (i & _ & Hholds & _).
    apply Hspec. by exists i.
  - intros nm i (n & Hn & Hnm). apply Hspec. exists i, n. split; [|done].
    rewrite Hstate.
    apply (resolve_names_keeps names (λ l, l !! i = Some (Live n))); [|done].
    intros nm0 g0. apply getOrCreateNodeIndex_keeps_nodes.
Qed.

(** The hypotheses of X28 at work: a group of [C] and [A] on the graph of
    [A] and [B]. *)
Lemma added_names_are_offered_witness :
  reachable graph_A_B ∧ hole_free (nodes graph_A_B)
  ∧ ∃ g' opts, addFriendGroup ["C"; "A"] year2015 graph_A_B = Return tt g'
      ∧ syncFriendDatalist g' = Some opts ∧ "C" ∈ opts.
Proof.
  assert (Hfree : hole_free (nodes graph_A_B)).
  { intros H. apply elem_of_cons in H as [H|H]; [done|].
    apply elem_of_cons in H as [H|H]; [done|]. by apply elem_of_nil in H. }
  destruct (added_names_are_offered ["C"; "A"] year2015 graph_A_B
              graph_A_B_reachable Hfree) as (g' & opts & Hcall & Hsync & Hgroup & _).
  split; [apply graph_A_B_reachable|]. split; [exact Hfree|].
  exists g', opts. split; [exact Hcall|]. split; [exact Hsync|].
  apply Hgroup. set_solver.
Defined.

(** ** The order of two dates for one edge *)

Lemma earlier_swap d1 d2 old : earlier d2 (earlier d1 old) = earlier d1 (earlier d2 old).
Proof.
  destruct d1 as [[|t1]], d2 as [[|t2]], old as [[|t0]]; unfold earlier; simpl; try done;
    repeat (case_bool_decide; simpl); try done; try lia; do 2 f_equal; lia.
Qed.

Lemma earlier_swap_fresh d1 d2 : valid d1 → valid d2 → earlier d2 d1 = earlier d1 d2.
Proof.
  intros [t1 H1] [t2 H2]. destruct d1 as [v1], d2 as [v2]. simpl in *. subst.
  unfold earlier. simpl. repeat case_bool_decide; try done; try lia. do 2 f_equal. lia.
Qed.

Lemma consistent_determined g g' :
  consistent g → consistent g' → nodes g = nodes g' → edges g = edges g' →
  tunables g = tunables g' → g = g'.
Proof.
  intros Hc Hc' Hn He Ht.
  assert (Hi : _pairToEdgeIndex g = _pairToEdgeIndex g').
  { apply (index_exact_unique (pairs (edges g))); [apply (cons_index _ Hc)|].
    rewrite He. apply (cons_index _ Hc'). }
  assert (Ha : _adj g = _adj g').
  { apply (adj_exact_unique (pairs (edges g))).
    - by rewrite (cons_len _ Hc), (cons_len _ Hc'), Hn.
    - apply (cons_adj _ Hc).
    - rewrite He. apply (cons_adj _ Hc'). }
  destruct g, g'. unfold tunables in Ht. simpl in *. by simplify_eq.
Qed.

Lemma addOrUpdateEdge_edges i j date g :
  consistent g → is_live g i → is_live g j →
  ∃ g', addOrUpdateEdge i j date g = Return tt g' ∧ consistent g'
    ∧ nodes g' = nodes g ∧ tunables g' = tunables g
    ∧ ((∃ e old, edges g !! e = Some (i `min` j, i `max` j, old)
          ∧ edges g' = <[e := (i `min` j, i `max` j, earlier date old)]> (edges g))
       ∨ (((i `min` j, i `max` j) ∉ pairs (edges g))
          ∧ edges g' = edges g ++ [(i `min` j, i `max` j, date)])).
Proof.
  intros Hc Hi Hj.
  destruct (addOrUpdateEdge_consistent i j date g Hc Hi Hj)
    as (g' & Hcall & Hc' & Hn & Hedges).
  exists g'. split_and!; [done..| |done].
  pose proof (addOrUpdateEdge_tunables i j date g) as Ht. by rewrite Hcall in Ht.
Qed.

Lemma addOrUpdateEdge_two_dates i j d1 d2 g :
  consistent g → is_live g i → is_live g j →
  ∃ g1 g2, addOrUpdateEdge i j d1 g = Return tt g1
    ∧ addOrUpdateEdge i j d2 g1 = Return tt g2 ∧ consistent g2
    ∧ nodes g2 = nodes g ∧ tunables g2 = tunables g
    ∧ ((∃ e old, edges g !! e = Some (i `min` j, i `max` j, old)
          ∧ edges g2
            = <[e := (i `min` j, i `max` j, earlier d2 (earlier d1 old))]> (edges g))
       ∨ (((i `min` j, i `max` j) ∉ pairs (edges g))
          ∧ edges g2 = edges g ++ [(i `min` j, i `max` j, earlier d2 d1)])).
Proof.
  intros Hc Hi Hj.
  destruct (addOrUpdateEdge_edges i j d1 g Hc Hi Hj)
    as (g1 & Hcall1 & Hc1 & Hn1 & Ht1 & Hedges1).
  destruct (addOrUpdateEdge_edges i j d2 g1 Hc1) as (g2 & Hcall2 & Hc2 & Hn2 & Ht2 & Hedges2);
    [by eapply is_live_nodes..|].
  exists g1, g2. split_and!; [done|done|done|congruence|congruence|].
  pose proof (index_exact_NoDup _ _ (cons_index _ Hc1)) as Hnd1.
  destruct Hedges1 as [(e & old & Hlook & He1)|[Hfresh He1]].
  - left. exists e, old. split; [done|].
    pose proof (lookup_lt_Some _ _ _ Hlook) as Hlt.
    assert (Hlook1 : edges g1 !! e = Some (i `min` j, i `max` j, earlier d1 old)).
    { rewrite He1. by apply list_lookup_insert_eq. }
    destruct Hedges2 as [(e2 & old2 & Hlook2 & He2)|[Hfresh2 _]].
    + assert (e2 = e) as ->.
      { eapply NoDup_lookup; [exact Hnd1|..]; apply pairs_lookup; eauto. }
      rewrite Hlook1 in Hlook2. simplify_eq.
      rewrite He2, He1. by rewrite list_insert_insert_eq.
    + destruct Hfresh2. apply pairs_elem. eexists. by eapply list_elem_of_lookup_2.
  - right. split; [done|].
    assert (Hlook1 : edges g1 !! length (edges g) = Some (i `min` j, i `max` j, d1)).
    { rewrite He1. by rewrite lookup_app_r, Nat.sub_diag. }
    destruct Hedges2 as [(e2 & old2 & Hlook2 & He2)|[Hfresh2 _]].
    + assert (e2 = length (edges g)) as ->.
      { eapply NoDup_lookup; [exact Hnd1|..]; apply pairs_lookup; eauto. }
      rewrite Hlook1 in Hlook2. simplify_eq.
      rewrite He2, He1. rewrite insert_app_r_alt, Nat.sub_diag by done. done.
    + destruct Hfresh2. apply pairs_elem. eexists. by eapply list_elem_of_lookup_2.
Qed.

(** X29.  On a reachable state, two calls of [addOrUpdateEdge] for the same
    two live nodes leave the same state whichever of the two dates comes
    first, when the pair already has an edge or neither date is an Invalid
    Date. *)
Theorem addOrUpdateEdge_dates_commute i j d1 d2 g :
  reachable g → is_live g i → is_live g j →
  (valid d1 ∧ valid d2) ∨ (i `min` j, i `max` j) ∈ pairs (edges g) →
  ∃ g', bind (addOrUpdateEdge i j d1 g) (λ _, addOrUpdateEdge i j d2) = Return tt g'
        ∧ bind (addOrUpdateEdge i j d2 g) (λ _, addOrUpdateEdge i j d1) = Return tt g'.
Proof.
  intros Hc%reachable_consistent Hi Hj Hdates.
  destruct (addOrUpdateEdge_two_dates i j d1 d2 g Hc Hi Hj)
    as (g1 & g12 & Hc1 & Hc12 & Hcons12 & Hn12 & Ht12 & He12).
  destruct (addOrUpdateEdge_two_dates i j d2 d1 g Hc Hi Hj)
    as (g2 & g21 & Hc2 & Hc21 & Hcons21 & Hn21 & Ht21 & He21).
  exists g12. rewrite Hc1, Hc2. simpl. split; [done|]. rewrite Hc21. f_equal.
  apply consistent_determined; [done|done|congruence| |congruence].
  pose proof (index_exact_NoDup _ _ (cons_index _ Hc)) as Hnd.
  destruct He12 as [(e & old & Hlook & ->)|[Hfresh ->]],
           He21 as [(e' & old' & Hlook' & ->)|[Hfresh' ->]].
  - assert (e' = e) as ->.
    { eapply NoDup_lookup; [exact Hnd|..]; apply pairs_lookup; eauto. }
    rewrite Hlook in Hlook'. simplify_eq. by rewrite earlier_swap.
  - destruct Hfresh'. apply pairs_elem. eexists. by eapply list_elem_of_lookup_2.
  - destruct Hfresh. apply pairs_elem. eexists. by eapply list_elem_of_lookup_2.
  - destruct Hdates as [[Hv1 Hv2]|Hstored]; [|done].
    by rewrite (earlier_swap_fresh d1 d2 Hv1 Hv2).
Qed.

(** The hypotheses of X29 at work: the dates 2000 and 2015 for a new edge
    between [A] and [B]. *)
Lemma addOrUpdateEdge_dates_commute_witness :
  reachable graph_A_B ∧ is_live graph_A_B 0 ∧ is_live graph_A_B 1
  ∧ valid year2000 ∧ valid year2015
  ∧ ∃ g', bind (addOrUpdateEdge 0 1 year2000 graph_A_B)
               (λ _, addOrUpdateEdge 0 1 year2015) = Return tt g'
          ∧ bind (addOrUpdateEdge 0 1 year2015 graph_A_B)
                 (λ _, addOrUpdateEdge 0 1 year2000) = Return tt g'.
Proof.
  assert (H0 : is_live graph_A_B 0) by (by eexists).
  assert (H1 : is_live graph_A_B 1) by (by eexists).
  assert (Hv0 : valid year2000) by (by eexists).
  assert (Hv1 : valid year2015) by (by eexists).
  split; [apply graph_A_B_reachable|]. split; [exact H0|]. split; [exact H1|].
  split; [exact Hv0|]. split; [exact Hv1|].
  apply (addOrUpdateEdge_dates_commute 0 1 year2000 year2015 graph_A_B
           graph_A_B_reachable H0 H1 (or_introl (conj Hv0 Hv1))).
Defined.

(** ** Where undefined cells come from *)

Lemma hole_free_array_set_null l k :
  hole_free l → k ≤ length l → hole_free (array_set Undefined l k Null).
Proof.
  intros Hfree Hk. unfold array_set. case_decide; [by apply hole_free_insert|].
  replace (k - length l) with 0 by lia. simpl. unfold hole_free in *. set_solver.
Qed.

(** X30.  A storage whose slots are all live or free stays so under every
    call, whether it returns or raises, except a [deleteNode] with an index
    beyond the one just past the end of the storage: that is the only call
    that can leave an undefined cell. *)
Theorem holes_only_from_deleteNode_past_end o g :
  hole_free (nodes g) → deletes_within o g → hole_free (nodes (run o g)).
Proof.
  intros Hfree Hwithin. unfold run.
  destruct o as [nm|i|names date|i|i nn|t|i j date|k|i p|i u]; simpl in *.
  - pose proof (getOrCreateNodeIndex_keeps_hole_free nm g Hfree) as H'.
    by destruct (getOrCreateNodeIndex nm g).
  - done.
  - unfold addFriendGroup. apply (bind_nodes _ _ hole_free).
    + apply (resolve_names_keeps names hole_free); [|done].
      intros nm g0. apply getOrCreateNodeIndex_keeps_hole_free.
    + intros idxs g1 H1. by rewrite link_all_nodes.
  - unfold degree. by case_match.
  - unfold renameNode. destruct (node_at g i); simpl; try done.
    by apply hole_free_insert.
  - destruct (update t g) as [[] g'|g'] eqn:Hup; simpl.
    + by eapply update_hole_free.
    + apply update_throw in Hup. by subst.
  - by rewrite addOrUpdateEdge_nodes.
  - pose proof (deleteNode_nodes k g) as Hn.
    destruct (deleteNode k g); simpl in *; rewrite Hn; case_match; try done;
      by apply hole_free_array_set_null.
  - unfold set_pos. destruct (node_at g i); simpl; try done. by apply hole_free_insert.
  - unfold set_image. destruct (node_at g i); simpl; try done. by apply hole_free_insert.
Qed.

(** The hypotheses of X30 at work: deleting just past the end of the graph
    of [A] and [B] appends a free slot. *)
Lemma holes_only_from_deleteNode_past_end_witness :
  hole_free (nodes graph_A_B) ∧ deletes_within (DeleteNode 2) graph_A_B
  ∧ hole_free (nodes (run (DeleteNode 2) graph_A_B)).
Proof.
  assert (Hfree : hole_free (nodes graph_A_B)).
  { intros H. apply elem_of_cons in H as [H|H]; [done|].
    apply elem_of_cons in H as [H|H]; [done|]. by apply elem_of_nil in H. }
  assert (Hwithin : deletes_within (DeleteNode 2) graph_A_B) by (vm_compute; lia).
  split; [exact Hfree|]. split; [exact Hwithin|].
  apply (holes_only_from_deleteNode_past_end (DeleteNode 2) graph_A_B Hfree Hwithin).
Defined.
